(** * Parabolic SAR backtest ([backtest_app.py]): a shallow embedding

    The script builds a pandas data frame column by column.  Each column
    is modelled as a list, each vectorised expression as a map or a zip
    over the columns it reads.  A [float64] cell is a rational number or
    [None]; arithmetic on rationals is exact, so rounding and overflow
    are outside the model.

    Division by zero.  IEEE division answers NaN for 0/0 and an infinity
    for any other quotient by zero.  A quotient of two cells ([ndiv]) is
    [None] whenever the divisor is zero: [None] is NaN, or an infinity
    that the cell type does not tell from NaN.  The two differ in what is
    computed from them (a sum skips NaN, not an infinity), so a
    statement about the values of [net_pnl], of [equity] or of a table
    built from them carries the guard [closes_nonzero], unless it is
    about bars on which no quotient is selected (flat bars): with no zero
    close, no quotient of closes has a zero divisor and every cell of
    these columns is a number.  An equity can be exactly zero on such a
    frame too: the daily returns of line 70, which the Sharpe ratio reads,
    are cells of their own type ([xnum]) that keeps NaN and the two
    infinities apart, and a statement about a monthly return carries the
    guard that the equity it is measured against is not zero.

    The indicator level comes from [ta.trend.PSARIndicator], a third-party
    library: the frame the simulation starts from already has its [sar]
    column (script line 46), and the engine as a whole takes the indicator
    as a parameter. *)

From Stdlib Require Import ZArith QArith Qminmax List Permutation Bool Lia Lqa.
Import ListNotations.

Open Scope Q_scope.

(** ** Cells *)

(** A [float64] cell: a number, or [None] for a cell that is not a
    number. *)
Abbreviation num := (option Q) (only parsing).

Definition lift2 (f : Q -> Q -> Q) (a b : num) : num :=
  match a, b with
  | Some x, Some y => Some (f x y)
  | _, _ => None
  end.

Definition nadd : num -> num -> num := lift2 Qplus.
Definition nsub : num -> num -> num := lift2 Qminus.
Definition nmul : num -> num -> num := lift2 Qmult.

(** A quotient by zero is not a number. *)
Definition ndiv (a b : num) : num :=
  match a, b with
  | Some x, Some y => if Qeq_bool y 0 then None else Some (x / y)
  | _, _ => None
  end.

(** A [float64] cell that keeps NaN and the infinities apart. *)
Inductive xnum : Type :=
| Fin (q : Q)
| PInf
| NInf
| NaN.

Definition Qltb (x y : Q) : bool := negb (Qle_bool y x).

(** The quotient of two numbers as IEEE has it: a zero divisor gives NaN
    for a zero dividend, else the infinity of the sign of the dividend
    (the zero divisors of the script are sums, which are never the
    negative zero). *)
Definition xdiv (x y : Q) : xnum :=
  if Qeq_bool y 0 then
    if Qeq_bool x 0 then NaN else if Qltb 0 x then PInf else NInf
  else Fin (x / y).

Definition infinite (c : xnum) : bool :=
  match c with
  | PInf | NInf => true
  | _ => false
  end.

(** The numbers of a column, which is what is left of it for a
    reduction that skips NaN when the column has no infinity. *)
Fixpoint finite (l : list xnum) : list Q :=
  match l with
  | [] => []
  | Fin q :: t => q :: finite t
  | _ :: t => finite t
  end.

(** Exceptions of a run: [IndexError] and [ValueError] are pandas' own,
    [IndicatorError] stands for whatever the indicator raises. *)
Inductive exn : Type :=
| IndexError
| ValueError
| IndicatorError.

Inductive result (A : Type) : Type :=
| Ok (a : A)
| Raise (e : exn).
Arguments Ok {A} a.
Arguments Raise {A} e.

Definition bind {A B} (m : result A) (k : A -> result B) : result B :=
  match m with
  | Ok a => k a
  | Raise e => Raise e
  end.

Notation "x <- m ;; k" := (bind m (fun x => k))
  (at level 61, m at next level, right associativity).

(** ** The pandas and numpy operations the script calls *)

Module Pd.

Fixpoint zip_with {A B C} (f : A -> B -> C) (l : list A) (m : list B) : list C :=
  match l, m with
  | a :: l', b :: m' => f a b :: zip_with f l' m'
  | _, _ => []
  end.

(** [Series.shift(1)]: every cell takes the value of the cell before it,
    the first cell becomes NaN and the last value is dropped. *)
Fixpoint shift_from {A} (prev : option A) (l : list A) : list (option A) :=
  match l with
  | [] => []
  | x :: t => prev :: shift_from (Some x) t
  end.

Definition shift {A} : list A -> list (option A) := shift_from None.

(** [Series.fillna(d)]. *)
Definition fillna {A} (d : A) (l : list (option A)) : list A :=
  map (fun c => match c with Some x => x | None => d end) l.

(** [Series.cumsum()]: NaN cells stay NaN and are skipped by the running
    total. *)
Fixpoint cumsum_from (acc : Q) (l : list num) : list num :=
  match l with
  | [] => []
  | None :: t => None :: cumsum_from acc t
  | Some x :: t => Some (acc + x) :: cumsum_from (acc + x) t
  end.

Definition cumsum : list num -> list num := cumsum_from 0.

(** Cumulative sum of a boolean column. *)
Fixpoint cumcount_from (acc : Z) (l : list bool) : list Z :=
  match l with
  | [] => []
  | b :: t =>
      let acc' := (if b then acc + 1 else acc)%Z in
      acc' :: cumcount_from acc' t
  end.

Definition cumcount : list bool -> list Z := cumcount_from 0%Z.

Definition Qsum (l : list Q) : Q := fold_right Qplus 0 l.

(** The cells of a column that are not NaN. *)
Fixpoint valid (l : list num) : list Q :=
  match l with
  | [] => []
  | Some x :: t => x :: valid t
  | None :: t => valid t
  end.

(** ['sum'] with [skipna]: the sum of an empty or all-NaN column is 0. *)
Definition sum (l : list num) : Q := Qsum (valid l).

(** ['last'] of an aggregation skips NaN cells. *)
Definition last (l : list num) : num := hd_error (rev (valid l)).

(** [Series.iloc[-1]] raises [IndexError] on an empty column. *)
Definition iloc_last {A} (l : list A) : result A :=
  match rev l with
  | [] => Raise IndexError
  | x :: _ => Ok x
  end.

(** [Series.mean()]: NaN for an empty sample. *)
Definition mean (l : list Q) : num :=
  match l with
  | [] => None
  | _ :: _ => Some (Qsum l / inject_Z (Z.of_nat (length l)))
  end.

(** [Series.var()], with pandas' default [ddof=1]: NaN for fewer than
    two observations. *)
Definition var (l : list Q) : num :=
  match l with
  | [] | [_] => None
  | _ =>
      let m := Qsum l / inject_Z (Z.of_nat (length l)) in
      Some (Qsum (map (fun x => (x - m) * (x - m)) l)
            / inject_Z (Z.of_nat (length l) - 1))
  end.

(** [Series.cummax()]. *)
Fixpoint cummax_from (peak : Q) (l : list Q) : list Q :=
  match l with
  | [] => []
  | x :: t => let p := Qmax peak x in p :: cummax_from p t
  end.

Definition cummax (l : list Q) : list Q :=
  match l with
  | [] => []
  | x :: t => x :: cummax_from x t
  end.

(** [Series.max()]: NaN for an empty column. *)
Definition max (l : list Q) : num :=
  match l with
  | [] => None
  | x :: t => Some (fold_left Qmax t x)
  end.

(** [Series.ffill()]. *)
Fixpoint ffill_from (prev : num) (l : list num) : list num :=
  match l with
  | [] => []
  | Some x :: t => Some x :: ffill_from (Some x) t
  | None :: t => prev :: ffill_from prev t
  end.

Definition ffill : list num -> list num := ffill_from None.

(** [Series.pct_change()] as in the pandas releases that accept the
    ['M'] alias of line 114: NaN cells are padded forward first
    ([fill_method='pad']), then each cell is divided by the one before
    it.  The change from a zero cell is not a number ([None]): NaN for
    0/0, an infinity otherwise. *)
Definition pct_change (l : list num) : list num :=
  let filled := ffill l in
  zip_with (fun x p => nsub (ndiv x p) (Some 1))
           filled (fillna None (shift filled)).

(** The labels [lo, lo+1, ..., hi] of the bins of a resampling. *)
Definition bins (lo hi : Z) : list Z :=
  map (fun i => (lo + Z.of_nat i)%Z) (seq 0 (Z.to_nat (hi - lo + 1))).

(** [DataFrame.resample(rule, on=...)]: one bin for every period from
    that of the first row to that of the last row of a frame sorted on
    the time column; a bin holds the rows of its period and may be
    empty. *)
Definition resample {A} (period : A -> Z) (df : list A) : list (Z * list A) :=
  match df with
  | [] => []
  | r0 :: _ =>
      map (fun k => (k, filter (fun r => (period r =? k)%Z) df))
          (bins (period r0) (period (List.last df r0)))
  end.

(** The distinct keys of a column, ascending. *)
Fixpoint insert_key (k : Z) (ks : list Z) : list Z :=
  match ks with
  | [] => [k]
  | h :: t =>
      if (k <? h)%Z then k :: ks
      else if (k =? h)%Z then ks
      else h :: insert_key k t
  end.

Definition unique (ks : list Z) : list Z := fold_right insert_key [] ks.

(** [DataFrame.groupby(key)]: one group per distinct key, keys
    ascending, rows in frame order inside a group. *)
Definition groupby {A} (key : A -> Z) (df : list A) : list (Z * list A) :=
  map (fun k => (k, filter (fun r => (key r =? k)%Z) df))
      (unique (map key df)).

End Pd.

(** ** Calendar periods of a timestamp

    A timestamp is a count of seconds since 1970-01-01T00:00. *)

Definition day_of (t : Z) : Z := (t / 86400)%Z.

(** Months since January 1970 of a day number (proleptic Gregorian
    calendar, March-based years inside a 400-year era). *)
Definition month_of_day (d : Z) : Z :=
  let z := (d + 719468)%Z in
  let era := (z / 146097)%Z in
  let doe := (z - era * 146097)%Z in
  let yoe := ((doe - doe / 1460 + doe / 36524 - doe / 146096) / 365)%Z in
  let doy := (doe - (365 * yoe + yoe / 4 - yoe / 100))%Z in
  let mp := ((5 * doy + 2) / 153)%Z in
  let m := (if mp <? 10 then mp + 3 else mp - 9)%Z in
  let y := (yoe + era * 400 + (if m <=? 2 then 1 else 0))%Z in
  ((y - 1970) * 12 + (m - 1))%Z.

Definition month_of (t : Z) : Z := month_of_day (day_of t).

(** ** The data frame *)

(** A row of the uploaded CSV (line 18). *)
Record Bar : Type := mkBar {
  datetime : Z;
  open : Q;
  high : Q;
  low : Q;
  close : Q;
  volume : Q
}.

(** A row of [df] once line 46 has added the indicator level. *)
Record Row : Type := mkRow {
  bar :> Bar;
  sar : Q
}.

(** The guard of the statements about values: no close of the frame is
    zero, so that no quotient of closes (lines 55-56) has a zero
    divisor. *)
Definition closes_nonzero (df : list Row) : Prop :=
  forall r : Row, In r df -> ~ close r == 0.

(** Lines 50-51. *)
Definition initial_capital : Q := 100000.
Definition transaction_cost : Q := 100.

(** Line 47. *)
Definition signal_of (r : Row) : Z :=
  if Qltb (sar r) (close r) then 1%Z
  else if Qltb (close r) (sar r) then (-1)%Z
  else 0%Z.

Definition signal (df : list Row) : list Z := map signal_of df.

(** Line 52. *)
Definition position (df : list Row) : list Z :=
  Pd.fillna 0%Z (Pd.shift (signal df)).

(** Lines 54-57: [np.where] selects per row among the three columns.  A
    quotient by a zero close is not a number ([None]): NaN for 0/0, an
    infinity otherwise. *)
Definition trade_return_of (p : Z) (c : Q) (prev : num) : num :=
  if (p =? 1)%Z then nsub (ndiv (Some c) prev) (Some 1)
  else if (p =? -1)%Z then nsub (ndiv prev (Some c)) (Some 1)
  else Some 0.

Definition trade_return (df : list Row) : list num :=
  Pd.zip_with (fun p cp => trade_return_of p (fst cp) (snd cp))
    (position df)
    (combine (map (fun r : Row => close r) df)
             (Pd.shift (map (fun r : Row => close r) df))).

(** Line 58. *)
Definition trade_pnl (df : list Row) : list num :=
  map (fun x => nmul x (Some initial_capital)) (trade_return df).

(** Lines 59-62: a comparison with NaN by [!=] is true. *)
Definition differs (p : Z) (prev : option Z) : bool :=
  match prev with
  | None => true
  | Some q => negb (p =? q)%Z
  end.

Definition trade_cost_of (p : Z) (prev : option Z) : Q :=
  if differs p prev && negb (p =? 0)%Z then transaction_cost else 0.

Definition trade_cost (df : list Row) : list Q :=
  Pd.zip_with trade_cost_of (position df) (Pd.shift (position df)).

(** Line 63. *)
Definition net_pnl (df : list Row) : list num :=
  Pd.zip_with (fun x c => nsub x (Some c)) (trade_pnl df) (trade_cost df).

(** Line 64. *)
Definition equity (df : list Row) : list num :=
  map (fun s => nadd (Some initial_capital) s) (Pd.cumsum (net_pnl df)).

(** ** Risk and performance (lines 69-80) *)

(** The three columns of [df] the resamplings read. *)
Record Point : Type := mkPoint {
  p_time : Z;
  p_net_pnl : num;
  p_equity : num
}.

Definition points (df : list Row) : list Point :=
  Pd.zip_with (fun t ne => mkPoint t (fst ne) (snd ne))
    (map (fun r : Row => datetime r) df)
    (combine (net_pnl df) (equity df)).

(** A row of [.agg({'net_pnl': 'sum', 'equity': 'last'})]. *)
Record Bucket : Type := mkBucket {
  b_label : Z;
  b_net_pnl : Q;
  b_equity : num
}.

Definition aggregate (g : Z * list Point) : Bucket :=
  mkBucket (fst g)
           (Pd.sum (map p_net_pnl (snd g)))
           (Pd.last (map p_equity (snd g))).

(** A row of [daily]: [dropna()] has removed the NaN cells. *)
Record Daily : Type := mkDaily {
  d_day : Z;
  d_net_pnl : Q;
  d_equity : Q
}.

Fixpoint dropna (l : list Bucket) : list Daily :=
  match l with
  | [] => []
  | b :: t =>
      match b_equity b with
      | Some e => mkDaily (b_label b) (b_net_pnl b) e :: dropna t
      | None => dropna t
      end
  end.

(** [df.resample(rule, on='datetime').agg(...)] of lines 69 and 114;
    [per] is the period of the rule, [day_of] for ['D'] and [month_of]
    for ['M']. *)
Definition buckets (per : Z -> Z) (df : list Row) : list Bucket :=
  map aggregate (Pd.resample (fun p => per (p_time p)) (points df)).

(** Line 69. *)
Definition daily_buckets (df : list Row) : list Bucket := buckets day_of df.

Definition daily (df : list Row) : list Daily := dropna (daily_buckets df).

(** Line 70. *)
Definition daily_ret_of (d : list Daily) : list xnum :=
  Pd.zip_with xdiv (map d_net_pnl d)
    (Pd.fillna initial_capital (Pd.shift (map d_equity d))).

Definition daily_ret (df : list Row) : list xnum := daily_ret_of (daily df).

(** Line 73. *)
Definition drawdowns (eq : list Q) : list Q :=
  Pd.zip_with (fun peak e => (peak - e) / peak) (Pd.cummax eq) eq.

Definition max_dd_of (eq : list Q) : num := Pd.max (drawdowns eq).

Definition max_dd (df : list Row) : num := max_dd_of (map d_equity (daily df)).

(** ** Trade log (lines 95-106) *)

Definition prev_position (df : list Row) : list Z :=
  Pd.fillna 0%Z (Pd.shift (position df)).

Definition trade_start_of (p prev : Z) : bool :=
  negb (p =? prev)%Z && negb (p =? 0)%Z.

Definition trade_start (df : list Row) : list bool :=
  Pd.zip_with trade_start_of (position df) (prev_position df).

Definition trade_id (df : list Row) : list Z := Pd.cumcount (trade_start df).

(** The columns of [df] the trade log reads. *)
Record TradeRow : Type := mkTradeRow {
  tr_id : Z;
  tr_time : Z;
  tr_close : Q;
  tr_position : Z;
  tr_net_pnl : num
}.

Definition trade_rows (df : list Row) : list TradeRow :=
  Pd.zip_with (fun (ir : Z * Row) pn =>
                 mkTradeRow (fst ir) (datetime (snd ir)) (close (snd ir))
                            (fst pn) (snd pn))
    (combine (trade_id df) df)
    (combine (position df) (net_pnl df)).

Record Trade : Type := mkTrade {
  entry_time : Z;
  entry_price : Q;
  exit_time : Z;
  exit_price : Q;
  direction : Z;
  pnl : Q
}.

(** The named aggregation of lines 100-105 on one group. *)
Definition agg_trade (g : list TradeRow) : list Trade :=
  match g with
  | [] => []
  | r0 :: _ =>
      let rl := List.last g r0 in
      [mkTrade (tr_time r0) (tr_close r0) (tr_time rl) (tr_close rl)
               (tr_position r0) (Pd.sum (map tr_net_pnl g))]
  end.

Definition trade_log (df : list Row) : list Trade :=
  flat_map (fun kg => agg_trade (snd kg))
    (Pd.groupby tr_id (filter (fun r => (0 <? tr_id r)%Z) (trade_rows df))).

(** ** Monthly returns (lines 114-115) *)

Record Monthly : Type := mkMonthly {
  month : Z;
  m_net_pnl : Q;
  m_equity : num;
  monthly_return : num
}.

(** Line 114. *)
Definition monthly_buckets (df : list Row) : list Bucket := buckets month_of df.

(** Line 115. *)
Definition monthly_return_col (bs : list Bucket) : list num :=
  map (fun x => nmul x (Some 100)) (Pd.pct_change (map b_equity bs)).

Definition monthly (df : list Row) : list Monthly :=
  let bs := monthly_buckets df in
  Pd.zip_with (fun b r => mkMonthly (b_label b) (b_net_pnl b) (b_equity b) r)
    bs (monthly_return_col bs).


(** ** The whole run *)

Record Summary : Type := mkSummary {
  Final_Equity : num;
  Total_Return : num;
  Sharpe : num;
  Max_Drawdown : num
}.

Record Output : Type := mkOutput {
  summary_metrics : Summary;
  out_trade_log : list Trade;
  out_monthly : list Monthly
}.

Section Engine.

(** [np.sqrt], known only through the properties a statement asks for. *)
Variable sqrt : Q -> Q.

Definition std (l : list Q) : num := option_map sqrt (Pd.var l).

(** [x > 0] on a cell: false on NaN. *)
Definition positive (x : num) : bool :=
  match x with
  | Some v => Qltb 0 v
  | None => false
  end.

(** Line 72 on a sample of numbers. *)
Definition sharpe_of (rets : list Q) : num :=
  if positive (std rets)
  then nmul (ndiv (Pd.mean rets) (std rets)) (Some (sqrt 252))
  else None.

(** [Series.std()] on a column of daily returns: NaN cells are skipped;
    with an infinity in the column the mean is not a number and neither
    is the deviation from it, so the result is NaN. *)
Definition std_cells (l : list xnum) : num :=
  if existsb infinite l then None else std (finite l).

(** Line 72: the mean is read only when the standard deviation is a
    positive number, and then the column has no infinity. *)
Definition sharpe_cells (l : list xnum) : num :=
  if positive (std_cells l)
  then nmul (ndiv (Pd.mean (finite l)) (std_cells l)) (Some (sqrt 252))
  else None.

Definition sharpe (df : list Row) : num := sharpe_cells (daily_ret df).

(** Lines 47-115 on a frame that has its [sar] column: the only
    statement that can raise is [iloc[-1]] of lines 76-77. *)
Definition backtest (df : list Row) : result Output :=
  let sh := sharpe df in
  let dd := max_dd df in
  fe <- Pd.iloc_last (equity df) ;;
  let summary :=
    mkSummary fe
      (nmul (nsub (ndiv fe (Some initial_capital)) (Some 1)) (Some 100))
      sh dd in
  Ok (mkOutput summary (trade_log df) (monthly df)).

(** Lines 44-46: the indicator is called on the bars, and its levels
    become the [sar] column; a column of another length cannot be
    attached. *)
Definition attach (bars : list Bar) (levels : list Q) : result (list Row) :=
  if (length bars =? length levels)%nat
  then Ok (Pd.zip_with mkRow bars levels)
  else Raise ValueError.

Definition engine (psar : list Bar -> result (list Q)) (bars : list Bar)
  : result Output :=
  levels <- psar bars ;;
  df <- attach bars levels ;;
  backtest df.

End Engine.

(** A rational lower approximation of the square root, to six decimal
    places of the root of numerator times denominator. *)
Definition sqrt_approx (x : Q) : Q :=
  Z.sqrt (Qnum x * Zpos (Qden x) * 10 ^ 12) # (Qden x * 1000000).

(** ** The columns read bar by bar *)

(** The cells of bar [i], read off the frame: what each column of lines
    47-64 holds at place [i]. *)
Definition position_at (df : list Row) (i : nat) : Z :=
  match i with
  | O => 0%Z
  | S j => match nth_error df j with
           | Some r => signal_of r
           | None => 0%Z
           end
  end.

Definition prev_close_at (df : list Row) (i : nat) : num :=
  match i with
  | O => None
  | S j => option_map (fun r : Row => close r) (nth_error df j)
  end.

Definition prev_position_at (df : list Row) (i : nat) : option Z :=
  match i with
  | O => None
  | S j => Some (position_at df j)
  end.

Definition net_pnl_at (df : list Row) (i : nat) (r : Row) : num :=
  nsub (nmul (trade_return_of (position_at df i) (close r) (prev_close_at df i))
             (Some initial_capital))
       (Some (trade_cost_of (position_at df i) (prev_position_at df i))).

(** Every cell of [net_pnl] is a number. *)
Definition net_pnl_valid (df : list Row) : Prop :=
  forall i r, nth_error df i = Some r -> exists q, net_pnl_at df i r = Some q.

(** Lines 96-97 at bar [i]: whether a trade starts there, and the number
    of trades started up to there. *)
Definition start_at (df : list Row) (i : nat) : bool :=
  trade_start_of (position_at df i)
                 (match i with O => 0%Z | S j => position_at df j end).

Fixpoint trade_id_at (df : list Row) (i : nat) : Z :=
  match i with
  | O => if start_at df 0 then 1%Z else 0%Z
  | S j => if start_at df (S j) then (trade_id_at df j + 1)%Z
           else trade_id_at df j
  end.

(** A cell as a [skipna] sum reads it: NaN counts for 0. *)
Definition or_zero (x : num) : Q :=
  match x with
  | Some q => q
  | None => 0
  end.

(** The net P&L cells of the flat bars. *)
Definition flat_net_pnl (df : list Row) : list num :=
  map snd (filter (fun pn : Z * num => (fst pn =? 0)%Z)
                  (combine (position df) (net_pnl df))).

(** The equity a one-bar frame ends on. *)
Definition flat_equity : Q := initial_capital + (0 + (0 * initial_capital - 0)).

(** ** Groups and buckets *)

(** Keys in strictly ascending order. *)
Inductive ascending : list Z -> Prop :=
| asc_nil : ascending []
| asc_cons k ks : (forall x, In x ks -> (k < x)%Z) -> ascending ks ->
                  ascending (k :: ks).

(** The sum of [f] over the rows of key [k]. *)
Definition group_sum {A} (key : A -> Z) (f : A -> Q) (rows : list A) (k : Z) : Q :=
  Pd.Qsum (map f (filter (fun r => (key r =? k)%Z) rows)).

(** The bucket of period [k], and whether a bar falls in that period. *)
Definition bucket_of (per : Z -> Z) (df : list Row) (k : Z) : Bucket :=
  aggregate (k, filter (fun p => (per (p_time p) =? k)%Z) (points df)).

Definition has_bar (per : Z -> Z) (df : list Row) (k : Z) : bool :=
  existsb (fun r : Row => (per (datetime r) =? k)%Z) df.

(** ** Drawdowns after a running peak *)

(** Every value is at most the next one. *)
Fixpoint nondecreasing (l : list Q) : Prop :=
  match l with
  | [] => True
  | x :: t => match t with
              | [] => True
              | y :: _ => x <= y
              end /\ nondecreasing t
  end.

(** The drawdowns of the values that follow a running peak. *)
Definition dd_from (peak : Q) (l : list Q) : list Q :=
  Pd.zip_with (fun p e => (p - e) / p) (Pd.cummax_from peak l) l.

(** ** The trade log of the specification *)

(** A column cut into its maximal runs of consecutive rows of equal key. *)
Fixpoint runs_by {A} (key : A -> Z) (rows : list A) : list (list A) :=
  match rows with
  | [] => []
  | r :: rest =>
      match runs_by key rest with
      | (r' :: g) :: gs =>
          if (key r =? key r')%Z
          then (r :: r' :: g) :: gs
          else [r] :: (r' :: g) :: gs
      | _ => [[r]]
      end
  end.

(** The keys of a column never decrease from a row to the next. *)
Fixpoint keys_ascend {A} (key : A -> Z) (rows : list A) : Prop :=
  match rows with
  | [] => True
  | r :: rest =>
      match rest with
      | [] => True
      | r' :: _ => (key r <= key r')%Z
      end /\ keys_ascend key rest
  end.

(** Two keys are equal between the same neighbouring rows. *)
Fixpoint adjacent_agree {A} (k1 k2 : A -> Z) (rows : list A) : Prop :=
  match rows with
  | [] => True
  | r :: rest =>
      match rest with
      | [] => True
      | r' :: _ => (k1 r =? k1 r')%Z = (k2 r =? k2 r')%Z
      end /\ adjacent_agree k1 k2 rest
  end.

Definition runs (rows : list TradeRow) : list (list TradeRow) :=
  runs_by tr_position rows.

(** A run of a non-zero position. *)
Definition non_flat (g : list TradeRow) : bool :=
  match g with
  | r :: _ => negb (tr_position r =? 0)%Z
  | [] => false
  end.

(** The trade log in the words of the specification: one trade per
    maximal run of consecutive bars of equal non-zero position, in
    chronological order, entry from the first bar of the run, exit from
    its last bar, direction the position of the run, P&L the net P&L
    summed over the run. *)
Definition spec_trade_log (df : list Row) : list Trade :=
  flat_map agg_trade (filter non_flat (runs (trade_rows df))).

(** The numbering of lines 95-97 read along the column: the trade number
    of a row is that of the row before it, plus one when the row starts a
    trade. *)
Fixpoint chained (id p : Z) (rows : list TradeRow) : Prop :=
  match rows with
  | [] => True
  | r :: t =>
      tr_id r = (if trade_start_of (tr_position r) p then id + 1 else id)%Z /\
      chained (tr_id r) (tr_position r) t
  end.

(** No flat bar follows a bar that holds a position. *)
Fixpoint stays_in_market (prev : Z) (ps : list Z) : bool :=
  match ps with
  | [] => true
  | p :: t =>
      (if (prev =? 0)%Z then true else negb (p =? 0)%Z) && stays_in_market p t
  end.

(** Lines 99-106 and the log of the specification, on the rows alone. *)
Definition log_of (rows : list TradeRow) : list Trade :=
  flat_map (fun kg : Z * list TradeRow => agg_trade (snd kg))
    (Pd.groupby tr_id (filter (fun r => (0 <? tr_id r)%Z) rows)).

Definition spec_log_of (rows : list TradeRow) : list Trade :=
  flat_map agg_trade (filter non_flat (runs rows)).


(** ** Further notions the properties are stated with *)

(** The three values a signal, a position or a direction can take. *)
Definition is_side (p : Z) : Prop := (p = -1 \/ p = 0 \/ p = 1)%Z.

(** A frame in ascending time order, as line 28 leaves it. *)
Definition time_sorted (df : list Row) : Prop :=
  keys_ascend (fun r : Row => datetime r) df.

(** Trades that follow one another in time: none exits before it
    enters, none enters before the one before it has exited. *)
Fixpoint chronological (ts : list Trade) : Prop :=
  match ts with
  | [] => True
  | t :: rest =>
      (entry_time t <= exit_time t)%Z /\
      match rest with
      | [] => True
      | t' :: _ => (exit_time t <= entry_time t')%Z
      end /\
      chronological rest
  end.

(** Line 28, [df.sort_values('datetime')]: the bars in ascending time
    order.  Bars of equal time stay in input order here; the order in
    which pandas' default quicksort leaves them is not specified, and no
    statement on [sort_values] depends on it. *)
Fixpoint insert_bar (b : Bar) (l : list Bar) : list Bar :=
  match l with
  | [] => [b]
  | h :: t =>
      if (datetime b <=? datetime h)%Z then b :: l else h :: insert_bar b t
  end.

Definition sort_values (l : list Bar) : list Bar := fold_right insert_bar [] l.

(** Lines 28-115: the uploaded rows are sorted, then run through the
    engine. *)
Definition run (sqrt : Q -> Q) (psar : list Bar -> result (list Q))
    (raw : list Bar) : result Output :=
  engine sqrt psar (sort_values raw).

(** Equity cells in step with the net P&L cells: each equity is the one
    before it plus the net P&L of its own row. *)
Fixpoint running (prev : Q) (ps : list Point) : Prop :=
  match ps with
  | [] => True
  | p :: t =>
      exists n e, p_net_pnl p = Some n /\ p_equity p = Some e /\
                  e == prev + n /\ running e t
  end.

(** The same for the rows of an aggregation: a bucket with bars closes on
    the equity of the last bucket with bars before it plus its own net
    P&L; a bucket without bars has a net P&L of 0. *)
Fixpoint buckets_consistent (prev : Q) (bs : list Bucket) : Prop :=
  match bs with
  | [] => True
  | b :: t =>
      match b_equity b with
      | Some e => e == prev + b_net_pnl b /\ buckets_consistent e t
      | None => b_net_pnl b == 0 /\ buckets_consistent prev t
      end
  end.

Fixpoint daily_consistent (prev : Q) (ds : list Daily) : Prop :=
  match ds with
  | [] => True
  | d :: t => d_equity d == prev + d_net_pnl d /\ daily_consistent (d_equity d) t
  end.

Fixpoint monthly_consistent (prev : Q) (ms : list Monthly) : Prop :=
  match ms with
  | [] => True
  | m :: t =>
      match m_equity m with
      | Some e => e == prev + m_net_pnl m /\ monthly_consistent e t
      | None => m_net_pnl m == 0 /\ monthly_consistent prev t
      end
  end.

(** The equity a daily return is measured against (line 70): the
    initial capital on the first day, the equity of the day before on
    the others. *)
Definition prev_equity_at (ds : list Daily) (k : nat) : Q :=
  match k with
  | O => initial_capital
  | S j => match nth_error ds j with
           | Some d => d_equity d
           | None => initial_capital
           end
  end.

(** ** The calendar inside an era *)

(** The year of day [doe] of a 400-year era, as [month_of_day] computes
    it, and the first day of year [y] of an era; years start on
    1 March. *)
Definition year_of_era (doe : Z) : Z :=
  ((doe - doe / 1460 + doe / 36524 - doe / 146096) / 365)%Z.

Definition year_start (y : Z) : Z := (365 * y + y / 4 - y / 100)%Z.

(** [p] on the [n] numbers from [k] on. *)
Fixpoint holds_from (p : Z -> bool) (n : nat) (k : Z) : bool :=
  match n with
  | O => true
  | S n' => p k && holds_from p n' (k + 1)%Z
  end.

(** ** The bars of a trade *)

(** The rows that follow the entry of a trade and belong to it: each
    keeps the position of the row before it or is flat, so that a row
    after a flat row is flat. *)
Fixpoint held (p : Z) (g : list TradeRow) : Prop :=
  match g with
  | [] => True
  | y :: g' => (tr_position y = p \/ tr_position y = 0%Z) /\ held (tr_position y) g'
  end.

(** A stretch of rows and the trade the log makes of it: the stretch
    opens on a row that holds a position, the rows after it are [held],
    and the trade enters on the first row and exits on the last. *)
Definition trade_of (seg : list TradeRow) (t : Trade) : Prop :=
  match seg with
  | [] => False
  | x :: g =>
      tr_position x <> 0%Z /\ held (tr_position x) g /\
      t = mkTrade (tr_time x) (tr_close x)
                  (tr_time (List.last g x)) (tr_close (List.last g x))
                  (tr_position x) (Pd.sum (map tr_net_pnl seg))
  end.

(** ** Sample frames

    Daily bars of 2024; the [sar] column follows the parabolic SAR
    recurrence with step 0.005 and cap 0.05, seeded on the close of the
    first two bars. *)

(** Midnight of the [d]-th day counted from 1 January 2024. *)
Definition jan (d : Z) : Z := ((19722 + d) * 86400)%Z.

(** The indicator reverses on the fourth bar, which closes on the level:
    the signal of that bar is 0 and the position of the fifth bar is
    flat. *)
Definition frame_flat_exit : list Row :=
  [ mkRow (mkBar (jan 1) 10 11 9 10 1000) 10;
    mkRow (mkBar (jan 2) 10 12 10 11 1000) 11;
    mkRow (mkBar (jan 3) 11 13 11 12 1000) 9;
    mkRow (mkBar (jan 4) 12 13 9 13 1000) 13;
    mkRow (mkBar (jan 5) 12 12 8 10 1000) 13 ].

(** A long bar that loses two thirds, then a short bar that loses two
    thirds. *)
Definition frame_loss : list Row :=
  [ mkRow (mkBar (jan 1) 10 11 9 10 1000) 10;
    mkRow (mkBar (jan 2) 10 12 10 11 1000) 11;
    mkRow (mkBar (jan 3) 11 13 11 12 1000) 9;
    mkRow (mkBar (jan 4) 5 5 3 4 1000) 13;
    mkRow (mkBar (jan 5) 11 13 11 12 1000) 3 ].

(** An indicator that answers the close of every bar. *)
Definition level_at_close (bars : list Bar) : result (list Q) :=
  Ok (map close bars).

Definition one_bar : list Bar := [mkBar (jan 1) 10 11 9 10 1000].

(** Bars on 30 and 31 January and on 1, 2 and 5 March 2024: February has
    no bar, and neither have most of the days in between. *)
Definition frame_gap : list Row :=
  [ mkRow (mkBar (jan 30) 10 11 9 10 1000) 10;
    mkRow (mkBar (jan 31) 10 12 10 11 1000) 11;
    mkRow (mkBar (jan 61) 11 13 11 12 1000) 9;
    mkRow (mkBar (jan 62) 12 13 11 13 1000) (904 # 100);
    mkRow (mkBar (jan 65) 12 15 12 14 1000) (90796 # 10000) ].

(** An indicator that answers the low of every bar: the close is never
    below it. *)
Definition level_at_low (bars : list Bar) : result (list Q) :=
  Ok (map low bars).

(** An upload out of time order: 3, 1 and 2 January 2024. *)
Definition upload_unsorted : list Bar :=
  [ mkBar (jan 3) 11 13 11 12 1000;
    mkBar (jan 1) 10 11 9 10 1000;
    mkBar (jan 2) 10 12 10 11 1000 ].

(** Two bars that close on the level: the signal is 0 on both. *)
Definition frame_flat : list Row :=
  [ mkRow (mkBar (jan 1) 10 11 9 10 1000) 10;
    mkRow (mkBar (jan 2) 10 12 10 11 1000) 11 ].

(** Closes 2, 2, 0 and 0: the fourth bar is short and its return is the
    quotient of two zero closes. *)
Definition frame_zero_close : list Row :=
  [ mkRow (mkBar (jan 1) 2 3 1 2 1000) 2;
    mkRow (mkBar (jan 2) 2 3 1 2 1000) 2;
    mkRow (mkBar (jan 3) 1 1 0 0 1000) 3;
    mkRow (mkBar (jan 4) 1 1 0 0 1000) 3 ].

(** Positive closes 1, 1, 1, 1000 and 1100: the short bar of 4 January
    loses 99900 and pays the fee, which leaves an equity of exactly 0;
    the long bar of 5 January earns 9900 on it. *)
Definition frame_zero_equity : list Row :=
  [ mkRow (mkBar (jan 1) 1 (3 # 2) 1 1 1000) 1;
    mkRow (mkBar (jan 2) 1 1 1 1 1000) 1;
    mkRow (mkBar (jan 3) 1 1 (1 # 2) 1 1000) (3 # 2);
    mkRow (mkBar (jan 4) 1000 1000 1000 1000 1000) (1 # 2);
    mkRow (mkBar (jan 5) 1000 1100 1000 1100 1000) (1 # 2) ].

(** A frame given bar by bar has no zero close. *)
Ltac closes_nonzero_by_cases :=
  let r := fresh "r" in
  let Hr := fresh "Hr" in
  let K := fresh "K" in
  intros r Hr;
  repeat (destruct Hr as [<-|Hr];
          [intros K; vm_compute in K; discriminate K|]);
  destruct Hr.

(** * Facts about the column operations *)

Section ColumnFacts.

Context {A B C : Type}.

Lemma zip_with_length (f : A -> B -> C) l m :
  length (Pd.zip_with f l m) = Nat.min (length l) (length m).
Proof.
  revert m; induction l as [|a l IH]; intros [|b m]; simpl; auto.
Qed.

Lemma nth_error_zip_with (f : A -> B -> C) l m i :
  nth_error (Pd.zip_with f l m) i =
  match nth_error l i, nth_error m i with
  | Some a, Some b => Some (f a b)
  | _, _ => None
  end.
Proof.
  revert m i; induction l as [|a l IH]; intros [|b m] [|i]; simpl; auto;
    destruct (nth_error l i); reflexivity.
Qed.

Lemma nth_error_combine (l : list A) (m : list B) i :
  nth_error (combine l m) i =
  match nth_error l i, nth_error m i with
  | Some a, Some b => Some (a, b)
  | _, _ => None
  end.
Proof.
  revert m i; induction l as [|a l IH]; intros [|b m] [|i]; simpl; auto;
    destruct (nth_error l i); reflexivity.
Qed.

Lemma shift_from_length (p : option A) l :
  length (Pd.shift_from p l) = length l.
Proof.
  revert p; induction l as [|a l IH]; intros p; simpl; auto.
Qed.

(** The cell at place [i] of a shifted column: the start value at
    place 0, the value of the place before everywhere else. *)
Lemma nth_error_shift_from (p : option A) l i x :
  nth_error l i = Some x ->
  nth_error (Pd.shift_from p l) i =
  Some (match i with O => p | S j => nth_error l j end).
Proof.
  revert p i; induction l as [|a l IH]; intros p [|i] H; simpl in *;
    try discriminate; auto.
  rewrite (IH (Some a) i H). destruct i; reflexivity.
Qed.

Lemma nth_error_shift_from_None (p : option A) l i :
  nth_error l i = None -> nth_error (Pd.shift_from p l) i = None.
Proof.
  intros H. apply nth_error_None. rewrite shift_from_length.
  now apply nth_error_None.
Qed.

Lemma nth_error_fillna (d : A) l i :
  nth_error (Pd.fillna d l) i =
  option_map (fun c => match c with Some x => x | None => d end)
             (nth_error l i).
Proof. unfold Pd.fillna. apply nth_error_map. Qed.

Lemma iloc_last_snoc (l : list A) x : Pd.iloc_last (l ++ [x]) = Ok x.
Proof. unfold Pd.iloc_last. rewrite rev_unit. reflexivity. Qed.

Lemma iloc_last_Ok (l : list A) x :
  Pd.iloc_last l = Ok x <-> exists l', l = l' ++ [x].
Proof.
  split.
  - destruct l as [|a l] using rev_ind; [discriminate|].
    rewrite iloc_last_snoc. intros [= ->]. now exists l.
  - intros [l' ->]. apply iloc_last_snoc.
Qed.

Lemma iloc_last_nth (l : list A) x :
  Pd.iloc_last l = Ok x -> nth_error l (length l - 1) = Some x.
Proof.
  intros H. apply iloc_last_Ok in H as [l' ->].
  rewrite length_app. simpl.
  replace (length l' + 1 - 1)%nat with (length l') by lia.
  rewrite nth_error_app2 by lia. rewrite Nat.sub_diag. reflexivity.
Qed.

End ColumnFacts.

(** * The simulation, bar by bar *)

Lemma signal_nth df i :
  nth_error (signal df) i = option_map signal_of (nth_error df i).
Proof. apply nth_error_map. Qed.

Lemma position_nth df i r :
  nth_error df i = Some r ->
  nth_error (position df) i = Some (position_at df i).
Proof.
  intros H. unfold position, Pd.shift.
  rewrite nth_error_fillna.
  rewrite (nth_error_shift_from None (signal df) i (signal_of r))
    by (rewrite signal_nth, H; reflexivity).
  destruct i as [|j]; simpl; [reflexivity|].
  rewrite signal_nth. destruct (nth_error df j) eqn:E; simpl; [reflexivity|].
  exfalso. apply nth_error_None in E.
  assert (S j < length df)%nat by (apply nth_error_Some; congruence). lia.
Qed.

Lemma position_nth_None df i :
  nth_error df i = None -> nth_error (position df) i = None.
Proof.
  intros H. unfold position, Pd.shift. rewrite nth_error_fillna.
  rewrite nth_error_shift_from_None; [reflexivity|].
  rewrite signal_nth, H. reflexivity.
Qed.

Lemma position_length df : length (position df) = length df.
Proof.
  unfold position, Pd.fillna, Pd.shift, signal.
  now rewrite length_map, shift_from_length, length_map.
Qed.

Lemma nth_error_prefix {A} (l : list A) i x j :
  nth_error l i = Some x -> (j <= i)%nat -> exists y, nth_error l j = Some y.
Proof.
  intros H Hj. destruct (nth_error l j) eqn:E; [eauto|].
  apply nth_error_None in E.
  assert (i < length l)%nat by (apply nth_error_Some; congruence). lia.
Qed.

Lemma trade_return_nth df i r :
  nth_error df i = Some r ->
  nth_error (trade_return df) i =
  Some (trade_return_of (position_at df i) (close r) (prev_close_at df i)).
Proof.
  intros H. unfold trade_return.
  rewrite nth_error_zip_with, (position_nth df i r H), nth_error_combine.
  rewrite nth_error_map, H. simpl. unfold Pd.shift.
  rewrite (nth_error_shift_from None _ i (close r))
    by (rewrite nth_error_map, H; reflexivity).
  simpl. f_equal. f_equal.
  destruct i as [|j]; simpl; [reflexivity|]. apply nth_error_map.
Qed.

Lemma trade_cost_nth df i r :
  nth_error df i = Some r ->
  nth_error (trade_cost df) i =
  Some (trade_cost_of (position_at df i) (prev_position_at df i)).
Proof.
  intros H. unfold trade_cost.
  rewrite nth_error_zip_with, (position_nth df i r H). unfold Pd.shift.
  rewrite (nth_error_shift_from None _ i (position_at df i))
    by (apply (position_nth df i r H)).
  f_equal. f_equal. destruct i as [|j]; simpl; [reflexivity|].
  destruct (nth_error_prefix df (S j) r j H) as [y Hy]; [lia|].
  apply (position_nth df j y Hy).
Qed.

Lemma net_pnl_nth df i r :
  nth_error df i = Some r ->
  nth_error (net_pnl df) i = Some (net_pnl_at df i r).
Proof.
  intros H. unfold net_pnl, trade_pnl.
  rewrite nth_error_zip_with, nth_error_map.
  rewrite (trade_return_nth df i r H), (trade_cost_nth df i r H). reflexivity.
Qed.

Lemma net_pnl_length df : length (net_pnl df) = length df.
Proof.
  unfold net_pnl, trade_pnl, trade_return, trade_cost, Pd.shift.
  rewrite !zip_with_length, !length_map, !zip_with_length, length_combine.
  rewrite !shift_from_length, !length_map, !position_length. lia.
Qed.

Lemma Qeq_bool_nonzero y : ~ y == 0 -> Qeq_bool y 0 = false.
Proof.
  intros H. destruct (Qeq_bool y 0) eqn:E; [|reflexivity].
  apply Qeq_bool_eq in E. contradiction.
Qed.

Lemma ndiv_nonzero x y : ~ y == 0 -> ndiv (Some x) (Some y) = Some (x / y).
Proof. intros H. cbn [ndiv]. now rewrite (Qeq_bool_nonzero y H). Qed.

(** With no zero close, no cell of [net_pnl] is NaN: the only NaN the
    simulation reads is then the shifted close of bar 0, and bar 0 is
    flat. *)
Lemma net_pnl_at_valid df i r :
  closes_nonzero df ->
  nth_error df i = Some r -> exists q, net_pnl_at df i r = Some q.
Proof.
  intros Hnz H. unfold net_pnl_at, trade_return_of.
  assert (Hr : ~ close r == 0) by (eapply Hnz, nth_error_In; eauto).
  destruct i as [|j]; [cbn; eauto|].
  destruct (nth_error_prefix df (S j) r j H) as [y Hy]; [lia|].
  assert (Hc : ~ close y == 0) by (eapply Hnz, nth_error_In; eauto).
  cbn [position_at prev_close_at prev_position_at]. rewrite Hy.
  cbn [option_map].
  rewrite (ndiv_nonzero _ _ Hc), (ndiv_nonzero _ _ Hr).
  destruct (signal_of y =? 1)%Z; [cbn; eauto|].
  destruct (signal_of y =? -1)%Z; cbn; eauto.
Qed.

Lemma closes_nonzero_valid df : closes_nonzero df -> net_pnl_valid df.
Proof. intros Hnz i r. now apply net_pnl_at_valid. Qed.

(** ** Running totals *)

Lemma Qsum_app l m : Pd.Qsum (l ++ m) == Pd.Qsum l + Pd.Qsum m.
Proof.
  induction l as [|a l IH]; simpl; [ring|]. rewrite IH. ring.
Qed.

Lemma cumsum_from_length acc l : length (Pd.cumsum_from acc l) = length l.
Proof.
  revert acc; induction l as [|[x|] l IH]; intros acc; simpl; auto.
Qed.

Lemma cumsum_from_nth acc l i x :
  nth_error l i = Some (Some x) ->
  exists v, nth_error (Pd.cumsum_from acc l) i = Some (Some v) /\
            v == acc + Pd.sum (firstn (S i) l).
Proof.
  revert acc i; induction l as [|c l IH]; intros acc [|i] H; simpl in H;
    try discriminate.
  - injection H as ->. exists (acc + x). split; [reflexivity|].
    unfold Pd.sum. cbn [firstn Pd.valid Pd.Qsum fold_right]. ring.
  - destruct c as [y|].
    + destruct (IH (acc + y) i H) as [v [Hv Hs]].
      exists v. split; [exact Hv|]. rewrite Hs.
      unfold Pd.sum. cbn [firstn Pd.valid Pd.Qsum fold_right]. ring.
    + destruct (IH acc i H) as [v [Hv Hs]].
      exists v. split; [exact Hv|]. rewrite Hs. reflexivity.
Qed.

Lemma equity_length df : length (equity df) = length df.
Proof.
  unfold equity, Pd.cumsum.
  now rewrite length_map, cumsum_from_length, net_pnl_length.
Qed.

(** Line 64 at bar [i], when the net P&L of the bar is a number: the
    capital plus the net P&L of bars [0..i]. *)
Lemma equity_nth df i r :
  net_pnl_valid df ->
  nth_error df i = Some r ->
  exists e, nth_error (equity df) i = Some (Some e) /\
            e == initial_capital + Pd.sum (firstn (S i) (net_pnl df)).
Proof.
  intros Hval H.
  destruct (Hval i r H) as [q Hq].
  pose proof (net_pnl_nth df i r H) as Hn. rewrite Hq in Hn.
  destruct (cumsum_from_nth 0 (net_pnl df) i q Hn) as [v [Hv Hs]].
  exists (initial_capital + v). split.
  - unfold equity, Pd.cumsum. rewrite nth_error_map, Hv. reflexivity.
  - rewrite Hs. ring.
Qed.

Lemma final_equity_sum df fe :
  net_pnl_valid df ->
  Pd.iloc_last (equity df) = Ok fe ->
  exists q, fe = Some q /\ q == initial_capital + Pd.sum (net_pnl df).
Proof.
  intros Hv H. apply iloc_last_nth in H. rewrite equity_length in H.
  destruct (nth_error df (length df - 1)) as [r|] eqn:E.
  - destruct (equity_nth df _ r Hv E) as [e [He Hs]].
    rewrite He in H. injection H as <-. exists e. split; [reflexivity|].
    rewrite Hs. rewrite firstn_all2; [reflexivity|].
    rewrite net_pnl_length.
    assert (length df - 1 < length df)%nat by (apply nth_error_Some; congruence).
    lia.
  - exfalso. apply nth_error_None in E.
    assert (length df - 1 < length (equity df))%nat
      by (apply nth_error_Some; congruence).
    rewrite equity_length in *. lia.
Qed.

Lemma iloc_last_defined {A} (l : list A) :
  l <> [] -> exists x, Pd.iloc_last l = Ok x.
Proof.
  intros H. destruct (exists_last H) as [l' [x ->]].
  exists x. apply iloc_last_snoc.
Qed.

(** ** Trade numbering *)

Lemma prev_position_nth df i r :
  nth_error df i = Some r ->
  nth_error (prev_position df) i =
  Some (match i with O => 0%Z | S j => position_at df j end).
Proof.
  intros H. unfold prev_position, Pd.shift. rewrite nth_error_fillna.
  rewrite (nth_error_shift_from None _ i (position_at df i))
    by (apply (position_nth df i r H)).
  destruct i as [|j]; simpl; [reflexivity|].
  destruct (nth_error_prefix df (S j) r j H) as [y Hy]; [lia|].
  rewrite (position_nth df j y Hy). reflexivity.
Qed.

Lemma trade_start_nth df i r :
  nth_error df i = Some r ->
  nth_error (trade_start df) i = Some (start_at df i).
Proof.
  intros H. unfold trade_start.
  rewrite nth_error_zip_with, (position_nth df i r H),
    (prev_position_nth df i r H). reflexivity.
Qed.

Lemma cumcount_from_step acc l i a b :
  nth_error (Pd.cumcount_from acc l) i = Some a ->
  nth_error l (S i) = Some b ->
  nth_error (Pd.cumcount_from acc l) (S i) = Some (if b then (a + 1)%Z else a).
Proof.
  revert acc i; induction l as [|c l IH]; intros acc [|i] Ha Hb; simpl in *;
    try discriminate.
  - injection Ha as <-. destruct l as [|c' l]; [discriminate|].
    simpl in Hb. injection Hb as ->. reflexivity.
  - apply (IH _ i Ha Hb).
Qed.

Lemma trade_id_nth df i r :
  nth_error df i = Some r ->
  nth_error (trade_id df) i = Some (trade_id_at df i).
Proof.
  revert r; induction i as [|j IH]; intros r H.
  - pose proof (trade_start_nth df 0 r H) as Hs.
    unfold trade_id, Pd.cumcount.
    destruct (trade_start df) as [|b t]; [discriminate|].
    simpl in Hs. injection Hs as ->. reflexivity.
  - destruct (nth_error_prefix df (S j) r j H) as [y Hy]; [lia|].
    unfold trade_id, Pd.cumcount in *.
    rewrite (cumcount_from_step 0 _ j _ _ (IH y Hy)
               (trade_start_nth df (S j) r H)).
    reflexivity.
Qed.

Lemma trade_id_at_nonneg df i : (0 <= trade_id_at df i)%Z.
Proof.
  induction i as [|j IH]; simpl.
  - destruct (start_at df 0); lia.
  - destruct (start_at df (S j)); lia.
Qed.

(** Before the first trade starts every bar is flat. *)
Lemma trade_id_zero_flat df i :
  trade_id_at df i = 0%Z -> position_at df i = 0%Z.
Proof.
  induction i as [|j IH]; [reflexivity|].
  cbn [trade_id_at]. pose proof (trade_id_at_nonneg df j) as Hj.
  destruct (start_at df (S j)) eqn:E; intros H; [lia|].
  specialize (IH H). unfold start_at, trade_start_of in E.
  rewrite IH in E.
  destruct (position_at df (S j) =? 0)%Z eqn:E0; [now apply Z.eqb_eq|].
  simpl in E. discriminate.
Qed.

Lemma trade_rows_nth df i r :
  nth_error df i = Some r ->
  nth_error (trade_rows df) i =
  Some (mkTradeRow (trade_id_at df i) (datetime r) (close r)
                   (position_at df i) (net_pnl_at df i r)).
Proof.
  intros H. unfold trade_rows.
  rewrite nth_error_zip_with, !nth_error_combine.
  rewrite (trade_id_nth df i r H), H, (position_nth df i r H),
    (net_pnl_nth df i r H). reflexivity.
Qed.

Lemma trade_rows_length df : length (trade_rows df) = length df.
Proof.
  unfold trade_rows, trade_id, Pd.cumcount.
  rewrite zip_with_length, !length_combine, position_length, net_pnl_length.
  assert (length (Pd.cumcount_from 0 (trade_start df)) = length df) as ->.
  { assert (forall acc l, length (Pd.cumcount_from acc l) = length l) as Hc.
    { intros acc l; revert acc; induction l; intros; simpl; auto. }
    rewrite Hc. unfold trade_start, prev_position, Pd.fillna, Pd.shift.
    rewrite zip_with_length, length_map, shift_from_length, position_length.
    lia. }
  lia.
Qed.

(** ** Grouping *)

Lemma insert_key_In k ks x :
  In x (Pd.insert_key k ks) <-> x = k \/ In x ks.
Proof.
  induction ks as [|h t IH]; simpl.
  - intuition.
  - destruct (k <? h)%Z; [simpl; intuition|].
    destruct (k =? h)%Z eqn:E.
    + apply Z.eqb_eq in E. subst h. simpl. intuition.
    + simpl. rewrite IH. intuition.
Qed.

Lemma unique_In ks x : In x (Pd.unique ks) <-> In x ks.
Proof.
  induction ks as [|k ks IH]; simpl; [tauto|].
  rewrite insert_key_In, IH. intuition.
Qed.

Lemma insert_key_ascending k ks :
  ascending ks -> ascending (Pd.insert_key k ks).
Proof.
  induction 1 as [|h t Hlt Ht IH]; simpl.
  - constructor; [intros x []|constructor].
  - destruct (k <? h)%Z eqn:E1.
    + apply Z.ltb_lt in E1. constructor.
      * intros x [<-|Hx]; [exact E1|]. specialize (Hlt x Hx). lia.
      * now constructor.
    + destruct (k =? h)%Z eqn:E2; [now constructor|].
      apply Z.ltb_ge in E1. apply Z.eqb_neq in E2.
      constructor; [|exact IH].
      intros x Hx. apply insert_key_In in Hx as [->|Hx]; [lia|auto].
Qed.

Lemma unique_ascending ks : ascending (Pd.unique ks).
Proof.
  induction ks as [|k ks IH]; simpl; [constructor|].
  now apply insert_key_ascending.
Qed.

Lemma ascending_NoDup ks : ascending ks -> NoDup ks.
Proof.
  induction 1 as [|k ks Hlt _ IH]; constructor; [|exact IH].
  intros Hin. specialize (Hlt k Hin). lia.
Qed.

Lemma Qsum_zero {A} (f : A -> Q) l :
  (forall x, In x l -> f x == 0) -> Pd.Qsum (map f l) == 0.
Proof.
  induction l as [|a l IH]; intros H; simpl; [reflexivity|].
  rewrite (H a) by (now left). rewrite IH; [ring|].
  intros x Hx. apply H. now right.
Qed.

Lemma Qsum_cons a l : Pd.Qsum (a :: l) = a + Pd.Qsum l.
Proof. reflexivity. Qed.

Section Partition.

Context {A : Type} (key : A -> Z) (f : A -> Q).

Lemma group_sum_cons r rows k :
  group_sum key f (r :: rows) k =
  if (key r =? k)%Z then f r + group_sum key f rows k else group_sum key f rows k.
Proof.
  unfold group_sum. cbn [filter]. destruct (key r =? k)%Z; reflexivity.
Qed.

Lemma group_sums_cons r rows ks :
  Pd.Qsum (map (group_sum key f (r :: rows)) ks) ==
  Pd.Qsum (map (fun k => if (key r =? k)%Z then f r else 0) ks)
  + Pd.Qsum (map (group_sum key f rows) ks).
Proof.
  induction ks as [|k ks IH]; cbn [map]; rewrite ?Qsum_cons.
  - cbn. ring.
  - rewrite IH, group_sum_cons. destruct (key r =? k)%Z; ring.
Qed.

Lemma indicator_sum_absent k0 x ks :
  ~ In k0 ks ->
  Pd.Qsum (map (fun k => if (k0 =? k)%Z then x else 0) ks) == 0.
Proof.
  intros H. apply Qsum_zero. intros k Hk.
  destruct (k0 =? k)%Z eqn:E; [|reflexivity].
  apply Z.eqb_eq in E. subst. contradiction.
Qed.

Lemma indicator_sum_present k0 x ks :
  NoDup ks -> In k0 ks ->
  Pd.Qsum (map (fun k => if (k0 =? k)%Z then x else 0) ks) == x.
Proof.
  induction 1 as [|k ks Hnotin Hnd IH]; intros Hin; [destruct Hin|].
  cbn [map]. rewrite Qsum_cons.
  destruct (k0 =? k)%Z eqn:E.
  - apply Z.eqb_eq in E. subst k.
    rewrite indicator_sum_absent by assumption. ring.
  - apply Z.eqb_neq in E. destruct Hin as [Hin|Hin]; [congruence|].
    rewrite (IH Hin). ring.
Qed.

(** The rows of a frame split over the groups of a set of keys that
    holds every key once. *)
Lemma Qsum_partition ks rows :
  NoDup ks ->
  (forall r, In r rows -> In (key r) ks) ->
  Pd.Qsum (map (group_sum key f rows) ks) == Pd.Qsum (map f rows).
Proof.
  intros Hnd. induction rows as [|r rows IH]; intros Hin.
  - apply Qsum_zero. reflexivity.
  - rewrite group_sums_cons, IH by (intros; apply Hin; now right).
    rewrite indicator_sum_present by (auto; apply Hin; now left).
    reflexivity.
Qed.

Lemma groupby_sum rows :
  Pd.Qsum (map (fun kg => Pd.Qsum (map f (snd kg))) (Pd.groupby key rows))
  == Pd.Qsum (map f rows).
Proof.
  unfold Pd.groupby. rewrite map_map. cbn [snd].
  apply (Qsum_partition (Pd.unique (map key rows)) rows).
  - apply ascending_NoDup, unique_ascending.
  - intros r Hr. apply unique_In. now apply in_map.
Qed.

Lemma Qsum_filter (p : A -> bool) rows :
  (forall r, In r rows -> p r = false -> f r == 0) ->
  Pd.Qsum (map f (filter p rows)) == Pd.Qsum (map f rows).
Proof.
  induction rows as [|r rows IH]; intros H; [reflexivity|].
  cbn [filter map]. rewrite Qsum_cons.
  destruct (p r) eqn:E; cbn [map]; rewrite ?Qsum_cons, IH;
    try (intros; apply H; [now right|assumption]); [reflexivity|].
  rewrite (H r) by (auto; now left). ring.
Qed.

End Partition.

(** ** Flat bars and the sums of the trade log *)

Lemma sum_or_zero l : Pd.sum l == Pd.Qsum (map or_zero l).
Proof.
  unfold Pd.sum. induction l as [|[x|] l IH]; cbn [Pd.valid map or_zero];
    rewrite ?Qsum_cons; [reflexivity|now rewrite IH|rewrite IH; ring].
Qed.

Lemma Qltb_lt x y : Qltb x y = true <-> x < y.
Proof.
  unfold Qltb. rewrite negb_true_iff, <- not_true_iff_false, Qle_bool_iff.
  split; [apply Qnot_le_lt|apply Qlt_not_le].
Qed.

Lemma Qltb_ge x y : Qltb x y = false <-> y <= x.
Proof.
  unfold Qltb. rewrite negb_false_iff. apply Qle_bool_iff.
Qed.

Lemma trade_cost_of_flat prev : trade_cost_of 0 prev = 0.
Proof. unfold trade_cost_of. now rewrite andb_false_r. Qed.

(** A flat bar earns [0 * initial_capital - 0]. *)
Lemma net_pnl_at_flat df i r :
  position_at df i = 0%Z ->
  net_pnl_at df i r = Some (0 * initial_capital - 0).
Proof.
  intros H. unfold net_pnl_at. rewrite H, trade_cost_of_flat. reflexivity.
Qed.

Lemma trade_rows_net_pnl df : map tr_net_pnl (trade_rows df) = net_pnl df.
Proof.
  apply nth_error_ext. intros i. rewrite nth_error_map.
  destruct (nth_error df i) as [r|] eqn:E.
  - now rewrite (trade_rows_nth df i r E), (net_pnl_nth df i r E).
  - assert (nth_error (trade_rows df) i = None) as ->
      by (apply nth_error_None; rewrite trade_rows_length;
          now apply nth_error_None).
    symmetry. apply nth_error_None. rewrite net_pnl_length.
    now apply nth_error_None.
Qed.

Lemma In_trade_rows df x :
  In x (trade_rows df) ->
  exists i r, nth_error df i = Some r /\
    x = mkTradeRow (trade_id_at df i) (datetime r) (close r)
                   (position_at df i) (net_pnl_at df i r).
Proof.
  intros H. apply In_nth_error in H as [i Hi].
  destruct (nth_error df i) as [r|] eqn:E.
  - rewrite (trade_rows_nth df i r E) in Hi. injection Hi as <-. eauto.
  - apply nth_error_None in E.
    assert (i < length (trade_rows df))%nat
      by (apply nth_error_Some; congruence).
    rewrite trade_rows_length in *. lia.
Qed.

Lemma agg_trade_sum g :
  Pd.Qsum (map pnl (agg_trade g))
  == Pd.Qsum (map (fun r => or_zero (tr_net_pnl r)) g).
Proof.
  destruct g as [|r0 g]; [reflexivity|].
  change (Pd.sum (map tr_net_pnl (r0 :: g)) + 0
          == Pd.Qsum (map (fun r => or_zero (tr_net_pnl r)) (r0 :: g))).
  rewrite sum_or_zero, map_map. ring.
Qed.

Lemma agg_trade_pnl groups :
  Pd.Qsum (map pnl (flat_map (fun kg : Z * list TradeRow => agg_trade (snd kg)) groups))
  == Pd.Qsum (map (fun kg => Pd.Qsum (map (fun r => or_zero (tr_net_pnl r)) (snd kg))) groups).
Proof.
  induction groups as [|[k g] groups IH]; [reflexivity|].
  cbn [flat_map map snd]. rewrite map_app, Qsum_app, IH, Qsum_cons.
  now rewrite agg_trade_sum.
Qed.

(** The trades account for every bar's net P&L. *)
Lemma trade_log_pnl df :
  Pd.Qsum (map pnl (trade_log df)) == Pd.sum (net_pnl df).
Proof.
  unfold trade_log. rewrite agg_trade_pnl.
  rewrite (groupby_sum tr_id (fun r => or_zero (tr_net_pnl r))).
  rewrite Qsum_filter.
  - rewrite sum_or_zero, <- trade_rows_net_pnl, map_map. reflexivity.
  - intros x Hx Hid. apply In_trade_rows in Hx as (i & r & Hr & ->).
    cbn [tr_id tr_net_pnl] in *. apply Z.ltb_ge in Hid.
    pose proof (trade_id_at_nonneg df i).
    rewrite (net_pnl_at_flat df i r); [cbn [or_zero]; ring|].
    apply trade_id_zero_flat. lia.
Qed.

(** * Positions, costs and equity *)

(** C6: the position of bar 0 is 0 and the position of every later bar is
    the signal of the bar before it; the signal of a bar is +1 when its
    close is above the indicator level, -1 when it is below and 0 when
    the two are equal. *)
Theorem position_lags_signal (df : list Row) (i : nat) (r : Row) :
  nth_error df i = Some r ->
  exists s p,
    nth_error (signal df) i = Some s /\
    nth_error (position df) i = Some p /\
    (sar r < close r -> s = 1%Z) /\
    (close r < sar r -> s = (-1)%Z) /\
    (close r == sar r -> s = 0%Z) /\
    match i with
    | O => p = 0%Z
    | S j => nth_error (signal df) j = Some p
    end.
Proof.
  intros H. exists (signal_of r), (position_at df i).
  rewrite signal_nth, H, (position_nth df i r H). cbn [option_map].
  repeat split.
  - intros Hlt. unfold signal_of. apply Qltb_lt in Hlt. now rewrite Hlt.
  - intros Hlt. unfold signal_of.
    assert (Qltb (sar r) (close r) = false) as ->
      by (apply Qltb_ge; now apply Qlt_le_weak).
    apply Qltb_lt in Hlt. now rewrite Hlt.
  - intros Heq. unfold signal_of.
    assert (Qltb (sar r) (close r) = false) as ->
      by (apply Qltb_ge; rewrite Heq; apply Qle_refl).
    assert (Qltb (close r) (sar r) = false) as ->
      by (apply Qltb_ge; rewrite Heq; apply Qle_refl).
    reflexivity.
  - destruct i as [|j]; [reflexivity|].
    destruct (nth_error_prefix df (S j) r j H) as [y Hy]; [lia|].
    rewrite signal_nth, Hy. cbn [position_at option_map]. now rewrite Hy.
Qed.

(** On [frame_flat_exit] the fourth bar closes on the level: its signal
    is 0, and its position is the signal of the third bar. *)
Lemma position_lags_signal_witness :
  exists p,
    nth_error (signal frame_flat_exit) 3 = Some 0%Z /\
    nth_error (position frame_flat_exit) 3 = Some p /\
    nth_error (signal frame_flat_exit) 2 = Some p.
Proof.
  destruct (position_lags_signal frame_flat_exit 3 _ eq_refl)
    as (s & p & Hs & Hp & _ & _ & Heq & Hlag).
  exists p. rewrite Hs. split; [|split; assumption].
  f_equal. apply Heq. reflexivity.
Defined.

(** C5: the cost of bar 0 is 0; on every later bar the cost is
    [transaction_cost] exactly when the position is not flat and differs
    from the position of the bar before, and 0 on every other bar. *)
Theorem trade_cost_event (df : list Row) (i : nat) (r : Row) :
  nth_error df i = Some r ->
  exists p c,
    nth_error (position df) i = Some p /\
    nth_error (trade_cost df) i = Some c /\
    match i with
    | O => p = 0%Z /\ c = 0
    | S j =>
        exists p0,
          nth_error (position df) j = Some p0 /\
          (c = transaction_cost <-> (p <> 0 /\ p <> p0)%Z) /\
          (c = 0 <-> ~ (p <> 0 /\ p <> p0)%Z)
    end.
Proof.
  intros H. exists (position_at df i), (trade_cost_of (position_at df i) (prev_position_at df i)).
  rewrite (position_nth df i r H), (trade_cost_nth df i r H).
  split; [reflexivity|]. split; [reflexivity|].
  destruct i as [|j]; [split; reflexivity|].
  destruct (nth_error_prefix df (S j) r j H) as [y Hy]; [lia|].
  exists (position_at df j). split; [apply (position_nth df j y Hy)|].
  cbn [prev_position_at]. unfold trade_cost_of, differs.
  set (p := position_at df (S j)). set (p0 := position_at df j).
  destruct (p =? p0)%Z eqn:E1; destruct (p =? 0)%Z eqn:E2; cbn [negb andb];
    rewrite ?Z.eqb_eq, ?Z.eqb_neq in *;
    (split; split; intros K; try reflexivity; try discriminate K; try tauto).
  all: try (exfalso; apply K; tauto).
Qed.

(** On [frame_flat_exit] the fourth bar goes long from flat and pays the
    fee. *)
Lemma trade_cost_event_witness :
  exists p c p0,
    nth_error (position frame_flat_exit) 3 = Some p /\
    nth_error (position frame_flat_exit) 2 = Some p0 /\
    nth_error (trade_cost frame_flat_exit) 3 = Some c /\
    (c = transaction_cost <-> (p <> 0 /\ p <> p0)%Z) /\
    (c = 0 <-> ~ (p <> 0 /\ p <> p0)%Z).
Proof.
  destruct (trade_cost_event frame_flat_exit 3 _ eq_refl)
    as (p & c & Hp & Hc & p0 & Hp0 & H1 & H2).
  exists p, c, p0. auto.
Defined.

(** C7: on any frame with at least one bar the first position is 0, the
    first net P&L is 0 and the first equity equals [initial_capital]. *)
Theorem equity_starts_at_initial_capital (r : Row) (df : list Row) :
  exists n e,
    nth_error (position (r :: df)) 0 = Some 0%Z /\
    nth_error (net_pnl (r :: df)) 0 = Some (Some n) /\ n == 0 /\
    nth_error (equity (r :: df)) 0 = Some (Some e) /\ e == initial_capital.
Proof.
  assert (H : nth_error (r :: df) 0 = Some r) by reflexivity.
  pose proof (net_pnl_nth (r :: df) 0 r H) as Hn.
  rewrite (net_pnl_at_flat (r :: df) 0 r eq_refl) in Hn.
  exists (0 * initial_capital - 0), (initial_capital + (0 + (0 * initial_capital - 0))).
  split; [apply (position_nth (r :: df) 0 r H)|].
  split; [exact Hn|]. split; [ring|]. split; [|ring].
  unfold equity, Pd.cumsum. rewrite nth_error_map.
  destruct (net_pnl (r :: df)) as [|c t]; [discriminate|].
  cbn in Hn. injection Hn as ->. reflexivity.
Qed.

Lemma flat_net_pnl_zero df x :
  In x (flat_net_pnl df) -> x = Some (0 * initial_capital - 0).
Proof.
  unfold flat_net_pnl. intros H.
  apply in_map_iff in H as [[p n] [<- H]].
  apply filter_In in H as [H Hp]. cbn [fst snd] in *.
  apply Z.eqb_eq in Hp. subst p.
  apply In_nth_error in H as [i Hi]. rewrite nth_error_combine in Hi.
  destruct (nth_error df i) as [r|] eqn:E.
  - rewrite (position_nth df i r E), (net_pnl_nth df i r E) in Hi.
    injection Hi as Hp <-. now apply net_pnl_at_flat.
  - rewrite (position_nth_None df i E) in Hi. discriminate.
Qed.

Lemma backtest_Ok sqrt df out :
  backtest sqrt df = Ok out ->
  exists fe,
    Pd.iloc_last (equity df) = Ok fe /\
    Final_Equity (summary_metrics out) = fe /\
    Sharpe (summary_metrics out) = sharpe sqrt df /\
    Max_Drawdown (summary_metrics out) = max_dd df /\
    out_trade_log out = trade_log df /\
    out_monthly out = monthly df.
Proof.
  unfold backtest, bind. destruct (Pd.iloc_last (equity df)) as [fe|e];
    [|discriminate].
  intros [= <-]. exists fe. cbn. auto 10.
Qed.

(** C2, as the code has it: when no close is zero and the run completes,
    the P&L of the trades of the log, plus the net P&L of the flat bars
    (each of which is 0), equals the final equity minus
    [initial_capital]; and so does the sum of the net P&L of all bars. *)
Theorem reconciliation (sqrt : Q -> Q) (df : list Row) (out : Output) :
  closes_nonzero df ->
  backtest sqrt df = Ok out ->
  exists fe,
    Final_Equity (summary_metrics out) = Some fe /\
    (forall x, In x (flat_net_pnl df) -> exists q, x = Some q /\ q == 0) /\
    Pd.Qsum (map pnl (out_trade_log out)) + Pd.sum (flat_net_pnl df)
      == fe - initial_capital /\
    Pd.sum (net_pnl df) == fe - initial_capital.
Proof.
  intros Hnz H. apply backtest_Ok in H as (fe & Hl & Hfe & _ & _ & Hlog & _).
  destruct (final_equity_sum df fe (closes_nonzero_valid df Hnz) Hl)
    as [q [-> Hq]].
  exists q. split; [exact Hfe|].
  assert (Hflat : forall x, In x (flat_net_pnl df) ->
                            exists q0, x = Some q0 /\ q0 == 0).
  { intros x Hx. rewrite (flat_net_pnl_zero df x Hx).
    eexists. split; [reflexivity|ring]. }
  split; [exact Hflat|].
  assert (Hz : Pd.sum (flat_net_pnl df) == 0).
  { rewrite sum_or_zero. apply Qsum_zero. intros x Hx.
    destruct (Hflat x Hx) as [q0 [-> Hq0]]. exact Hq0. }
  rewrite Hlog, trade_log_pnl, Hz, Hq. split; ring.
Qed.

(** On [frame_flat_exit] the one trade of the log accounts for the whole
    change of equity. *)
Lemma reconciliation_witness :
  exists out fe,
    backtest sqrt_approx frame_flat_exit = Ok out /\
    Final_Equity (summary_metrics out) = Some fe /\
    Pd.Qsum (map pnl (out_trade_log out)) + Pd.sum (flat_net_pnl frame_flat_exit)
      == fe - initial_capital /\
    Pd.sum (net_pnl frame_flat_exit) == fe - initial_capital.
Proof.
  assert (Hnz : closes_nonzero frame_flat_exit) by closes_nonzero_by_cases.
  eexists.
  destruct (reconciliation sqrt_approx frame_flat_exit _ Hnz eq_refl)
    as (fe & H1 & _ & H2 & H3).
  exists fe. repeat split; [exact H1|exact H2|exact H3].
Defined.

(** C2 fails as stated: on [frame_zero_close] the return of the short bar
    of 4 January is 0/0, so that its net P&L, its equity and the final
    equity are NaN, while the net P&L of the bars and the P&L of the
    trades, which skip the NaN cell, both add up to 0. *)
Lemma reconciliation_fails_on_zero_close :
  exists out,
    backtest sqrt_approx frame_zero_close = Ok out /\
    Final_Equity (summary_metrics out) = None /\
    Total_Return (summary_metrics out) = None /\
    position frame_zero_close = [0; 0; 0; -1]%Z /\
    nth_error (net_pnl frame_zero_close) 3 = Some None /\
    Pd.sum (net_pnl frame_zero_close) == 0 /\
    Pd.Qsum (map pnl (out_trade_log out)) == 0.
Proof.
  eexists. split; [vm_compute; reflexivity|].
  repeat split; vm_compute; reflexivity.
Qed.

(** ** Drawdown *)

Lemma dd_from_cons peak x t :
  dd_from peak (x :: t) =
  (Qmax peak x - x) / Qmax peak x :: dd_from (Qmax peak x) t.
Proof. reflexivity. Qed.

Lemma drawdowns_cons x t :
  drawdowns (x :: t) = (x - x) / x :: dd_from x t.
Proof. reflexivity. Qed.

Lemma dd_times_peak p e : 0 < p -> (p - e) / p * p == p - e.
Proof. intros H. field. intros K. rewrite K in H. now apply Qlt_irrefl in H. Qed.

Lemma dd_nonneg p e : 0 < p -> e <= p -> 0 <= (p - e) / p.
Proof.
  intros Hp He. apply Qle_shift_div_l; [exact Hp|]. lra.
Qed.

Lemma dd_le_1 p e : 0 < p -> ((p - e) / p <= 1 <-> 0 <= e).
Proof.
  intros Hp. pose proof (dd_times_peak p e Hp) as H.
  split; intros K.
  - assert ((p - e) / p * p <= 1 * p) by (apply Qmult_le_compat_r; lra). lra.
  - apply Qle_shift_div_r; [exact Hp|]. lra.
Qed.

Lemma dd_zero p e : 0 < p -> ((p - e) / p == 0 <-> p == e).
Proof.
  intros Hp. pose proof (dd_times_peak p e Hp) as H.
  split; intros K.
  - rewrite K in H. lra.
  - assert (E : p - e == 0) by lra. rewrite E. unfold Qdiv. ring.
Qed.

Lemma nondecreasing_head a b l :
  a == b -> (nondecreasing (a :: l) <-> nondecreasing (b :: l)).
Proof.
  intros E. destruct l as [|y l]; cbn; [tauto|]. now rewrite E.
Qed.

Lemma dd_from_facts peak l :
  0 < peak ->
  (forall d, In d (dd_from peak l) -> 0 <= d) /\
  ((forall d, In d (dd_from peak l) -> d <= 1) <->
   (forall e, In e l -> 0 <= e)) /\
  ((forall d, In d (dd_from peak l) -> d == 0) <->
   nondecreasing (peak :: l)).
Proof.
  revert peak. induction l as [|x t IH]; intros peak Hp.
  - cbn. repeat split; intros; tauto.
  - rewrite dd_from_cons.
    assert (Hm : 0 < Qmax peak x)
      by (eapply Qlt_le_trans; [exact Hp|apply Q.le_max_l]).
    destruct (IH _ Hm) as (IH1 & IH2 & IH3).
    pose proof (Q.le_max_r peak x) as Hx.
    split; [|split].
    + intros d [<-|Hd]; [now apply dd_nonneg|now apply IH1].
    + split.
      * intros H e [<-|He].
        -- apply (dd_le_1 (Qmax peak x) x Hm). apply H. now left.
        -- apply IH2; [|exact He]. intros d Hd. apply H. now right.
      * intros H d [<-|Hd].
        -- apply (dd_le_1 (Qmax peak x) x Hm). apply H. now left.
        -- apply (proj2 IH2); [|exact Hd]. intros e He. apply H. now right.
    + split.
      * intros H.
        assert (E : Qmax peak x == x)
          by (apply (dd_zero (Qmax peak x) x Hm); apply H; now left).
        cbn [nondecreasing]. split.
        -- rewrite <- E. apply Q.le_max_l.
        -- apply (nondecreasing_head _ _ t E), IH3.
           intros d Hd. apply H. now right.
      * cbn [nondecreasing]. intros [Hle Hnd] d [<-|Hd].
        -- apply (dd_zero (Qmax peak x) x Hm). now apply Q.max_r.
        -- apply (proj2 IH3); [|exact Hd].
           apply (nondecreasing_head (Qmax peak x) x t); [|exact Hnd].
           now apply Q.max_r.
Qed.

Lemma fold_left_Qmax_ge l a : a <= fold_left Qmax l a.
Proof.
  revert a; induction l as [|x l IH]; intros a; cbn; [apply Qle_refl|].
  eapply Qle_trans; [apply Q.le_max_l|apply IH].
Qed.

Lemma fold_left_Qmax_upper l a d :
  In d l -> d <= fold_left Qmax l a.
Proof.
  revert a; induction l as [|x l IH]; intros a; [intros []|].
  cbn. intros [->|H]; [|now apply IH].
  eapply Qle_trans; [apply Q.le_max_r|apply fold_left_Qmax_ge].
Qed.

Lemma fold_left_Qmax_attained l a :
  fold_left Qmax l a == a \/ exists d, In d l /\ fold_left Qmax l a == d.
Proof.
  revert a; induction l as [|x l IH]; intros a; cbn; [left; reflexivity|].
  destruct (IH (Qmax a x)) as [E|[d [Hd E]]].
  - destruct (Q.max_spec a x) as [[_ K]|[_ K]].
    + right. exists x. split; [now left|]. now rewrite E.
    + left. now rewrite E.
  - right. exists d. auto.
Qed.

(** [Series.max()] is an upper bound of the column and one of its
    cells. *)
Lemma max_upper l m d : Pd.max l = Some m -> In d l -> d <= m.
Proof.
  destruct l as [|x t]; [discriminate|]. intros [= <-] [->|H].
  - apply fold_left_Qmax_ge.
  - now apply fold_left_Qmax_upper.
Qed.

Lemma max_attained l m : Pd.max l = Some m -> exists d, In d l /\ m == d.
Proof.
  destruct l as [|x t]; [discriminate|]. intros [= <-].
  destruct (fold_left_Qmax_attained t x) as [E|[d [Hd E]]].
  - exists x. split; [now left|exact E].
  - exists d. split; [now right|exact E].
Qed.

Lemma max_dd_of_facts e0 rest :
  0 < e0 ->
  exists d,
    max_dd_of (e0 :: rest) = Some d /\
    0 <= d /\
    (d <= 1 <-> forall e, In e rest -> 0 <= e) /\
    (d == 0 <-> nondecreasing (e0 :: rest)).
Proof.
  intros H0. unfold max_dd_of. rewrite drawdowns_cons.
  destruct (dd_from_facts e0 rest H0) as (F1 & F2 & F3).
  set (d0 := (e0 - e0) / e0).
  assert (Hd0 : d0 == 0) by (apply dd_zero; [exact H0|reflexivity]).
  destruct (Pd.max (d0 :: dd_from e0 rest)) as [m|] eqn:E; [|discriminate].
  exists m. split; [reflexivity|].
  pose proof (max_upper _ m d0 E (or_introl eq_refl)) as Hge.
  destruct (max_attained _ m E) as [d [Hd Hm]].
  split; [lra|]. split; split.
  - intros Hle. apply F2. intros x Hx.
    eapply Qle_trans; [|exact Hle]. apply (max_upper _ m x E). now right.
  - intros Hall. rewrite Hm. destruct Hd as [<-|Hd]; [lra|].
    now apply (proj2 F2).
  - intros Hz. apply F3. intros x Hx.
    pose proof (max_upper _ m x E (or_intror Hx)).
    pose proof (F1 x Hx). lra.
  - intros Hnd. rewrite Hm. destruct Hd as [<-|Hd]; [exact Hd0|].
    now apply (proj2 F3).
Qed.




(** ** Sharpe ratio *)

Lemma Qsum_nonneg l : (forall x, In x l -> 0 <= x) -> 0 <= Pd.Qsum l.
Proof.
  induction l as [|a l IH]; intros H; [apply Qle_refl|].
  rewrite Qsum_cons.
  assert (0 <= a) by (apply H; now left).
  assert (0 <= Pd.Qsum l) by (apply IH; intros; apply H; now right).
  lra.
Qed.

Lemma var_None l : Pd.var l = None <-> (length l < 2)%nat.
Proof.
  destruct l as [|a [|b l]]; cbn; split; intros H;
    try reflexivity; try discriminate; lia.
Qed.

Lemma Qsquare_nonneg x : 0 <= x * x.
Proof. nra. Qed.

Lemma var_Some l :
  (2 <= length l)%nat ->
  Pd.var l =
  Some (Pd.Qsum (map (fun x => (x - Pd.Qsum l / inject_Z (Z.of_nat (length l)))
                               * (x - Pd.Qsum l / inject_Z (Z.of_nat (length l)))) l)
        / inject_Z (Z.of_nat (length l) - 1)).
Proof.
  destruct l as [|a [|b l]]; cbn [length]; try lia. reflexivity.
Qed.

Lemma var_nonneg l v : Pd.var l = Some v -> 0 <= v.
Proof.
  intros H. destruct (Nat.lt_ge_cases (length l) 2) as [Hlt|Hge].
  - apply var_None in Hlt. congruence.
  - rewrite (var_Some l Hge) in H. injection H as <-.
    apply Qle_shift_div_l.
    + unfold Qlt. cbn [Qnum Qden inject_Z]. lia.
    + rewrite Qmult_0_l. apply Qsum_nonneg. intros x Hx.
      apply in_map_iff in Hx as [y [<- _]]. apply Qsquare_nonneg.
Qed.

Lemma mean_defined l : (2 <= length l)%nat -> exists m, Pd.mean l = Some m.
Proof. destruct l; cbn; [lia|eauto]. Qed.

Section SharpeFacts.

Variable sqrt : Q -> Q.
Hypothesis sqrt_pos : forall x, 0 < x -> 0 < sqrt x.
Hypothesis sqrt_zero : forall x, x == 0 -> sqrt x == 0.

Lemma std_None l : std sqrt l = None <-> (length l < 2)%nat.
Proof.
  unfold std. rewrite <- var_None.
  destruct (Pd.var l); cbn; split; intros; congruence.
Qed.

Lemma std_positive l s :
  std sqrt l = Some s -> (Qltb 0 s = false <-> s == 0).
Proof.
  unfold std. destruct (Pd.var l) as [v|] eqn:E; [|discriminate].
  intros [= <-]. pose proof (var_nonneg l v E) as Hv.
  rewrite Qltb_ge. split; intros H.
  - destruct (Qlt_le_dec 0 v) as [Hlt|Hle].
    + specialize (sqrt_pos v Hlt). lra.
    + apply sqrt_zero. lra.
  - rewrite H. apply Qle_refl.
Qed.

Lemma sharpe_of_None l :
  sharpe_of sqrt l = None <->
  (length l < 2)%nat \/ exists s, std sqrt l = Some s /\ s == 0.
Proof.
  unfold sharpe_of. destruct (std sqrt l) as [s|] eqn:E; cbn [positive].
  - assert (Hlen : (2 <= length l)%nat).
    { destruct (Nat.lt_ge_cases (length l) 2) as [H|H]; [|exact H].
      apply std_None in H. congruence. }
    destruct (mean_defined l Hlen) as [m ->].
    pose proof (std_positive l s E) as Hs.
    destruct (Qltb 0 s) eqn:Es.
    + apply Qltb_lt in Es.
      rewrite (ndiv_nonzero m s) by (intros K; rewrite K in Es; now apply Qlt_irrefl in Es).
      cbn [nmul lift2].
      split; [discriminate|]. intros [H|[s' [[= <-] H]]]; [lia|].
      apply Hs in H. discriminate.
    + split; [|reflexivity]. intros _. right. exists s.
      split; [reflexivity|]. now apply Hs.
  - split; [|reflexivity]. intros _. left. now apply std_None.
Qed.

Lemma sharpe_of_value l m s :
  Pd.mean l = Some m -> std sqrt l = Some s -> 0 < s ->
  sharpe_of sqrt l = Some (m / s * sqrt 252).
Proof.
  intros Hm Hs Hpos. unfold sharpe_of. rewrite Hm, Hs. cbn [positive].
  rewrite (ndiv_nonzero m s)
    by (intros K; rewrite K in Hpos; now apply Qlt_irrefl in Hpos).
  apply Qltb_lt in Hpos. now rewrite Hpos.
Qed.

(** Line 72 on a column of daily returns: NaN with an infinity in the
    column, else what the numbers of the column give. *)
Lemma sharpe_cells_eq l :
  sharpe_cells sqrt l =
  if existsb infinite l then None else sharpe_of sqrt (finite l).
Proof.
  unfold sharpe_cells, std_cells, sharpe_of.
  destruct (existsb infinite l); reflexivity.
Qed.

Lemma sharpe_cells_None l :
  sharpe_cells sqrt l = None <->
  existsb infinite l = true \/
  (length (finite l) < 2)%nat \/
  exists s, std sqrt (finite l) = Some s /\ s == 0.
Proof.
  rewrite sharpe_cells_eq. destruct (existsb infinite l).
  - split; [now left|reflexivity].
  - rewrite sharpe_of_None. split; [now right|].
    intros [H|H]; [discriminate|exact H].
Qed.

End SharpeFacts.

Lemma backtest_defined sqrt r df : exists out, backtest sqrt (r :: df) = Ok out.
Proof.
  unfold backtest, bind.
  destruct (iloc_last_defined (equity (r :: df))) as [fe ->]; [|eauto].
  intros H. apply (f_equal (@length _)) in H.
  rewrite equity_length in H. discriminate.
Qed.

Lemma sqrt_approx_pos x : 0 < x -> 0 < sqrt_approx x.
Proof.
  destruct x as [n d]. unfold Qlt, sqrt_approx. cbn [Qnum Qden].
  rewrite !Z.mul_0_l, !Z.mul_1_r. intros H.
  apply Z.sqrt_pos. nia.
Qed.

Lemma sqrt_approx_zero x : x == 0 -> sqrt_approx x == 0.
Proof.
  destruct x as [n d]. unfold Qeq, sqrt_approx. cbn [Qnum Qden].
  rewrite !Z.mul_0_l, !Z.mul_1_r. intros ->. reflexivity.
Qed.

(** C4, as the code has it: on a sample of numbers the Sharpe ratio is
    NaN exactly when the sample has fewer than two observations or a
    standard deviation of 0, and otherwise it is mean / stdev * sqrt 252.
    On the daily returns of a run it is NaN exactly when some daily
    return is infinite, or the daily returns that are numbers are fewer
    than two or have a standard deviation of 0.  On any frame with at
    least one bar the run returns; with no zero close, the value in its
    summary is that of the daily returns. *)
Theorem sharpe_nan_iff_degenerate (sqrt : Q -> Q) :
  (forall x, 0 < x -> 0 < sqrt x) ->
  (forall x, x == 0 -> sqrt x == 0) ->
  (forall rets,
      sharpe_of sqrt rets = None <->
      (length rets < 2)%nat \/ exists s, std sqrt rets = Some s /\ s == 0) /\
  (forall rets m s,
      Pd.mean rets = Some m -> std sqrt rets = Some s -> 0 < s ->
      sharpe_of sqrt rets = Some (m / s * sqrt 252)) /\
  (forall cells,
      sharpe_cells sqrt cells = None <->
      existsb infinite cells = true \/
      (length (finite cells) < 2)%nat \/
      exists s, std sqrt (finite cells) = Some s /\ s == 0) /\
  (forall r df,
      exists out,
        backtest sqrt (r :: df) = Ok out /\
        (closes_nonzero (r :: df) ->
         Sharpe (summary_metrics out)
         = sharpe_cells sqrt (daily_ret (r :: df)))).
Proof.
  intros Hpos Hzero. split; [|split; [|split]].
  - intros rets. now apply sharpe_of_None.
  - intros rets m s. now apply sharpe_of_value.
  - intros cells. now apply sharpe_cells_None.
  - intros r df. destruct (backtest_defined sqrt r df) as [out Hout].
    exists out. split; [exact Hout|]. intros _.
    apply backtest_Ok in Hout as (fe & _ & _ & Hs & _). exact Hs.
Qed.

(** With [sqrt_approx] for the square root: three equal returns have a
    standard deviation of 0, and the run on [frame_flat_exit] returns. *)
Lemma sharpe_nan_iff_degenerate_witness :
  (sharpe_of sqrt_approx [0; 0; 0] = None <->
   (length [0; 0; 0] < 2)%nat \/
   exists s, std sqrt_approx [0; 0; 0] = Some s /\ s == 0) /\
  (exists out,
      backtest sqrt_approx frame_flat_exit = Ok out /\
      Sharpe (summary_metrics out)
      = sharpe_cells sqrt_approx (daily_ret frame_flat_exit)).
Proof.
  destruct (sharpe_nan_iff_degenerate sqrt_approx sqrt_approx_pos
              sqrt_approx_zero) as (H1 & _ & _ & H4).
  split; [apply H1|].
  destruct (H4 (mkRow (mkBar (jan 1) 10 11 9 10 1000) 10) (tl frame_flat_exit))
    as (out & Hout & Hs).
  exists out. split; [exact Hout|]. apply Hs. closes_nonzero_by_cases.
Defined.

(** C4 fails as stated: on [frame_zero_equity], whose closes are
    positive, the equity of 4 January is exactly 0 and the return of
    5 January is 9900 / 0, an infinity.  The standard deviation of the
    five daily returns is NaN, not 0, and the Sharpe ratio is NaN. *)
Lemma sharpe_nan_on_zero_equity :
  (exists e, nth_error (equity frame_zero_equity) 3 = Some (Some e) /\ e == 0) /\
  length (daily_ret frame_zero_equity) = 5%nat /\
  nth_error (daily_ret frame_zero_equity) 4 = Some PInf /\
  std_cells sqrt_approx (daily_ret frame_zero_equity) = None /\
  exists out,
    backtest sqrt_approx frame_zero_equity = Ok out /\
    Sharpe (summary_metrics out) = None.
Proof.
  split; [eexists; split; [vm_compute; reflexivity|reflexivity]|].
  split; [vm_compute; reflexivity|]. split; [vm_compute; reflexivity|].
  split; [vm_compute; reflexivity|].
  eexists. split; vm_compute; reflexivity.
Qed.

(** ** Short inputs *)

Lemma bins_single lo : Pd.bins lo lo = [lo].
Proof.
  unfold Pd.bins. rewrite Z.sub_diag.
  change (Z.to_nat (0 + 1)) with 1%nat. cbn [seq map Z.of_nat].
  now rewrite Z.add_0_r.
Qed.

Lemma resample_single {A} (period : A -> Z) x :
  Pd.resample period [x] = [(period x, [x])].
Proof.
  unfold Pd.resample. cbn [List.last]. rewrite bins_single.
  cbn [map filter]. now rewrite Z.eqb_refl.
Qed.

Lemma equity_single r : equity [r] = [Some flat_equity].
Proof. reflexivity. Qed.

Lemma points_single r :
  points [r] = [mkPoint (datetime r) (Some (0 * initial_capital - 0)) (Some flat_equity)].
Proof. reflexivity. Qed.

Lemma daily_single r :
  daily [r] = [mkDaily (day_of (datetime r)) (0 * initial_capital - 0 + 0) flat_equity].
Proof.
  unfold daily, daily_buckets, buckets. rewrite points_single, resample_single.
  reflexivity.
Qed.

Lemma monthly_single r :
  monthly [r] =
  [mkMonthly (month_of (datetime r)) (0 * initial_capital - 0 + 0)
             (Some flat_equity) None].
Proof.
  unfold monthly, monthly_buckets, buckets.
  rewrite points_single, resample_single.
  reflexivity.
Qed.

Lemma trade_log_single r : trade_log [r] = [].
Proof. reflexivity. Qed.

Lemma backtest_single sqrt r :
  backtest sqrt [r] =
  Ok (mkOutput
        (mkSummary (Some flat_equity)
                   (Some ((flat_equity / initial_capital - 1) * 100))
                   None
                   (Some ((flat_equity - flat_equity) / flat_equity)))
        []
        [mkMonthly (month_of (datetime r)) (0 * initial_capital - 0 + 0)
                   (Some flat_equity) None]).
Proof.
  unfold backtest. rewrite equity_single, monthly_single, trade_log_single.
  unfold sharpe, max_dd, daily_ret. rewrite daily_single. reflexivity.
Qed.

(** C8, as the code has it: no length check guards the run.  With no bar
    the engine raises, whatever the indicator answers; with one bar for
    which the indicator returns one level the engine runs to the end:
    the equity is the initial capital, the trade log is empty, the Sharpe
    ratio is NaN, the maximum drawdown is 0 and the monthly table has one
    row whose return is NaN. *)
Theorem engine_on_short_input (sqrt : Q -> Q)
    (psar : list Bar -> result (list Q)) :
  (exists e, engine sqrt psar [] = Raise e) /\
  (forall b s,
      psar [b] = Ok [s] ->
      exists out fe d m,
        engine sqrt psar [b] = Ok out /\
        Final_Equity (summary_metrics out) = Some fe /\
        fe == initial_capital /\
        Sharpe (summary_metrics out) = None /\
        Max_Drawdown (summary_metrics out) = Some d /\ d == 0 /\
        out_trade_log out = [] /\
        out_monthly out = [m] /\ monthly_return m = None).
Proof.
  split.
  - unfold engine, bind. destruct (psar []) as [levels|e]; [|eauto].
    destruct levels as [|l levels]; cbn; eauto.
  - intros b s H. unfold engine, bind. rewrite H.
    cbn [attach length Nat.eqb Pd.zip_with]. rewrite backtest_single.
    do 4 eexists. split; [reflexivity|]. cbn.
    repeat split; reflexivity.
Qed.

(** The run on [one_bar] with [level_at_close] for the indicator. *)
Lemma engine_on_short_input_witness :
  exists out fe d m,
    engine sqrt_approx level_at_close one_bar = Ok out /\
    Final_Equity (summary_metrics out) = Some fe /\
    fe == initial_capital /\
    Sharpe (summary_metrics out) = None /\
    Max_Drawdown (summary_metrics out) = Some d /\ d == 0 /\
    out_trade_log out = [] /\
    out_monthly out = [m] /\ monthly_return m = None.
Proof.
  exact (proj2 (engine_on_short_input sqrt_approx level_at_close)
               (mkBar (jan 1) 10 11 9 10 1000) 10 eq_refl).
Defined.

(** C8 fails as stated: a one-bar input raises nothing and the engine
    returns its three tables. *)
Lemma single_bar_run_completes :
  (length one_bar < 2)%nat /\
  engine sqrt_approx level_at_close one_bar =
  Ok (mkOutput
        (mkSummary (Some 100000) (Some (0 # 100000)) None (Some (0 # 100000)))
        []
        [mkMonthly 648 0 (Some 100000) None]).
Proof.
  split; [cbn; lia|]. vm_compute. reflexivity.
Qed.

(** ** Calendar buckets *)

Lemma points_length df : length (points df) = length df.
Proof.
  unfold points. rewrite zip_with_length, length_combine, length_map,
    net_pnl_length, equity_length. lia.
Qed.

Lemma points_nth_cells df i r :
  nth_error df i = Some r ->
  exists n e, nth_error (points df) i = Some (mkPoint (datetime r) n e) /\
              nth_error (net_pnl df) i = Some n /\
              nth_error (equity df) i = Some e.
Proof.
  intros H. pose proof (net_pnl_nth df i r H) as Hn.
  destruct (nth_error (equity df) i) as [e|] eqn:Ee.
  - exists (net_pnl_at df i r), e. unfold points.
    rewrite nth_error_zip_with, nth_error_map, H, nth_error_combine, Hn, Ee.
    auto.
  - apply nth_error_None in Ee. rewrite equity_length in Ee.
    apply nth_error_None in Ee. congruence.
Qed.

Lemma points_nth df i r :
  net_pnl_valid df ->
  nth_error df i = Some r ->
  exists n e, nth_error (points df) i = Some (mkPoint (datetime r) (Some n) (Some e)).
Proof.
  intros Hv H. destruct (Hv i r H) as [n Hn].
  destruct (equity_nth df i r Hv H) as [e [He _]].
  exists n, e. unfold points.
  rewrite nth_error_zip_with, nth_error_map, H, nth_error_combine.
  rewrite (net_pnl_nth df i r H), Hn, He. reflexivity.
Qed.

Lemma points_time df : map p_time (points df) = map (fun r : Row => datetime r) df.
Proof.
  apply nth_error_ext. intros i. rewrite !nth_error_map.
  destruct (nth_error df i) as [r|] eqn:E.
  - destruct (points_nth_cells df i r E) as (n & e & -> & _). reflexivity.
  - assert (nth_error (points df) i = None) as ->; [|reflexivity].
    apply nth_error_None. rewrite points_length. now apply nth_error_None.
Qed.

Lemma points_valid df p :
  net_pnl_valid df ->
  In p (points df) -> exists e, p_equity p = Some e.
Proof.
  intros Hv H. apply In_nth_error in H as [i Hi].
  destruct (nth_error df i) as [r|] eqn:E.
  - destruct (points_nth df i r Hv E) as (n & e & K). rewrite K in Hi.
    injection Hi as Hp. subst p. cbn. eauto.
  - apply nth_error_None in E.
    assert (i < length (points df))%nat by (apply nth_error_Some; congruence).
    rewrite points_length in *. lia.
Qed.

Lemma last_map {A B} (f : A -> B) l d :
  List.last (map f l) (f d) = f (List.last l d).
Proof.
  induction l as [|a [|b l] IH]; [reflexivity|reflexivity|].
  exact IH.
Qed.

Lemma existsb_map {A B} (f : A -> B) (p : B -> bool) l :
  existsb p (map f l) = existsb (fun x => p (f x)) l.
Proof.
  induction l as [|a l IH]; cbn; [reflexivity|now rewrite IH].
Qed.

Lemma filter_nil_existsb {A} (p : A -> bool) l :
  filter p l = [] <-> existsb p l = false.
Proof.
  induction l as [|a l IH]; cbn; [tauto|].
  destruct (p a); cbn; [split; discriminate|exact IH].
Qed.

Lemma last_valid_defined (l : list (option Q)) :
  l <> [] -> (forall c, In c l -> exists e, c = Some e) ->
  exists e, Pd.last l = Some e.
Proof.
  intros Hne Hall. unfold Pd.last.
  destruct (exists_last Hne) as [l' [c ->]].
  destruct (Hall c) as [e ->]; [apply in_or_app; right; now left|].
  assert (Hv : forall a b, Pd.valid (a ++ b) = Pd.valid a ++ Pd.valid b).
  { intros a b. induction a as [|[x|] a IHa]; cbn; [reflexivity| |exact IHa].
    now rewrite IHa. }
  rewrite Hv. cbn [Pd.valid]. rewrite rev_unit. now exists e.
Qed.

Section Buckets.

(** The period of a timestamp: [day_of] for ['D'], [month_of] for ['M']. *)
Variable per : Z -> Z.

Lemma buckets_bins r0 df :
  buckets per (r0 :: df) =
  map (bucket_of per (r0 :: df))
      (Pd.bins (per (datetime r0)) (per (datetime (List.last (r0 :: df) r0)))).
Proof.
  unfold buckets, Pd.resample.
  destruct (points (r0 :: df)) as [|p0 ps] eqn:E.
  - apply (f_equal (@length _)) in E. rewrite points_length in E.
    discriminate.
  - rewrite map_map.
    assert (Ht : map p_time (p0 :: ps) = map (fun r : Row => datetime r) (r0 :: df))
      by (rewrite <- E; apply points_time).
    assert (H0 : p_time p0 = datetime r0) by (now injection Ht).
    assert (Hl : p_time (List.last (p0 :: ps) p0) = datetime (List.last (r0 :: df) r0)).
    { rewrite <- (last_map p_time), Ht.
      rewrite H0. apply (last_map (fun r : Row => datetime r)). }
    rewrite Hl, H0. unfold bucket_of. rewrite E. reflexivity.
Qed.

Lemma group_empty df k :
  filter (fun p => (per (p_time p) =? k)%Z) (points df) = [] <->
  has_bar per df k = false.
Proof.
  rewrite filter_nil_existsb. unfold has_bar.
  rewrite <- (existsb_map p_time (fun t => (per t =? k)%Z)), points_time.
  now rewrite existsb_map.
Qed.

(** An empty bucket sums to 0 and has no last equity. *)
Lemma bucket_of_empty df k :
  has_bar per df k = false ->
  b_net_pnl (bucket_of per df k) = 0 /\ b_equity (bucket_of per df k) = None.
Proof.
  intros H. apply group_empty in H. unfold bucket_of, aggregate.
  cbn [snd b_net_pnl b_equity]. rewrite H. split; reflexivity.
Qed.

Lemma bucket_of_nonempty df k :
  net_pnl_valid df ->
  has_bar per df k = true -> exists e, b_equity (bucket_of per df k) = Some e.
Proof.
  intros Hv H. unfold bucket_of, aggregate. cbn [snd b_equity].
  apply last_valid_defined.
  - intros K. apply map_eq_nil in K. apply group_empty in K. congruence.
  - intros c Hc. apply in_map_iff in Hc as [p [<- Hp]].
    apply filter_In in Hp as [Hp _]. now apply (points_valid df).
Qed.

(** [dropna()] keeps the buckets that have an equity: when every cell
    is a number, those that have a bar. *)
Lemma dropna_buckets df ks :
  net_pnl_valid df ->
  map d_day (dropna (map (bucket_of per df) ks)) = filter (has_bar per df) ks.
Proof.
  intros Hv. induction ks as [|k ks IH]; [reflexivity|].
  cbn [map dropna filter].
  destruct (has_bar per df k) eqn:E.
  - destruct (bucket_of_nonempty df k Hv E) as [e ->].
    cbn [map d_day]. now rewrite IH.
  - destruct (bucket_of_empty df k E) as [_ ->]. exact IH.
Qed.

(** Whatever the cells, a bucket that [dropna()] keeps has a bar. *)
Lemma dropna_has_bar df ks k :
  In k (map d_day (dropna (map (bucket_of per df) ks))) ->
  In k ks /\ has_bar per df k = true.
Proof.
  induction ks as [|k0 ks IH]; [intros []|].
  cbn [map dropna].
  destruct (b_equity (bucket_of per df k0)) as [e|] eqn:E.
  - cbn [map d_day]. intros [<-|H].
    + split; [now left|]. cbn [bucket_of aggregate b_label fst].
      destruct (has_bar per df k0) eqn:Eb; [reflexivity|].
      destruct (bucket_of_empty df k0 Eb) as [_ K]. congruence.
    + destruct (IH H) as [H1 H2]. split; [now right|exact H2].
  - intros H. destruct (IH H) as [H1 H2]. split; [now right|exact H2].
Qed.

End Buckets.

(** ** Monthly returns *)

Lemma ffill_from_length p l : length (Pd.ffill_from p l) = length l.
Proof.
  revert p; induction l as [|[x|] l IH]; intros p; cbn; auto.
Qed.


Lemma ffill_from_defined a l i c :
  nth_error (Pd.ffill_from (Some a) l) i = Some c -> exists x, c = Some x.
Proof.
  revert a i; induction l as [|[y|] l IH]; intros a [|i] H; cbn in H;
    try discriminate.
  - injection H as <-. eauto.
  - now apply (IH y i).
  - injection H as <-. eauto.
  - now apply (IH a i).
Qed.

Lemma ffill_defined e0 l i c :
  nth_error (Pd.ffill (Some e0 :: l)) i = Some c -> exists x, c = Some x.
Proof.
  destruct i as [|i]; cbn.
  - intros [= <-]. eauto.
  - apply ffill_from_defined.
Qed.

Lemma pct_change_length l : length (Pd.pct_change l) = length l.
Proof.
  unfold Pd.pct_change, Pd.fillna, Pd.shift, Pd.ffill.
  rewrite zip_with_length, length_map, shift_from_length, ffill_from_length.
  lia.
Qed.


Lemma pct_change_next l j a b :
  nth_error (Pd.ffill l) j = Some a ->
  nth_error (Pd.ffill l) (S j) = Some b ->
  nth_error (Pd.pct_change l) (S j) = Some (nsub (ndiv b a) (Some 1)).
Proof.
  intros Ha Hb. unfold Pd.pct_change.
  rewrite nth_error_zip_with, Hb, nth_error_fillna. unfold Pd.shift.
  rewrite (nth_error_shift_from None _ (S j) b Hb), Ha. reflexivity.
Qed.

Lemma bins_first lo hi k : nth_error (Pd.bins lo hi) 0 = Some k -> k = lo.
Proof.
  unfold Pd.bins. destruct (Z.to_nat (hi - lo + 1)); cbn; [discriminate|].
  intros [= <-]. lia.
Qed.

Lemma has_bar_first per r0 df : has_bar per (r0 :: df) (per (datetime r0)) = true.
Proof. unfold has_bar. cbn. now rewrite Z.eqb_refl. Qed.

Lemma monthly_buckets_eq df : monthly_buckets df = buckets month_of df.
Proof. reflexivity. Qed.

Lemma daily_buckets_eq df : daily_buckets df = buckets day_of df.
Proof. reflexivity. Qed.

(** The first month holds the first bar, so its equity is not NaN. *)
Lemma monthly_first_equity df b :
  net_pnl_valid df ->
  nth_error (monthly_buckets df) 0 = Some b -> exists e, b_equity b = Some e.
Proof.
  intros Hv. destruct df as [|r0 df]; [discriminate|].
  rewrite monthly_buckets_eq, buckets_bins, nth_error_map.
  destruct (nth_error (Pd.bins _ _) 0) as [k|] eqn:E; [|discriminate].
  apply bins_first in E. subst k. intros [= <-].
  apply bucket_of_nonempty; [exact Hv|apply has_bar_first].
Qed.

Lemma monthly_length df : length (monthly df) = length (monthly_buckets df).
Proof.
  unfold monthly, monthly_return_col.
  rewrite zip_with_length, length_map, pct_change_length, length_map. lia.
Qed.

Lemma monthly_nth df i b :
  nth_error (monthly_buckets df) i = Some b ->
  exists ret,
    nth_error (monthly_return_col (monthly_buckets df)) i = Some ret /\
    nth_error (monthly df) i =
    Some (mkMonthly (b_label b) (b_net_pnl b) (b_equity b) ret).
Proof.
  intros H.
  destruct (nth_error (monthly_return_col (monthly_buckets df)) i) as [ret|] eqn:E.
  - exists ret. split; [reflexivity|]. unfold monthly.
    rewrite nth_error_zip_with, H, E. reflexivity.
  - exfalso. apply nth_error_None in E.
    unfold monthly_return_col in E.
    rewrite length_map, pct_change_length, length_map in E.
    assert (i < length (monthly_buckets df))%nat
      by (apply nth_error_Some; congruence).
    lia.
Qed.

Lemma monthly_nth_inv df i m :
  nth_error (monthly df) i = Some m ->
  exists b ret,
    nth_error (monthly_buckets df) i = Some b /\
    nth_error (monthly_return_col (monthly_buckets df)) i = Some ret /\
    m = mkMonthly (b_label b) (b_net_pnl b) (b_equity b) ret.
Proof.
  intros H. destruct (nth_error (monthly_buckets df) i) as [b|] eqn:E.
  - destruct (monthly_nth df i b E) as [ret [Hr Hm]].
    exists b, ret. rewrite Hm in H. injection H as <-. auto.
  - apply nth_error_None in E. rewrite <- monthly_length in E.
    apply nth_error_None in E. congruence.
Qed.

Lemma monthly_equity_col df :
  map m_equity (monthly df) = map b_equity (monthly_buckets df).
Proof.
  apply nth_error_ext. intros i. rewrite !nth_error_map.
  destruct (nth_error (monthly_buckets df) i) as [b|] eqn:E.
  - destruct (monthly_nth df i b E) as [ret [_ ->]]. reflexivity.
  - apply nth_error_None in E. rewrite <- monthly_length in E.
    apply nth_error_None in E. now rewrite E.
Qed.




Lemma In_monthly df m :
  In m (monthly df) ->
  exists b, In b (monthly_buckets df) /\
            month m = b_label b /\ m_net_pnl m = b_net_pnl b /\
            m_equity m = b_equity b.
Proof.
  intros H. apply In_nth_error in H as [i Hi].
  destruct (monthly_nth_inv df i m Hi) as (b & ret & Hb & _ & ->).
  exists b. split; [eapply nth_error_In; eauto|]. cbn. auto.
Qed.

Lemma monthly_labels df : map month (monthly df) = map b_label (monthly_buckets df).
Proof.
  apply nth_error_ext. intros i. rewrite !nth_error_map.
  destruct (nth_error (monthly_buckets df) i) as [b|] eqn:E.
  - destruct (monthly_nth df i b E) as [ret [_ ->]]. reflexivity.
  - apply nth_error_None in E. rewrite <- monthly_length in E.
    apply nth_error_None in E. now rewrite E.
Qed.

(** C10: the monthly table has one row for every calendar month from the
    month of the first bar to the month of the last bar, and the row of a
    month without bars has a net P&L of 0 and a NaN equity; the daily
    table has no row for a day without bars.  With no zero close, the row
    of a month with bars has an equity, and the daily table has a row for
    exactly those days of the range on which there is a bar. *)
Theorem monthly_keeps_empty_months (r0 : Row) (df : list Row) :
  map month (monthly (r0 :: df)) =
    Pd.bins (month_of (datetime r0))
            (month_of (datetime (List.last (r0 :: df) r0))) /\
  (forall m, In m (monthly (r0 :: df)) ->
             has_bar month_of (r0 :: df) (month m) = false ->
             m_net_pnl m = 0 /\ m_equity m = None) /\
  (forall k, In k (map d_day (daily (r0 :: df))) ->
             has_bar day_of (r0 :: df) k = true) /\
  (closes_nonzero (r0 :: df) ->
   (forall m, In m (monthly (r0 :: df)) ->
              has_bar month_of (r0 :: df) (month m) = true ->
              exists e, m_equity m = Some e) /\
   map d_day (daily (r0 :: df)) =
     filter (has_bar day_of (r0 :: df))
            (Pd.bins (day_of (datetime r0))
                     (day_of (datetime (List.last (r0 :: df) r0))))).
Proof.
  split; [|split; [|split]].
  - rewrite monthly_labels, monthly_buckets_eq, buckets_bins, map_map.
    cbn [bucket_of aggregate b_label fst]. apply map_id.
  - intros m Hm Hbar. apply In_monthly in Hm as (b & Hb & Hl & Hn & He).
    rewrite monthly_buckets_eq, buckets_bins in Hb.
    apply in_map_iff in Hb as [k [<- _]].
    rewrite Hl, Hn, He in *. now apply bucket_of_empty.
  - intros k Hk. unfold daily in Hk.
    rewrite daily_buckets_eq, buckets_bins in Hk.
    now apply dropna_has_bar in Hk.
  - intros Hnz. pose proof (closes_nonzero_valid _ Hnz) as Hv. split.
    + intros m Hm Hbar. apply In_monthly in Hm as (b & Hb & Hl & Hn & He).
      rewrite monthly_buckets_eq, buckets_bins in Hb.
      apply in_map_iff in Hb as [k [<- _]].
      rewrite Hl, He in *. now apply bucket_of_nonempty.
    + unfold daily. rewrite daily_buckets_eq, buckets_bins.
      now apply dropna_buckets.
Qed.

(** On [frame_gap] the monthly table has a row for February, which has no
    bar, and the daily table has the five days that have one. *)
Lemma monthly_keeps_empty_months_witness :
  map month (monthly frame_gap) = [648; 649; 650]%Z /\
  (forall m, In m (monthly frame_gap) ->
             has_bar month_of frame_gap (month m) = false ->
             m_net_pnl m = 0 /\ m_equity m = None) /\
  In (mkMonthly 649 0 None (Some (0 # 100000))) (monthly frame_gap) /\
  has_bar month_of frame_gap 649 = false /\
  map d_day (daily frame_gap) = [19752; 19753; 19783; 19784; 19787]%Z.
Proof.
  destruct (monthly_keeps_empty_months
              (mkRow (mkBar (jan 30) 10 11 9 10 1000) 10) (tl frame_gap))
    as (H1 & H2 & _ & H4).
  change (mkRow (mkBar (jan 30) 10 11 9 10 1000) 10 :: tl frame_gap)
    with frame_gap in *.
  destruct (H4 ltac:(closes_nonzero_by_cases)) as [_ H5].
  split; [etransitivity; [exact H1|vm_compute; reflexivity]|].
  split; [exact H2|].
  split; [vm_compute; right; left; reflexivity|].
  split; [vm_compute; reflexivity|].
  etransitivity; [exact H5|vm_compute; reflexivity].
Defined.

(** ** The trade log against its specification *)

(** ** Groups of a column whose keys never decrease *)

Section SortedGroups.

Context {A : Type} (key : A -> Z).

Lemma runs_by_head r t :
  exists g gs, runs_by key (r :: t) = (r :: g) :: gs.
Proof.
  revert r; induction t as [|r' t IH]; intros r; [now exists [], []|].
  destruct (IH r') as (g & gs & E).
  cbn [runs_by]. cbn [runs_by] in E. rewrite E.
  destruct (key r =? key r')%Z; eauto.
Qed.

Lemma runs_by_cons r r' t :
  runs_by key (r :: r' :: t) =
  match runs_by key (r' :: t) with
  | g :: gs => if (key r =? key r')%Z then (r :: g) :: gs else [r] :: g :: gs
  | [] => [[r]]
  end.
Proof.
  destruct (runs_by_head r' t) as (g & gs & E).
  change (runs_by key (r :: r' :: t))
    with (match runs_by key (r' :: t) with
          | (x :: g0) :: gs0 =>
              if (key r =? key x)%Z then (r :: x :: g0) :: gs0
              else [r] :: (x :: g0) :: gs0
          | _ => [[r]]
          end).
  rewrite E. reflexivity.
Qed.

Lemma runs_by_In l g :
  In g (runs_by key l) -> exists x g', g = x :: g' /\ In x l.
Proof.
  revert g; induction l as [|r [|r' t] IH]; intros g H.
  - destruct H.
  - destruct H as [<-|[]]. exists r, []. split; [reflexivity|now left].
  - rewrite runs_by_cons in H.
    destruct (runs_by_head r' t) as (g0 & gs & E). rewrite E in H, IH.
    destruct (key r =? key r')%Z.
    + destruct H as [<-|H].
      * exists r, (r' :: g0). split; [reflexivity|now left].
      * destruct (IH g (or_intror H)) as (x & g' & -> & Hx).
        exists x, g'. split; [reflexivity|now right].
    + destruct H as [<-|H].
      * exists r, []. split; [reflexivity|now left].
      * destruct (IH g H) as (x & g' & -> & Hx).
        exists x, g'. split; [reflexivity|now right].
Qed.

Lemma keys_ascend_all r t :
  keys_ascend key (r :: t) -> forall x, In x t -> (key r <= key x)%Z.
Proof.
  revert r; induction t as [|r' t IH]; intros r [H1 H2] x Hx; [destruct Hx|].
  destruct Hx as [<-|Hx]; [exact H1|].
  specialize (IH r' H2 x Hx). lia.
Qed.

Lemma insert_key_below k ks :
  (forall x, In x ks -> (k < x)%Z) -> Pd.insert_key k ks = k :: ks.
Proof.
  destruct ks as [|h t]; [reflexivity|]. intros H. cbn.
  assert (k < h)%Z as Hlt by (apply H; now left).
  apply Z.ltb_lt in Hlt. now rewrite Hlt.
Qed.

Lemma filter_none (p : A -> bool) l :
  (forall x, In x l -> p x = false) -> filter p l = [].
Proof.
  induction l as [|a l IH]; intros H; [reflexivity|]. cbn.
  rewrite (H a) by (now left). apply IH. intros x Hx. apply H. now right.
Qed.

(** A row whose key is below every key of the frame opens a group of
    its own. *)
Lemma groupby_cons_new r t :
  (forall x, In x t -> (key r < key x)%Z) ->
  Pd.groupby key (r :: t) = (key r, [r]) :: Pd.groupby key t.
Proof.
  intros H. unfold Pd.groupby. cbn [map Pd.unique fold_right].
  fold (Pd.unique (map key t)). rewrite insert_key_below.
  - cbn [map filter]. rewrite Z.eqb_refl. f_equal.
    + f_equal. f_equal. apply filter_none. intros x Hx.
      apply Z.eqb_neq. specialize (H x Hx). lia.
    + apply map_ext_in. intros k Hk. f_equal.
      apply unique_In, in_map_iff in Hk as [x [<- Hx]].
      specialize (H x Hx).
      assert ((key r =? key x)%Z = false) as -> by (apply Z.eqb_neq; lia).
      reflexivity.
  - intros k Hk. apply unique_In, in_map_iff in Hk as [x [<- Hx]]. auto.
Qed.

Lemma ascending_head m ks :
  ascending ks -> In m ks -> (forall x, In x ks -> (m <= x)%Z) ->
  exists rest, ks = m :: rest /\ forall x, In x rest -> (m < x)%Z.
Proof.
  intros Hasc Hin Hmin. destruct Hasc as [|h t Hlt Ht]; [destruct Hin|].
  assert (h = m).
  { destruct Hin as [E|Hin]; [exact E|].
    specialize (Hlt m Hin). specialize (Hmin h (or_introl eq_refl)). lia. }
  subst h. now exists t.
Qed.

(** A row with the key of the first row of the frame joins the first
    group. *)
Lemma groupby_cons_same r r' t :
  key r = key r' ->
  (forall x, In x t -> (key r' <= key x)%Z) ->
  exists g gs,
    Pd.groupby key (r' :: t) = (key r', g) :: gs /\
    Pd.groupby key (r :: r' :: t) = (key r', r :: g) :: gs.
Proof.
  intros E Hmin. unfold Pd.groupby.
  destruct (ascending_head (key r') (Pd.unique (map key (r' :: t))))
    as (rest & Hks & Hrest).
  - apply unique_ascending.
  - apply unique_In. now left.
  - intros k Hk. apply unique_In in Hk as [<-|Hk]; [lia|].
    apply in_map_iff in Hk as [x [<- Hx]]. auto.
  - change (Pd.unique (map key (r :: r' :: t)))
      with (Pd.insert_key (key r) (Pd.unique (map key (r' :: t)))).
    rewrite Hks. cbn [Pd.insert_key]. rewrite E, Z.ltb_irrefl, Z.eqb_refl.
    cbn [map]. exists (filter (fun x => (key x =? key r')%Z) (r' :: t)).
    exists (map (fun k => (k, filter (fun x => (key x =? k)%Z) (r' :: t))) rest).
    split; [reflexivity|]. f_equal.
    + cbn [filter]. now rewrite E, Z.eqb_refl.
    + apply map_ext_in. intros k Hk. f_equal. cbn [filter].
      specialize (Hrest k Hk).
      assert ((key r =? k)%Z = false) as -> by (apply Z.eqb_neq; lia).
      reflexivity.
Qed.

(** On a column whose keys never decrease, the groups are the runs of
    equal key. *)
Lemma groupby_runs l :
  keys_ascend key l -> map snd (Pd.groupby key l) = runs_by key l.
Proof.
  induction l as [|r [|r' t] IH]; intros H.
  - reflexivity.
  - unfold Pd.groupby. cbn. now rewrite Z.eqb_refl.
  - destruct H as [Hle Hasc]. specialize (IH Hasc).
    rewrite runs_by_cons.
    destruct (key r =? key r')%Z eqn:E.
    + apply Z.eqb_eq in E.
      destruct (groupby_cons_same r r' t E (keys_ascend_all r' t Hasc))
        as (g & gs & E1 & E2).
      rewrite E2. rewrite E1 in IH. cbn [map snd] in *. now rewrite <- IH.
    + apply Z.eqb_neq in E. rewrite groupby_cons_new.
      * cbn [map snd]. rewrite IH.
        destruct (runs_by_head r' t) as (g & gs & ->). reflexivity.
      * intros x [<-|Hx]; [lia|].
        pose proof (keys_ascend_all r' t Hasc x Hx). lia.
Qed.

Lemma runs_by_agree (key2 : A -> Z) l :
  adjacent_agree key key2 l -> runs_by key l = runs_by key2 l.
Proof.
  induction l as [|r [|r' t] IH]; intros H; [reflexivity|reflexivity|].
  destruct H as [E H]. specialize (IH H).
  assert (K : forall k : A -> Z,
             runs_by k (r :: r' :: t) =
             match runs_by k (r' :: t) with
             | (x :: g0) :: gs0 =>
                 if (k r =? k x)%Z then (r :: x :: g0) :: gs0
                 else [r] :: (x :: g0) :: gs0
             | _ => [[r]]
             end) by reflexivity.
  rewrite (K key), (K key2), <- IH.
  destruct (runs_by_head r' t) as (g & gs & ->). now rewrite E.
Qed.

End SortedGroups.

(** ** The trade log when no flat bar follows a trade *)

Lemma chained_of_nth l (idf posf : nat -> Z) id0 p0 :
  (forall i r, nth_error l i = Some r ->
               tr_id r = idf i /\ tr_position r = posf i) ->
  idf O = (if trade_start_of (posf O) p0 then id0 + 1 else id0)%Z ->
  (forall j, idf (S j) =
             (if trade_start_of (posf (S j)) (posf j) then idf j + 1 else idf j)%Z) ->
  chained id0 p0 l.
Proof.
  revert idf posf id0 p0.
  induction l as [|r t IH]; intros idf posf id0 p0 Hnth H0 HS; [exact I|].
  destruct (Hnth O r eq_refl) as [Hid Hpos]. cbn [chained]. split.
  - now rewrite Hid, Hpos.
  - apply (IH (fun i => idf (S i)) (fun i => posf (S i))).
    + intros i x Hx. apply (Hnth (S i) x Hx).
    + rewrite Hid, Hpos. apply HS.
    + intros j. apply HS.
Qed.

Lemma trade_rows_chained df : chained 0 0 (trade_rows df).
Proof.
  apply (chained_of_nth (trade_rows df) (trade_id_at df) (position_at df)).
  - intros i x Hx.
    destruct (nth_error df i) as [r|] eqn:E.
    + rewrite (trade_rows_nth df i r E) in Hx. injection Hx as <-. now split.
    + apply nth_error_None in E. rewrite <- trade_rows_length in E.
      apply nth_error_None in E. congruence.
  - reflexivity.
  - intros j. reflexivity.
Qed.

Lemma trade_rows_position df : map tr_position (trade_rows df) = position df.
Proof.
  apply nth_error_ext. intros i. rewrite nth_error_map.
  destruct (nth_error df i) as [r|] eqn:E.
  - now rewrite (trade_rows_nth df i r E), (position_nth df i r E).
  - rewrite (position_nth_None df i E).
    apply nth_error_None in E. rewrite <- trade_rows_length in E.
    apply nth_error_None in E. now rewrite E.
Qed.

Lemma chained_step id p r :
  (tr_id r = (if trade_start_of (tr_position r) p then id + 1 else id)%Z) ->
  (id <= tr_id r)%Z.
Proof. destruct (trade_start_of _ _); lia. Qed.

Lemma chained_lower id p l x :
  chained id p l -> In x l -> (id <= tr_id x)%Z.
Proof.
  revert id p; induction l as [|r t IH]; intros id p H Hx; [destruct Hx|].
  destruct H as [Hr Ht]. pose proof (chained_step id p r Hr).
  destruct Hx as [<-|Hx]; [assumption|].
  specialize (IH _ _ Ht Hx). lia.
Qed.

Lemma chained_ascend id p l : chained id p l -> keys_ascend tr_id l.
Proof.
  revert id p; induction l as [|r [|r' t] IH]; intros id p H; cbn; auto.
  destruct H as [_ H]. split; [|now apply (IH _ _ H)].
  destruct H as [H _]. now apply chained_step in H.
Qed.

Lemma chained_agree id p l :
  chained id p l ->
  Forall (fun r => tr_position r <> 0%Z) l ->
  adjacent_agree tr_id tr_position l.
Proof.
  revert id p; induction l as [|r [|r' t] IH]; intros id p H Hnz; cbn; auto.
  destruct H as [_ H]. inversion Hnz as [|? ? _ Hnz']; subst.
  split; [|now apply (IH _ _ H)].
  destruct H as [H _]. inversion Hnz' as [|? ? Hr' _]; subst.
  unfold trade_start_of in H.
  assert ((tr_position r' =? 0)%Z = false) as E0 by now apply Z.eqb_neq.
  rewrite E0, andb_true_r in H.
  rewrite (Z.eqb_sym (tr_position r) (tr_position r')).
  destruct (tr_position r' =? tr_position r)%Z; cbn [negb] in H.
  - apply Z.eqb_eq. congruence.
  - apply Z.eqb_neq. lia.
Qed.

Lemma filter_all {A} (p : A -> bool) l :
  (forall x, In x l -> p x = true) -> filter p l = l.
Proof.
  induction l as [|a l IH]; intros H; [reflexivity|]. cbn.
  rewrite (H a) by (now left). f_equal. apply IH.
  intros x Hx. apply H. now right.
Qed.

Lemma flat_map_snd {A B C} (f : B -> list C) (l : list (A * B)) :
  flat_map (fun kg => f (snd kg)) l = flat_map f (map snd l).
Proof.
  induction l as [|a l IH]; [reflexivity|]. cbn. now rewrite IH.
Qed.

(** Once every bar holds a position, the groups of the log are the runs
    of equal position. *)
Lemma in_market_log id l :
  chained id 0 l -> (0 <= id)%Z ->
  Forall (fun r => tr_position r <> 0%Z) l ->
  log_of l = spec_log_of l.
Proof.
  intros Hch Hid Hnz. unfold log_of, spec_log_of, runs.
  destruct l as [|r t]; [reflexivity|].
  assert (Hpos : forall x, In x (r :: t) -> (0 <? tr_id x)%Z = true).
  { destruct Hch as [Hr Ht]. inversion Hnz as [|? ? Hr0 _]; subst.
    unfold trade_start_of in Hr.
    assert ((tr_position r =? 0)%Z = false) as E0 by now apply Z.eqb_neq.
    rewrite E0 in Hr. cbn in Hr.
    intros x [<-|Hx]; apply Z.ltb_lt; [lia|].
    pose proof (chained_lower _ _ t x Ht Hx). lia. }
  rewrite (filter_all _ _ Hpos), flat_map_snd.
  rewrite (groupby_runs tr_id _ (chained_ascend _ _ _ Hch)).
  rewrite (runs_by_agree tr_id tr_position _ (chained_agree _ _ _ Hch Hnz)).
  f_equal. symmetry. apply filter_all. intros g Hg.
  apply runs_by_In in Hg as (x & g' & -> & Hx). cbn [non_flat].
  rewrite Forall_forall in Hnz. specialize (Hnz x Hx).
  apply negb_true_iff. now apply Z.eqb_neq.
Qed.

Lemma stays_nonzero p ps :
  p <> 0%Z -> stays_in_market p ps = true -> Forall (fun q => q <> 0%Z) ps.
Proof.
  revert p; induction ps as [|q ps IH]; intros p Hp H; [constructor|].
  cbn in H. apply Z.eqb_neq in Hp. rewrite Hp in H.
  apply andb_true_iff in H as [Hq H].
  apply negb_true_iff, Z.eqb_neq in Hq.
  constructor; [exact Hq|now apply (IH q)].
Qed.

Lemma spec_log_skip_flat r t :
  tr_position r = 0%Z -> spec_log_of (r :: t) = spec_log_of t.
Proof.
  intros Hr. unfold spec_log_of, runs. destruct t as [|r' t].
  - cbn. now rewrite Hr.
  - rewrite runs_by_cons.
    destruct (runs_by_head tr_position r' t) as (g & gs & ->).
    rewrite Hr. destruct (0 =? tr_position r')%Z eqn:E; cbn [filter non_flat].
    + apply Z.eqb_eq in E. now rewrite Hr, <- E.
    + now rewrite Hr.
Qed.

Lemma log_refines_spec l :
  chained 0 0 l ->
  stays_in_market 0 (map tr_position l) = true ->
  log_of l = spec_log_of l.
Proof.
  induction l as [|r t IH]; intros Hch Hst; [reflexivity|].
  destruct (Z.eq_dec (tr_position r) 0) as [E|E].
  - rewrite (spec_log_skip_flat r t E).
    destruct Hch as [Hr Ht]. rewrite E in Hr, Ht. cbn in Hr.
    rewrite Hr in Ht. cbn in Hst. rewrite E in Hst.
    rewrite <- (IH Ht Hst). unfold log_of. cbn [filter]. now rewrite Hr.
  - apply (in_market_log 0); [exact Hch|lia|].
    cbn in Hst. constructor; [exact E|].
    apply stays_nonzero in Hst; [|exact E].
    rewrite Forall_forall in *. intros x Hx. apply Hst. now apply in_map.
Qed.

(** The log of the code is the log of the specification on every frame
    in which no flat bar follows a bar that holds a position. *)
Theorem trade_log_refines_spec (df : list Row) :
  stays_in_market 0 (position df) = true ->
  trade_log df = spec_trade_log df.
Proof.
  intros H. apply (log_refines_spec (trade_rows df)).
  - apply trade_rows_chained.
  - now rewrite trade_rows_position.
Qed.

(** On [frame_loss] a short trade follows a long one with no flat bar in
    between. *)
Lemma trade_log_refines_spec_witness :
  trade_log frame_loss = spec_trade_log frame_loss.
Proof.
  apply trade_log_refines_spec. vm_compute. reflexivity.
Defined.

(** C1 fails on the code: on [frame_flat_exit] the only run of a
    non-zero position is the bar of 4 January, which closes at 13; the
    log of the code has its one trade exit on the flat bar of 5 January
    at 10, where the log of the specification has it exit on 4 January
    at 13. *)
Theorem trade_log_exit_on_flat_bar :
  position frame_flat_exit = [0; 0; 0; 1; 0]%Z /\
  trade_log frame_flat_exit = [mkTrade (jan 4) 13 (jan 5) 10 1 (98800 # 12)] /\
  spec_trade_log frame_flat_exit
    = [mkTrade (jan 4) 13 (jan 4) 13 1 (98800 # 12)] /\
  trade_log frame_flat_exit <> spec_trade_log frame_flat_exit.
Proof.
  split; [vm_compute; reflexivity|].
  split; [vm_compute; reflexivity|].
  split; [vm_compute; reflexivity|].
  vm_compute. intros H. discriminate H.
Qed.


(** * Further properties of the simulation *)

Lemma signal_of_side r : is_side (signal_of r).
Proof.
  unfold signal_of, is_side.
  destruct (Qltb (sar r) (close r)); [auto|].
  destruct (Qltb (close r) (sar r)); auto.
Qed.

Lemma position_at_side df i : is_side (position_at df i).
Proof.
  destruct i as [|j]; cbn; [unfold is_side; auto|].
  destruct (nth_error df j); [apply signal_of_side|unfold is_side; auto].
Qed.

Lemma In_position df p :
  In p (position df) -> exists i r, nth_error df i = Some r /\ p = position_at df i.
Proof.
  intros H. apply In_nth_error in H as [i Hi].
  destruct (nth_error df i) as [r|] eqn:E.
  - rewrite (position_nth df i r E) in Hi. injection Hi as <-. eauto.
  - rewrite (position_nth_None df i E) in Hi. discriminate.
Qed.

(** X1: Lines 47 and 52: every signal and every position is -1, 0 or 1. *)
Theorem signal_position_range (df : list Row) :
  Forall is_side (signal df) /\ Forall is_side (position df).
Proof.
  split; apply Forall_forall.
  - intros s Hs. apply in_map_iff in Hs as [r [<- _]]. apply signal_of_side.
  - intros p Hp. apply In_position in Hp as (i & r & _ & ->).
    apply position_at_side.
Qed.

Lemma In_net_pnl df c :
  In c (net_pnl df) -> exists i r, nth_error df i = Some r /\ c = net_pnl_at df i r.
Proof.
  intros H. apply In_nth_error in H as [i Hi].
  destruct (nth_error df i) as [r|] eqn:E.
  - rewrite (net_pnl_nth df i r E) in Hi. injection Hi as <-. eauto.
  - apply nth_error_None in E. rewrite <- net_pnl_length in E.
    apply nth_error_None in E. congruence.
Qed.

(** X2: Lines 54-64: on a frame whose closes are not zero, so that no
    quotient of closes is NaN, no cell of [net_pnl] or of [equity] is
    NaN: the NaN that [close.shift(1)] puts on bar 0 is never selected,
    bar 0 being flat. *)
Theorem net_pnl_equity_never_nan (df : list Row) :
  (forall r : Row, In r df -> ~ close r == 0) ->
  Forall (fun c => c <> None) (net_pnl df) /\
  Forall (fun c => c <> None) (equity df).
Proof.
  intros Hnz. pose proof (closes_nonzero_valid df Hnz) as Hv.
  split; apply Forall_forall.
  - intros c Hc. apply In_net_pnl in Hc as (i & r & Hr & ->).
    destruct (Hv i r Hr) as [q ->]. discriminate.
  - intros c Hc. apply In_nth_error in Hc as [i Hi].
    destruct (nth_error df i) as [r|] eqn:E.
    + destruct (equity_nth df i r Hv E) as [e [He _]]. rewrite He in Hi.
      injection Hi as <-. discriminate.
    + apply nth_error_None in E. rewrite <- equity_length in E.
      apply nth_error_None in E. congruence.
Qed.

(** No close of [frame_loss] is zero. *)
Lemma net_pnl_equity_never_nan_witness :
  Forall (fun c => c <> None) (net_pnl frame_loss) /\
  Forall (fun c => c <> None) (equity frame_loss).
Proof.
  apply net_pnl_equity_never_nan. intros r Hr.
  repeat (destruct Hr as [<-|Hr]; [intros K; vm_compute in K; discriminate K|]).
  destruct Hr.
Defined.

Lemma firstn_snoc {A} (l : list A) k x :
  nth_error l k = Some x -> firstn (S k) l = firstn k l ++ [x].
Proof.
  revert k; induction l as [|a l IH]; intros [|k] H; cbn in H; try discriminate.
  - now injection H as ->.
  - rewrite firstn_cons, (IH k H), firstn_cons. reflexivity.
Qed.

Lemma valid_app a b : Pd.valid (a ++ b) = Pd.valid a ++ Pd.valid b.
Proof.
  induction a as [|[x|] a IH]; cbn; [reflexivity| |exact IH]. now rewrite IH.
Qed.

Lemma sum_app a b : Pd.sum (a ++ b) == Pd.sum a + Pd.sum b.
Proof. unfold Pd.sum. rewrite valid_app. apply Qsum_app. Qed.

Lemma sum_single n : Pd.sum [Some n] == n.
Proof. unfold Pd.sum. cbn [Pd.valid Pd.Qsum fold_right]. ring. Qed.

(** X3: Line 64: with no zero close, from a bar to the next the equity
    moves by the net P&L of the next bar, and not at all when the next bar
    is flat. *)
Theorem equity_step (df : list Row) (i : nat) (r : Row) :
  closes_nonzero df ->
  nth_error df (S i) = Some r ->
  exists e e' n,
    nth_error (equity df) i = Some (Some e) /\
    nth_error (equity df) (S i) = Some (Some e') /\
    nth_error (net_pnl df) (S i) = Some (Some n) /\
    e' == e + n /\
    (nth_error (position df) (S i) = Some 0%Z -> e' == e).
Proof.
  intros Hnz H. pose proof (closes_nonzero_valid df Hnz) as Hv.
  destruct (nth_error_prefix df (S i) r i H) as [r0 H0]; [lia|].
  destruct (equity_nth df i r0 Hv H0) as [e [He Hes]].
  destruct (equity_nth df (S i) r Hv H) as [e' [He' Hes']].
  destruct (Hv (S i) r H) as [n Hn].
  pose proof (net_pnl_nth df (S i) r H) as Hnth. rewrite Hn in Hnth.
  exists e, e', n. repeat split; try assumption.
  - rewrite Hes', Hes, (firstn_snoc _ _ _ Hnth), sum_app, sum_single. ring.
  - intros Hp. rewrite (position_nth df (S i) r H) in Hp. injection Hp as Hp.
    rewrite (net_pnl_at_flat df (S i) r Hp) in Hn. injection Hn as <-.
    rewrite Hes', Hes, (firstn_snoc _ _ _ Hnth), sum_app, sum_single. ring.
Qed.

(** On [frame_loss] the short bar of 5 January takes the equity from
    33233.33 to -33533.33. *)
Lemma equity_step_witness :
  exists e e' n,
    nth_error (equity frame_loss) 3 = Some (Some e) /\
    nth_error (equity frame_loss) 4 = Some (Some e') /\
    nth_error (net_pnl frame_loss) 4 = Some (Some n) /\
    e' == e + n.
Proof.
  destruct (equity_step frame_loss 3 _ ltac:(closes_nonzero_by_cases) eq_refl)
    as (e & e' & n & H1 & H2 & H3 & H4 & _).
  exists e, e', n. auto.
Defined.


Lemma trade_cost_of_le p prev : 0 <= trade_cost_of p prev <= transaction_cost.
Proof.
  unfold trade_cost_of, transaction_cost.
  destruct (differs p prev && negb (p =? 0)%Z); split; lra.
Qed.

Lemma Qdiv_pos a b : 0 < a -> 0 < b -> 0 < a / b.
Proof.
  intros Ha Hb. apply Qlt_shift_div_l; [exact Hb|]. lra.
Qed.

Lemma trade_return_above_minus_one (df : list Row) i (r : Row) :
  (forall x : Row, In x df -> 0 < close x) ->
  nth_error df i = Some r ->
  exists t, trade_return_of (position_at df i) (close r) (prev_close_at df i) = Some t
            /\ -1 < t.
Proof.
  intros Hpos H. assert (Hr : 0 < close r) by (eapply Hpos, nth_error_In; eauto).
  destruct i as [|j]; cbn [position_at prev_close_at].
  - exists 0. split; [reflexivity|lra].
  - destruct (nth_error_prefix df (S j) r j H) as [y Hy]; [lia|].
    rewrite Hy. cbn [option_map].
    assert (Hc : 0 < close y) by (eapply Hpos, nth_error_In; eauto).
    unfold trade_return_of.
    rewrite (ndiv_nonzero (close r) (close y))
      by (intros K; rewrite K in Hc; now apply Qlt_irrefl in Hc).
    rewrite (ndiv_nonzero (close y) (close r))
      by (intros K; rewrite K in Hr; now apply Qlt_irrefl in Hr).
    cbn [nsub lift2].
    destruct (signal_of y =? 1)%Z.
    + eexists. split; [reflexivity|].
      pose proof (Qdiv_pos (close r) (close y) Hr Hc). lra.
    + destruct (signal_of y =? -1)%Z.
      * eexists. split; [reflexivity|].
        pose proof (Qdiv_pos (close y) (close r) Hc Hr). lra.
      * exists 0. split; [reflexivity|lra].
Qed.

(** X4: Lines 54-63: when every close is positive, no single bar loses as
    much as the whole capital plus the fee. *)
Theorem bar_loss_bound (df : list Row) :
  (forall r : Row, In r df -> 0 < close r) ->
  forall c, In c (net_pnl df) ->
            exists n, c = Some n /\ - (initial_capital + transaction_cost) < n.
Proof.
  intros Hpos c Hc. apply In_net_pnl in Hc as (i & r & Hr & ->).
  destruct (trade_return_above_minus_one df i r Hpos Hr) as [t [Ht Hlt]].
  unfold net_pnl_at. rewrite Ht. cbn [nmul nsub lift2].
  eexists. split; [reflexivity|].
  pose proof (trade_cost_of_le (position_at df i) (prev_position_at df i)) as [_ Hle].
  unfold initial_capital, transaction_cost in *. lra.
Qed.

(** On [frame_loss] every close is positive: the long bar of 4 January
    loses 66766.67, less than 100100. *)
Lemma bar_loss_bound_witness :
  exists n,
    nth_error (net_pnl frame_loss) 3 = Some (Some n) /\
    - (initial_capital + transaction_cost) < n.
Proof.
  assert (Hpos : forall r : Row, In r frame_loss -> 0 < close r).
  { intros r Hr.
    repeat (destruct Hr as [<-|Hr]; [reflexivity|]). destruct Hr. }
  destruct (nth_error (net_pnl frame_loss) 3) as [c|] eqn:E;
    [|vm_compute in E; discriminate E].
  destruct (bar_loss_bound frame_loss Hpos c (nth_error_In _ _ E))
    as [n [-> Hn]].
  exists n. split; [reflexivity|exact Hn].
Defined.

(** X5: Line 72: a Sharpe ratio that is a number has the sign of the mean
    daily return. *)
Theorem sharpe_sign (sqrt : Q -> Q) (rets : list Q) (s m : Q) :
  (forall x, 0 < x -> 0 < sqrt x) ->
  sharpe_of sqrt rets = Some s ->
  Pd.mean rets = Some m ->
  (0 < s <-> 0 < m) /\ (s < 0 <-> m < 0) /\ (s == 0 <-> m == 0).
Proof.
  intros Hpos Hs Hm. unfold sharpe_of in Hs. rewrite Hm in Hs.
  destruct (std sqrt rets) as [sd|]; cbn [positive] in Hs; [|discriminate].
  destruct (Qltb 0 sd) eqn:E; [|discriminate]. apply Qltb_lt in E.
  rewrite (ndiv_nonzero m sd) in Hs
    by (intros K; rewrite K in E; now apply Qlt_irrefl in E).
  cbn [nmul lift2] in Hs. injection Hs as <-.
  assert (Hc : 0 < sqrt 252) by (apply Hpos; reflexivity).
  assert (Hk : 0 < / sd * sqrt 252)
    by (apply Qmult_lt_0_compat; [now apply Qinv_lt_0_compat|exact Hc]).
  assert (Es : m / sd * sqrt 252 == m * (/ sd * sqrt 252))
    by (unfold Qdiv; ring).
  rewrite Es. set (k := / sd * sqrt 252) in *. clearbody k.
  repeat split; intros H; nra.
Qed.

(** With [sqrt_approx] for the square root, on the returns 1, 2 and 6
    percent. *)
Lemma sharpe_sign_witness :
  exists s m,
    sharpe_of sqrt_approx [1 # 100; 2 # 100; 6 # 100] = Some s /\
    Pd.mean [1 # 100; 2 # 100; 6 # 100] = Some m /\
    (0 < s <-> 0 < m).
Proof.
  eexists. eexists.
  split; [vm_compute; reflexivity|]. split; [vm_compute; reflexivity|].
  apply (sharpe_sign sqrt_approx [1 # 100; 2 # 100; 6 # 100] _ _ sqrt_approx_pos);
    vm_compute; reflexivity.
Defined.


(** * Further properties of the trade log *)

Lemma last_cons {A} (a : A) l d : List.last (a :: l) d = List.last l a.
Proof.
  revert a d; induction l as [|b l IH]; intros a d; [reflexivity|].
  change (List.last (a :: b :: l) d) with (List.last (b :: l) d).
  rewrite (IH b d). symmetry. apply (IH b a).
Qed.

Lemma start_nonzero p prev : trade_start_of p prev = true -> p <> 0%Z.
Proof.
  unfold trade_start_of. intros H. apply andb_true_iff in H as [_ H].
  apply negb_true_iff in H. now apply Z.eqb_neq.
Qed.

Lemma concat_runs_by {A} (key : A -> Z) l : concat (runs_by key l) = l.
Proof.
  induction l as [|r [|r' t] IH]; [reflexivity|reflexivity|].
  rewrite runs_by_cons.
  destruct (runs_by_head key r' t) as (g & gs & E). rewrite E in *.
  destruct (key r =? key r')%Z; cbn [concat app] in *; now rewrite IH.
Qed.

Lemma runs_by_incl {A} (key : A -> Z) l g y :
  In g (runs_by key l) -> In y g -> In y l.
Proof.
  intros Hg Hy. rewrite <- (concat_runs_by key l).
  apply in_concat. eauto.
Qed.

(** The runs of equal trade number of a numbered column: every run but
    the first opens on a bar that holds a position, and the numbers go up
    by one from run to run. *)
Lemma runs_chained id p r t :
  chained id p (r :: t) ->
  exists g0 gs,
    runs_by tr_id (r :: t) = (r :: g0) :: gs /\
    Forall (fun g => exists x g', g = x :: g' /\ tr_position x <> 0%Z) gs /\
    (tr_id r + Z.of_nat (length gs))%Z = tr_id (List.last t r).
Proof.
  revert id p r; induction t as [|r' t IH]; intros id p r [Hr Ht].
  - exists [], []. split; [reflexivity|]. split; [constructor|]. cbn. lia.
  - destruct (IH _ _ r' Ht) as (g0 & gs & E & Hgs & Hlen).
    rewrite runs_by_cons, E, last_cons.
    destruct Ht as [Hr' _].
    destruct (tr_id r =? tr_id r')%Z eqn:Eid.
    + apply Z.eqb_eq in Eid. exists (r' :: g0), gs.
      split; [reflexivity|]. split; [exact Hgs|]. lia.
    + apply Z.eqb_neq in Eid. exists [], ((r' :: g0) :: gs).
      destruct (trade_start_of (tr_position r') (tr_position r)) eqn:Es;
        [|congruence].
      split; [reflexivity|]. split.
      * constructor; [|exact Hgs]. exists r', g0.
        split; [reflexivity|]. now apply start_nonzero in Es.
      * cbn [length]. lia.
Qed.

(** The rows the log reads: the column without its leading rows of trade
    number 0, cut into the runs of equal trade number. *)
Lemma log_shape l p :
  chained 0 p l ->
  exists pre l',
    l = pre ++ l' /\
    Forall (fun x => tr_id x = 0%Z) pre /\
    log_of l = flat_map agg_trade (runs_by tr_id l') /\
    (l' = [] \/
     exists r t p', l' = r :: t /\ tr_id r = 1%Z /\ tr_position r <> 0%Z /\
                    chained 0 p' l').
Proof.
  revert p; induction l as [|r t IH]; intros p H.
  - exists [], []. repeat split; auto.
  - destruct H as [Hr Ht].
    destruct (trade_start_of (tr_position r) p) eqn:Es.
    + exists [], (r :: t). split; [reflexivity|]. split; [constructor|].
      assert (Hch : chained 0 p (r :: t)) by (split; [now rewrite Es|exact Ht]).

      split.
      * unfold log_of. rewrite filter_all, flat_map_snd.
        -- now rewrite (groupby_runs tr_id _ (chained_ascend _ _ _ Hch)).
        -- intros x [<-|Hx]; apply Z.ltb_lt; [lia|].
           pose proof (chained_lower _ _ t x Ht Hx). lia.
      * right. exists r, t, p. split; [reflexivity|]. split; [lia|].
        split; [now apply start_nonzero in Es|exact Hch].
    + rewrite Hr in Ht. destruct (IH _ Ht) as (pre & l' & -> & Hpre & Hlog & Hl').
      exists (r :: pre), l'. split; [reflexivity|].
      split; [constructor; assumption|]. split; [|exact Hl'].
      rewrite <- Hlog. unfold log_of. cbn [filter]. now rewrite Hr.
Qed.

Lemma agg_trade_cons x g :
  agg_trade (x :: g) =
  [mkTrade (tr_time x) (tr_close x)
           (tr_time (List.last (x :: g) x)) (tr_close (List.last (x :: g) x))
           (tr_position x) (Pd.sum (map tr_net_pnl (x :: g)))].
Proof. reflexivity. Qed.

Lemma flat_map_agg_length gs :
  Forall (fun g : list TradeRow => g <> []) gs ->
  length (flat_map agg_trade gs) = length gs.
Proof.
  induction 1 as [|g gs Hg _ IH]; [reflexivity|].
  cbn [flat_map]. rewrite length_app, IH.
  destruct g; [contradiction|reflexivity].
Qed.

Lemma runs_by_nonempty {A} (key : A -> Z) l :
  Forall (fun g => g <> []) (runs_by key l).
Proof.
  apply Forall_forall. intros g Hg.
  apply runs_by_In in Hg as (x & g' & -> & _). discriminate.
Qed.

Lemma last_app_nonempty {A} (a b : list A) d :
  b <> [] -> List.last (a ++ b) d = List.last b d.
Proof.
  intros Hb. induction a as [|x a IH]; [reflexivity|].
  cbn [app]. destruct (a ++ b) eqn:E.
  - destruct a; [cbn in E; contradiction|discriminate].
  - rewrite <- E in *. rewrite <- IH.
    destruct (a ++ b) eqn:E2; [congruence|reflexivity].
Qed.

Lemma last_all_zero (l : list TradeRow) :
  Forall (fun x => tr_id x = 0%Z) l -> List.last (map tr_id l) 0%Z = 0%Z.
Proof.
  induction 1 as [|x l Hx _ IH]; [reflexivity|].
  cbn [map]. rewrite last_cons.
  destruct l as [|y l]; [exact Hx|].
  cbn [map] in *. now rewrite last_cons in IH |- *.
Qed.

Lemma log_length l p :
  chained 0 p l ->
  Z.of_nat (length (log_of l)) = List.last (map tr_id l) 0%Z.
Proof.
  intros H. destruct (log_shape l p H) as (pre & l' & -> & Hpre & Hlog & Hl').
  rewrite Hlog, flat_map_agg_length by apply runs_by_nonempty.
  destruct Hl' as [->|(r & t & p' & -> & Hid & _ & Hch)].
  - rewrite app_nil_r. cbn. symmetry. now apply last_all_zero.
  - destruct (runs_chained _ _ r t Hch) as (g0 & gs & E & _ & Hlen).
    rewrite E, map_app, last_app_nonempty by discriminate.
    cbn [length map]. rewrite last_cons, last_map.
    rewrite <- Hlen. lia.
Qed.

Lemma cumcount_from_length acc l : length (Pd.cumcount_from acc l) = length l.
Proof. revert acc; induction l; intros; cbn; auto. Qed.

Lemma trade_start_length df : length (trade_start df) = length df.
Proof.
  unfold trade_start, prev_position, Pd.fillna, Pd.shift.
  rewrite zip_with_length, length_map, shift_from_length, position_length.
  lia.
Qed.

Lemma trade_id_length df : length (trade_id df) = length df.
Proof.
  unfold trade_id, Pd.cumcount.
  now rewrite cumcount_from_length, trade_start_length.
Qed.

Lemma trade_rows_id df : map tr_id (trade_rows df) = trade_id df.
Proof.
  apply nth_error_ext. intros i. rewrite nth_error_map.
  destruct (nth_error df i) as [r|] eqn:E.
  - now rewrite (trade_rows_nth df i r E), (trade_id_nth df i r E).
  - assert (Hn : nth_error (trade_rows df) i = None)
      by (apply nth_error_None; rewrite trade_rows_length;
          now apply nth_error_None).
    rewrite Hn. symmetry. apply nth_error_None.
    rewrite trade_id_length. now apply nth_error_None.
Qed.

(** The number of trues of a boolean column. *)
Lemma cumcount_from_last acc l :
  List.last (Pd.cumcount_from acc l) acc
  = (acc + Z.of_nat (length (filter (fun b : bool => b) l)))%Z.
Proof.
  revert acc; induction l as [|b l IH]; intros acc; [cbn; lia|].
  cbn [Pd.cumcount_from]. rewrite last_cons, IH.
  destruct b; cbn [filter length]; lia.
Qed.

Lemma trade_log_count df :
  length (trade_log df) = length (filter (fun b : bool => b) (trade_start df)) /\
  Z.of_nat (length (trade_log df)) = List.last (trade_id df) 0%Z.
Proof.
  assert (H : Z.of_nat (length (trade_log df)) = List.last (trade_id df) 0%Z).
  { rewrite <- trade_rows_id.
    apply (log_length (trade_rows df) 0), trade_rows_chained. }
  split; [|exact H].
  unfold trade_id, Pd.cumcount in H. rewrite cumcount_from_last in H. lia.
Qed.

(** X6: Lines 96-106: the log has one trade for every bar at which a trade
    starts, and as many trades as the last trade number says. *)
Theorem one_trade_per_start (df : list Row) :
  length (trade_log df) = length (filter (fun b : bool => b) (trade_start df)) /\
  Z.of_nat (length (trade_log df)) = List.last (trade_id df) 0%Z.
Proof. exact (trade_log_count df). Qed.

Lemma In_log l p t :
  chained 0 p l -> In t (log_of l) ->
  exists x g,
    In x l /\ In (List.last (x :: g) x) l /\ tr_position x <> 0%Z /\
    t = mkTrade (tr_time x) (tr_close x)
                (tr_time (List.last (x :: g) x)) (tr_close (List.last (x :: g) x))
                (tr_position x) (Pd.sum (map tr_net_pnl (x :: g))).
Proof.
  intros H Ht. destruct (log_shape l p H) as (pre & l' & -> & _ & Hlog & Hl').
  rewrite Hlog in Ht. apply in_flat_map in Ht as [g [Hg Ht]].
  destruct Hl' as [->|(r & t0 & p' & -> & _ & Hpos & Hch)]; [destruct Hg|].
  assert (Hsub : forall y, In y g -> In y (pre ++ r :: t0))
    by (intros y Hy; apply in_or_app; right;
        apply (runs_by_incl tr_id _ g y Hg Hy)).
  destruct (runs_chained _ _ r t0 Hch) as (g0 & gs & E & Hgs & _).
  rewrite E in Hg.
  assert (Hhead : exists x g', g = x :: g' /\ tr_position x <> 0%Z).
  { destruct Hg as [<-|Hg]; [now exists r, g0|].
    rewrite Forall_forall in Hgs. now apply Hgs. }
  destruct Hhead as (x & g' & -> & Hx).
  rewrite agg_trade_cons in Ht. destruct Ht as [<-|[]].
  exists x, g'. split; [apply Hsub; now left|]. split; [|split; [exact Hx|reflexivity]].
  apply Hsub. destruct (exists_last (l := x :: g')) as (a & b & E'); [discriminate|].
  rewrite E', last_app_nonempty by discriminate. cbn [List.last].
  apply in_or_app. right. now left.
Qed.

(** X7: Lines 96-106: every trade of the log is long or short, never flat;
    it enters on a bar of the frame whose position is its direction, at
    the time and close of that bar, and exits at the time and close of a
    bar of the frame. *)
Theorem trade_sides (df : list Row) (t : Trade) :
  In t (trade_log df) ->
  (direction t = 1 \/ direction t = -1)%Z /\
  (exists i r, nth_error df i = Some r /\
               nth_error (position df) i = Some (direction t) /\
               entry_time t = datetime r /\ entry_price t = close r) /\
  (exists j r, nth_error df j = Some r /\
               exit_time t = datetime r /\ exit_price t = close r).
Proof.
  intros H.
  destruct (In_log (trade_rows df) 0 t (trade_rows_chained df) H)
    as (x & g & Hx & Hl & Hpos & ->).
  apply In_trade_rows in Hx as (i & r & Hr & ->).
  apply In_trade_rows in Hl as (j & r' & Hr' & Hlast).
  cbn [direction entry_time entry_price exit_time exit_price tr_position
       tr_time tr_close] in *.
  split; [|split].
  - destruct (position_at_side df i) as [E|[E|E]]; [now right|contradiction|now left].
  - exists i, r. split; [exact Hr|]. split; [apply (position_nth df i r Hr)|].
    split; reflexivity.
  - exists j, r'. split; [exact Hr'|]. rewrite Hlast. split; reflexivity.
Qed.

(** On [frame_loss] the second trade is the short of 5 January. *)
Lemma trade_sides_witness :
  exists t, In t (trade_log frame_loss) /\ direction t = (-1)%Z /\
            (exists i r, nth_error frame_loss i = Some r /\
                         nth_error (position frame_loss) i = Some (direction t) /\
                         entry_time t = datetime r /\ entry_price t = close r).
Proof.
  exists (mkTrade (jan 5) 12 (jan 5) 12 (-1) (-801200 # 12)).
  assert (H : In (mkTrade (jan 5) 12 (jan 5) 12 (-1) (-801200 # 12))
                 (trade_log frame_loss))
    by (vm_compute; right; left; reflexivity).
  split; [exact H|]. split; [reflexivity|].
  exact (proj1 (proj2 (trade_sides frame_loss _ H))).
Defined.


Lemma filter_true_nil (l : list bool) :
  length (filter (fun b : bool => b) l) = 0%nat <-> forall b, In b l -> b = false.
Proof.
  induction l as [|a l IH]; cbn; [split; [intros _ b []|reflexivity]|].
  destruct a; cbn.
  - split; [discriminate|]. intros H. specialize (H true (or_introl eq_refl)).
    discriminate.
  - rewrite IH. split.
    + intros H b [<-|Hb]; auto.
    + intros H b Hb. apply H. now right.
Qed.

Lemma In_firstn {A} (x : A) n l : In x (firstn n l) -> In x l.
Proof.
  revert l; induction n as [|n IH]; intros [|a l] H; try destruct H.
  - now left.
  - right. now apply IH.
Qed.

Lemma position_flat_at df :
  Forall (fun p => p = 0%Z) (position df) ->
  forall i r, nth_error df i = Some r -> position_at df i = 0%Z.
Proof.
  intros H i r Hr. rewrite Forall_forall in H. apply H.
  eapply nth_error_In. apply (position_nth df i r Hr).
Qed.

Lemma no_start_flat df :
  (forall b, In b (trade_start df) -> b = false) ->
  forall i r, nth_error df i = Some r -> position_at df i = 0%Z.
Proof.
  intros H. induction i as [|j IH]; intros r Hr; [reflexivity|].
  destruct (nth_error_prefix df (S j) r j Hr) as [y Hy]; [lia|].
  specialize (IH y Hy).
  assert (Hs : start_at df (S j) = false)
    by (apply H; eapply nth_error_In; apply (trade_start_nth df (S j) r Hr)).
  unfold start_at, trade_start_of in Hs. rewrite IH in Hs.
  destruct (position_at df (S j) =? 0)%Z eqn:E; [now apply Z.eqb_eq|].
  discriminate.
Qed.

Lemma log_empty_iff_flat df :
  trade_log df = [] <-> Forall (fun p => p = 0%Z) (position df).
Proof.
  destruct (trade_log_count df) as [Hlen _]. split.
  - intros E. rewrite E in Hlen. cbn [length] in Hlen. symmetry in Hlen.
    pose proof (proj1 (filter_true_nil _) Hlen) as Hall.
    apply Forall_forall. intros p Hp.
    apply In_position in Hp as (i & r & Hr & ->).
    apply (no_start_flat df Hall i r Hr).
  - intros Hflat.
    assert (length (filter (fun b : bool => b) (trade_start df)) = 0%nat) as E.
    { apply filter_true_nil. intros b Hb. apply In_nth_error in Hb as [i Hi].
      destruct (nth_error df i) as [r|] eqn:Er.
      - rewrite (trade_start_nth df i r Er) in Hi. injection Hi as <-.
        unfold start_at, trade_start_of.
        rewrite (position_flat_at df Hflat i r Er). cbn.
        apply andb_false_r.
      - apply nth_error_None in Er. rewrite <- trade_start_length in Er.
        apply nth_error_None in Er. congruence. }
    rewrite E in Hlen. now apply length_zero_iff_nil.
Qed.

(** The net P&L cells of a frame without positions. *)
Lemma flat_net_pnl_cells df :
  Forall (fun p => p = 0%Z) (position df) ->
  forall c, In c (net_pnl df) -> c = Some (0 * initial_capital - 0).
Proof.
  intros E c Hc. apply In_net_pnl in Hc as (k & rk & Hk & ->).
  apply net_pnl_at_flat, (position_flat_at df E k rk Hk).
Qed.

(** On a frame without positions no quotient is selected. *)
Lemma flat_valid df :
  Forall (fun p => p = 0%Z) (position df) -> net_pnl_valid df.
Proof.
  intros E i r Hr. eexists.
  apply net_pnl_at_flat, (position_flat_at df E i r Hr).
Qed.

Lemma flat_equity_cells df :
  Forall (fun p => p = 0%Z) (position df) ->
  Forall (fun c => exists e, c = Some e /\ e == initial_capital) (equity df).
Proof.
  intros E. apply Forall_forall. intros c Hc.
  apply In_nth_error in Hc as [i Hi].
  destruct (nth_error df i) as [r|] eqn:Er.
  - destruct (equity_nth df i r (flat_valid df E) Er) as [e [He Hs]].
    rewrite He in Hi.
    injection Hi as <-. exists e. split; [reflexivity|].
    rewrite Hs, sum_or_zero, Qsum_zero; [ring|].
    intros x Hx. apply In_firstn in Hx.
    rewrite (flat_net_pnl_cells df E x Hx). cbn [or_zero]. ring.
  - apply nth_error_None in Er. rewrite <- equity_length in Er.
    apply nth_error_None in Er. congruence.
Qed.

(** X8: Lines 64 and 95-106: the log is empty exactly when every bar is
    flat, and then the equity stays at the initial capital on every
    bar. *)
Theorem no_trade_iff_flat (df : list Row) :
  (trade_log df = [] <-> Forall (fun p => p = 0%Z) (position df)) /\
  (trade_log df = [] ->
   Forall (fun c => exists e, c = Some e /\ e == initial_capital) (equity df)).
Proof.
  split; [apply log_empty_iff_flat|].
  intros E. now apply flat_equity_cells, log_empty_iff_flat.
Qed.

(** On [frame_flat] no bar holds a position. *)
Lemma no_trade_iff_flat_witness :
  trade_log frame_flat = [] /\
  Forall (fun p => p = 0%Z) (position frame_flat) /\
  Forall (fun c => exists e, c = Some e /\ e == initial_capital)
         (equity frame_flat).
Proof.
  assert (H : trade_log frame_flat = []) by (vm_compute; reflexivity).
  destruct (no_trade_iff_flat frame_flat) as [H1 H2].
  split; [exact H|]. split; [apply H1, H|apply H2, H].
Defined.

Lemma keys_ascend_same {A B} (f : A -> Z) (g : B -> Z) l m :
  map f l = map g m -> keys_ascend f l -> keys_ascend g m.
Proof.
  revert m; induction l as [|a l IH]; intros [|b m] E H; try discriminate;
    [exact I|].
  injection E as E1 E2.
  destruct l as [|a' l]; destruct m as [|b' m]; try discriminate;
    [exact (conj I I)|].
  destruct H as [H1 H2]. split.
  - injection E2 as E2 _. lia.
  - apply IH; assumption.
Qed.

Lemma keys_ascend_suffix {A} (key : A -> Z) a b :
  keys_ascend key (a ++ b) -> keys_ascend key b.
Proof.
  induction a as [|x a IH]; [auto|]. intros [_ H]. now apply IH.
Qed.

Lemma trade_rows_time df :
  map tr_time (trade_rows df) = map (fun r : Row => datetime r) df.
Proof.
  apply nth_error_ext. intros i. rewrite !nth_error_map.
  destruct (nth_error df i) as [r|] eqn:E.
  - now rewrite (trade_rows_nth df i r E).
  - assert (Hn : nth_error (trade_rows df) i = None)
      by (apply nth_error_None; rewrite trade_rows_length;
          now apply nth_error_None).
    now rewrite Hn.
Qed.

(** The trades of the runs of a column in time order follow one another
    in time. *)
Lemma runs_chronological (key : TradeRow -> Z) l :
  keys_ascend tr_time l ->
  chronological (flat_map agg_trade (runs_by key l)).
Proof.
  induction l as [|r [|r' t] IH]; intros H.
  - exact I.
  - cbn. repeat split; lia.
  - destruct H as [Hle H]. specialize (IH H).
    rewrite runs_by_cons.
    destruct (runs_by_head key r' t) as (g & gs & E). rewrite E in *.
    cbn [flat_map] in IH. rewrite agg_trade_cons in IH.
    cbn [app chronological entry_time exit_time] in IH.
    rewrite last_cons in IH. destruct IH as (H1 & H2 & H3).
    destruct (key r =? key r')%Z; cbn [flat_map]; rewrite !agg_trade_cons;
      cbn [app chronological entry_time exit_time]; rewrite !last_cons.
    + split; [lia|]. split; assumption.
    + cbn [List.last]. split; [lia|]. split; [exact Hle|].
      split; [exact H1|]. split; assumption.
Qed.

Lemma log_chronological df : time_sorted df -> chronological (trade_log df).
Proof.
  intros H.
  assert (Hs : keys_ascend tr_time (trade_rows df))
    by (apply (keys_ascend_same (fun r : Row => datetime r) tr_time
                 df (trade_rows df));
        [symmetry; apply trade_rows_time|exact H]).
  destruct (log_shape (trade_rows df) 0 (trade_rows_chained df))
    as (pre & l' & E & _ & Hlog & _).
  unfold trade_log. fold (log_of (trade_rows df)). rewrite Hlog.
  apply runs_chronological. rewrite E in Hs.
  now apply keys_ascend_suffix in Hs.
Qed.

(** X9: Lines 99-106 after line 28: on a frame in time order the trades of
    the log are in time order; none exits before it enters and none
    enters before the trade before it has exited. *)
Theorem trade_log_chronological (df : list Row) :
  time_sorted df -> chronological (trade_log df).
Proof. exact (log_chronological df). Qed.

(** [frame_loss] is in time order: its long trade exits on 4 January and
    its short trade enters on 5 January. *)
Lemma trade_log_chronological_witness : chronological (trade_log frame_loss).
Proof.
  apply trade_log_chronological. unfold time_sorted, frame_loss.
  cbn [keys_ascend]. repeat split; vm_compute; discriminate.
Defined.


(** * The stretch of bars of every trade *)

Lemma no_start_iff q p :
  trade_start_of q p = false <-> (q = p \/ q = 0%Z).
Proof.
  unfold trade_start_of.
  destruct (q =? p)%Z eqn:E1; destruct (q =? 0)%Z eqn:E2; cbn;
    rewrite ?Z.eqb_eq, ?Z.eqb_neq in *; split; intros H;
    try reflexivity; try discriminate; tauto.
Qed.

(** The rows before the first trade are flat. *)
Lemma flat_before_first pre : forall id l,
  chained id 0 (pre ++ l) ->
  Forall (fun x => tr_id x = id) pre ->
  Forall (fun x => tr_position x = 0%Z) pre /\ chained id 0 l.
Proof.
  induction pre as [|r pre IH]; intros id l H Hid; [split; [constructor|exact H]|].
  destruct H as [Hr Ht]. inversion Hid as [|? ? Hr0 Hid']; subst.
  assert (Hs : trade_start_of (tr_position r) 0 = false)
    by (destruct (trade_start_of (tr_position r) 0); [lia|reflexivity]).
  assert (Hp : tr_position r = 0%Z)
    by (apply no_start_iff in Hs; tauto).
  rewrite Hp in Ht. destruct (IH _ _ Ht Hid') as [H1 H2].
  split; [constructor; assumption|exact H2].
Qed.

(** Inside a run of equal trade number no trade starts. *)
Lemma runs_held id p r t :
  chained id p (r :: t) ->
  Forall (fun g => match g with
                   | [] => False
                   | x :: g' => held (tr_position x) g'
                   end) (runs_by tr_id (r :: t)).
Proof.
  revert id p r; induction t as [|r' t IH]; intros id p r [Hr Ht].
  - repeat constructor.
  - pose proof (IH _ _ r' Ht) as Hall.
    rewrite runs_by_cons.
    destruct (runs_by_head tr_id r' t) as (g0 & gs & E). rewrite E in *.
    inversion Hall as [|? ? Hg Hgs]; subst.
    destruct Ht as [Hr' _].
    destruct (tr_id r =? tr_id r')%Z eqn:Eid.
    + apply Z.eqb_eq in Eid. constructor; [|exact Hgs].
      cbn [held]. split; [|exact Hg]. apply no_start_iff.
      destruct (trade_start_of (tr_position r') (tr_position r));
        [lia|reflexivity].
    + constructor; [exact I|]. constructor; assumption.
Qed.

Lemma trade_of_runs gs :
  Forall (fun g => match g with
                   | [] => False
                   | x :: g' => tr_position x <> 0%Z /\ held (tr_position x) g'
                   end) gs ->
  Forall2 trade_of gs (flat_map agg_trade gs).
Proof.
  induction 1 as [|g gs Hg _ IH]; [constructor|].
  destruct g as [|x g]; [contradiction|].
  cbn [flat_map]. rewrite agg_trade_cons. cbn [app].
  constructor; [|exact IH]. destruct Hg as [H1 H2].
  cbn [trade_of]. rewrite last_cons. auto.
Qed.

Lemma log_partition l :
  chained 0 0 l ->
  exists pre segs,
    l = pre ++ concat segs /\
    Forall (fun x => tr_position x = 0%Z) pre /\
    Forall2 trade_of segs (log_of l).
Proof.
  intros H. destruct (log_shape l 0 H) as (pre & l' & -> & Hpre & Hlog & Hl').
  destruct (flat_before_first pre 0 l' H Hpre) as [Hflat _].
  exists pre, (runs_by tr_id l').
  split; [now rewrite concat_runs_by|]. split; [exact Hflat|].
  rewrite Hlog. apply trade_of_runs.
  destruct Hl' as [->|(r & t & p' & -> & _ & Hpos & Hch)]; [constructor|].
  pose proof (runs_held _ _ r t Hch) as Hh.
  destruct (runs_chained _ _ r t Hch) as (g0 & gs & E & Hgs & _).
  rewrite E in *. inversion Hh as [|? ? Hh0 Hhs]; subst.
  constructor; [split; assumption|].
  clear - Hgs Hhs. induction Hgs as [|g gs Hg _ IH]; [constructor|].
  inversion Hhs as [|? ? Hh Hhs']; subst.
  constructor; [|now apply IH].
  destruct Hg as (x & g' & -> & Hx). split; assumption.
Qed.

(** X10: Lines 95-106: the log cuts the frame into stretches of consecutive
    bars.  The bars before the first entry are flat; from there on every
    bar belongs to exactly one trade, which enters on the first bar of its
    stretch and exits on the last; a stretch opens on a bar that holds a
    position, and every later bar of it keeps the position of the bar
    before or is flat.  The flat bars that follow a trade thus belong to
    it, up to the bar before the next entry or to the last bar of the
    frame. *)
Theorem trade_log_partitions_frame (df : list Row) :
  exists pre segs,
    trade_rows df = pre ++ concat segs /\
    Forall (fun x => tr_position x = 0%Z) pre /\
    Forall2 trade_of segs (trade_log df).
Proof. exact (log_partition (trade_rows df) (trade_rows_chained df)). Qed.


(** * Further properties of the calendar tables *)

Lemma running_start a b l : a == b -> running a l -> running b l.
Proof.
  intros E. destruct l as [|p t]; [auto|].
  intros (n & e & Hn & He & Hs & Ht). exists n, e.
  repeat split; try assumption. now rewrite <- E.
Qed.

Lemma running_zip net : forall ts acc,
  Forall (fun c : option Q => c <> None) net ->
  running (initial_capital + acc)
    (Pd.zip_with (fun (t : Z) (ne : option Q * option Q) => mkPoint t (fst ne) (snd ne))
       ts (combine net (map (fun s => nadd (Some initial_capital) s)
                            (Pd.cumsum_from acc net)))).
Proof.
  induction net as [|c net IH]; intros ts acc H; [destruct ts; exact I|].
  inversion H as [|? ? Hc Hnet]; subst.
  destruct c as [x|]; [|congruence].
  destruct ts as [|t ts]; [exact I|].
  cbn [Pd.cumsum_from map combine Pd.zip_with running fst snd p_net_pnl p_equity nadd lift2].
  exists x, (initial_capital + (acc + x)).
  split; [reflexivity|]. split; [reflexivity|]. split; [ring|].
  apply IH, Hnet.
Qed.

(** Line 64 seen from the rows: every equity is the equity of the bar
    before plus the net P&L of the bar. *)
Lemma points_running df :
  net_pnl_valid df -> running initial_capital (points df).
Proof.
  intros Hv.
  apply (running_start (initial_capital + 0)); [ring|].
  unfold points, equity, Pd.cumsum. apply running_zip.
  apply Forall_forall. intros c Hc.
  apply In_net_pnl in Hc as (i & r & Hr & ->).
  destruct (Hv i r Hr) as [q ->]. discriminate.
Qed.

Lemma points_net_pnl df : map p_net_pnl (points df) = net_pnl df.
Proof.
  apply nth_error_ext. intros i. rewrite nth_error_map.
  destruct (nth_error df i) as [r|] eqn:E.
  - destruct (points_nth_cells df i r E) as (n & e & -> & -> & _).
    reflexivity.
  - assert (Hn : nth_error (points df) i = None)
      by (apply nth_error_None; rewrite points_length; now apply nth_error_None).
    rewrite Hn. symmetry. apply nth_error_None. rewrite net_pnl_length.
    now apply nth_error_None.
Qed.

Section SortedBuckets.

Context {A : Type} (key : A -> Z).

Lemma filter_ge_split l k :
  keys_ascend key l ->
  filter (fun x => (k <=? key x)%Z) l =
  filter (fun x => (key x =? k)%Z) l ++ filter (fun x => (k + 1 <=? key x)%Z) l.
Proof.
  induction l as [|r t IH]; intros H; [reflexivity|].
  pose proof (keys_ascend_all key r t H) as Hall.
  assert (Ht : keys_ascend key t) by (destruct t; [exact I|apply H]).
  specialize (IH Ht). cbn [filter].
  destruct (Z.lt_trichotomy (key r) k) as [Hlt|[Heq|Hgt]].
  - assert ((k <=? key r)%Z = false) as -> by (apply Z.leb_gt; lia).
    assert ((key r =? k)%Z = false) as -> by (apply Z.eqb_neq; lia).
    assert ((k + 1 <=? key r)%Z = false) as -> by (apply Z.leb_gt; lia).
    exact IH.
  - assert ((k <=? key r)%Z = true) as -> by (apply Z.leb_le; lia).
    assert ((key r =? k)%Z = true) as -> by (apply Z.eqb_eq; lia).
    assert ((k + 1 <=? key r)%Z = false) as -> by (apply Z.leb_gt; lia).
    cbn [app]. now rewrite IH.
  - assert ((k <=? key r)%Z = true) as -> by (apply Z.leb_le; lia).
    assert ((key r =? k)%Z = false) as -> by (apply Z.eqb_neq; lia).
    assert ((k + 1 <=? key r)%Z = true) as -> by (apply Z.leb_le; lia).
    assert (Hnone : filter (fun x => (key x =? k)%Z) t = []).
    { apply filter_none. intros x Hx. apply Z.eqb_neq.
      specialize (Hall x Hx). lia. }
    rewrite Hnone in *. cbn [app] in *. now rewrite IH.
Qed.

Lemma keys_ascend_last l d x :
  keys_ascend key l -> In x l -> (key x <= key (List.last l d))%Z.
Proof.
  revert d x; induction l as [|r t IH]; intros d x H Hx; [destruct Hx|].
  rewrite last_cons.
  assert (Ht : keys_ascend key t) by (destruct t; [exact I|apply H]).
  destruct t as [|r' t]; [destruct Hx as [<-|[]]; cbn; lia|].
  destruct Hx as [<-|Hx].
  - destruct H as [Hle _]. specialize (IH r r' Ht (or_introl eq_refl)). lia.
  - apply (IH r x Ht Hx).
Qed.

End SortedBuckets.

Lemma keys_ascend_mono {A} (f : Z -> Z) (g : A -> Z) l :
  (forall a b, (a <= b)%Z -> (f a <= f b)%Z) ->
  keys_ascend g l -> keys_ascend (fun x => f (g x)) l.
Proof.
  intros Hf. induction l as [|r [|r' t] IH]; intros H; cbn; auto.
  destruct H as [H1 H2]. split; [now apply Hf|now apply IH].
Qed.

Lemma last_valid_cons e l :
  Pd.last (Some e :: l) = match Pd.last l with Some v => Some v | None => Some e end.
Proof.
  unfold Pd.last. cbn [Pd.valid rev].
  destruct (rev (Pd.valid l)); reflexivity.
Qed.

Lemma sum_cons_valid n l : Pd.sum (Some n :: l) = n + Pd.sum l.
Proof. reflexivity. Qed.

(** One bucket taken off the front of a column in step: the bucket is in
    step with the equity before it, and the rest of the column is in step
    with the bucket. *)
Lemma bucket_step k g : forall acc rest,
  running acc (g ++ rest) ->
  match b_equity (aggregate (k, g)) with
  | Some e => e == acc + b_net_pnl (aggregate (k, g)) /\ running e rest
  | None => b_net_pnl (aggregate (k, g)) == 0 /\ running acc rest
  end.
Proof.
  unfold aggregate. cbn [fst snd b_equity b_net_pnl].
  induction g as [|x g IH]; intros acc rest H.
  - cbn. split; [reflexivity|exact H].
  - destruct H as (n & e & Hn & He & Hs & Ht).
    specialize (IH e rest Ht).
    cbn [map]. rewrite Hn, He, last_valid_cons, sum_cons_valid.
    destruct (Pd.last (map p_equity g)) as [v|].
    + destruct IH as [Hv Hr]. split; [|exact Hr]. rewrite Hv, Hs. ring.
    + destruct IH as [Hz Hr]. split; [|exact Hr]. rewrite Hs, Hz. ring.
Qed.

Lemma bins_from_S k n :
  map (fun i => (k + Z.of_nat i)%Z) (seq 0 (S n)) =
  k :: map (fun i => (k + 1 + Z.of_nat i)%Z) (seq 0 n).
Proof.
  cbn [seq map]. f_equal; [cbn; lia|].
  rewrite <- seq_shift, map_map. apply map_ext. intros i. lia.
Qed.

(** The buckets of consecutive periods of a column in period order. *)
Lemma buckets_from (key : Point -> Z) P : forall n k acc,
  keys_ascend key P ->
  running acc (filter (fun p => (k <=? key p)%Z) P) ->
  let B := map (fun j => aggregate (j, filter (fun p => (key p =? j)%Z) P))
               (map (fun i => (k + Z.of_nat i)%Z) (seq 0 n)) in
  buckets_consistent acc B /\
  Pd.Qsum (map b_net_pnl B)
  + Pd.sum (map p_net_pnl (filter (fun p => (k + Z.of_nat n <=? key p)%Z) P))
  == Pd.sum (map p_net_pnl (filter (fun p => (k <=? key p)%Z) P)).
Proof.
  induction n as [|n IH]; intros k acc Hs Hr B; subst B.
  - cbn [seq map buckets_consistent Pd.Qsum fold_right Z.of_nat].
    rewrite Z.add_0_r. split; [exact I|ring].
  - rewrite bins_from_S. cbn [map].
    rewrite (filter_ge_split key P k Hs) in Hr.
    pose proof (bucket_step k _ acc _ Hr) as Hb.
    replace (k + Z.of_nat (S n))%Z with (k + 1 + Z.of_nat n)%Z by lia.
    rewrite (filter_ge_split key P k Hs), map_app, sum_app.
    cbn [buckets_consistent]. rewrite Qsum_cons.
    set (b := aggregate (k, filter (fun p => (key p =? k)%Z) P)) in *.
    change (Pd.sum (map p_net_pnl (filter (fun p => (key p =? k)%Z) P)))
      with (b_net_pnl b).
    destruct (b_equity b) as [e|]; destruct Hb as [Hb1 Hb2];
      destruct (IH (k + 1)%Z _ Hs Hb2) as [IH1 IH2];
      (split; [split; assumption|]); rewrite <- IH2; ring.
Qed.


Lemma In_points_time df p :
  In p (points df) -> exists r : Row, In r df /\ p_time p = datetime r.
Proof.
  intros H. apply (in_map p_time) in H. rewrite points_time in H.
  apply in_map_iff in H as [r [E Hr]]. eauto.
Qed.

(** Lines 69 and 114 on a frame in period order whose cells are numbers:
    the buckets are in step
    with the equity, from the initial capital on, and their net P&L adds
    up to the net P&L of all bars. *)
Lemma buckets_of_sorted per df :
  net_pnl_valid df ->
  keys_ascend (fun r : Row => per (datetime r)) df ->
  buckets_consistent initial_capital (buckets per df) /\
  Pd.Qsum (map b_net_pnl (buckets per df)) == Pd.sum (net_pnl df).
Proof.
  intros Hv Hs. destruct df as [|r0 t]; [split; [exact I|reflexivity]|].
  set (df := r0 :: t) in *.
  set (key := fun p : Point => per (p_time p)).
  set (lo := per (datetime r0)).
  set (hi := per (datetime (List.last df r0))).
  assert (Hkey : keys_ascend key (points df)).
  { apply (keys_ascend_same (fun r : Row => per (datetime r)) key df);
      [|exact Hs].
    unfold key. rewrite <- (map_map p_time per), points_time, map_map.
    reflexivity. }
  assert (Hlo : forall p, In p (points df) -> (lo <= key p)%Z).
  { intros p Hp. apply In_points_time in Hp as [r [[<-|Hr] E]];
      unfold key; rewrite E; [unfold lo; lia|].
    apply (keys_ascend_all (fun r : Row => per (datetime r)) r0 t Hs r Hr). }
  assert (Hhi : forall p, In p (points df) -> (key p <= hi)%Z).
  { intros p Hp. apply In_points_time in Hp as [r [Hr E]].
    unfold key. rewrite E.
    apply (keys_ascend_last (fun r : Row => per (datetime r)) df r0 r Hs Hr). }
  assert (Hle : (lo <= hi)%Z).
  { apply (keys_ascend_last (fun r : Row => per (datetime r)) df r0 r0 Hs).
    now left. }
  assert (Hall : filter (fun p => (lo <=? key p)%Z) (points df) = points df).
  { apply filter_all. intros p Hp. apply Z.leb_le. now apply Hlo. }
  assert (Hrun : running initial_capital
                   (filter (fun p => (lo <=? key p)%Z) (points df)))
    by (rewrite Hall; apply points_running, Hv).
  destruct (buckets_from key (points df) (Z.to_nat (hi - lo + 1)) lo
              initial_capital Hkey Hrun) as [H1 H2].
  assert (Eb : buckets per df =
               map (fun j => aggregate (j, filter (fun p => (key p =? j)%Z) (points df)))
                   (map (fun i => (lo + Z.of_nat i)%Z)
                        (seq 0 (Z.to_nat (hi - lo + 1)))))
    by (unfold df; rewrite buckets_bins; reflexivity).
  rewrite Eb. split; [exact H1|].
  assert (Hnone : filter (fun p => (lo + Z.of_nat (Z.to_nat (hi - lo + 1)) <=? key p)%Z)
                         (points df) = []).
  { apply filter_none. intros p Hp. apply Z.leb_gt.
    specialize (Hhi p Hp). lia. }
  assert (E0 : Pd.sum (map p_net_pnl []) == 0) by reflexivity.
  rewrite Hnone, E0, Qplus_0_r, Hall, points_net_pnl in H2.
  exact H2.
Qed.

Lemma dropna_consistent bs : forall acc,
  buckets_consistent acc bs ->
  daily_consistent acc (dropna bs) /\
  Pd.Qsum (map d_net_pnl (dropna bs)) == Pd.Qsum (map b_net_pnl bs).
Proof.
  induction bs as [|b bs IH]; intros acc H; [split; [exact I|reflexivity]|].
  cbn [buckets_consistent dropna] in *.
  destruct (b_equity b) as [e|]; destruct H as [H1 H2];
    destruct (IH _ H2) as [IH1 IH2]; cbn [map daily_consistent d_equity d_net_pnl];
    rewrite ?Qsum_cons.
  - split; [split; assumption|]. now rewrite IH2.
  - split; [assumption|]. rewrite IH2, H1. ring.
Qed.

Lemma daily_consistent_last ds : forall acc,
  daily_consistent acc ds ->
  List.last (map d_equity ds) acc == acc + Pd.Qsum (map d_net_pnl ds).
Proof.
  induction ds as [|d ds IH]; intros acc H; [cbn; ring|].
  destruct H as [H1 H2]. cbn [map]. rewrite last_cons, Qsum_cons.
  rewrite (IH _ H2), H1. ring.
Qed.

Lemma daily_consistent_nth ds : forall acc k d dflt,
  daily_consistent acc ds ->
  nth_error ds k = Some d ->
  d_equity d ==
  match k with
  | O => acc
  | S j => match nth_error ds j with
           | Some d' => d_equity d'
           | None => dflt
           end
  end + d_net_pnl d.
Proof.
  induction ds as [|d0 ds IH]; intros acc k d dflt H Hk;
    [destruct k; discriminate|].
  destruct H as [H1 H2]. destruct k as [|j]; cbn in Hk.
  - now injection Hk as <-.
  - rewrite (IH _ j d dflt H2 Hk). destruct j; reflexivity.
Qed.

Lemma day_of_mono a b : (a <= b)%Z -> (day_of a <= day_of b)%Z.
Proof. intros H. unfold day_of. apply Z.div_le_mono; lia. Qed.

Lemma daily_of_sorted df :
  net_pnl_valid df ->
  time_sorted df ->
  daily_consistent initial_capital (daily df) /\
  Pd.Qsum (map d_net_pnl (daily df)) == Pd.sum (net_pnl df).
Proof.
  intros Hv H.
  destruct (buckets_of_sorted day_of df Hv
              (keys_ascend_mono day_of _ df day_of_mono H)) as [H1 H2].
  destruct (dropna_consistent _ _ H1) as [H3 H4].
  split; [exact H3|]. unfold daily, daily_buckets. now rewrite H4.
Qed.

(** X11: Line 69 after line 28: on a frame in time order with no zero
    close the daily table is in step with the equity: each day closes on
    the close of the day before (the initial capital for the first day)
    plus the day's net P&L; the daily net P&L adds up to the net P&L of
    all bars; and the last day closes on the final equity. *)
Theorem daily_table_consistent (df : list Row) :
  closes_nonzero df ->
  time_sorted df ->
  daily_consistent initial_capital (daily df) /\
  Pd.Qsum (map d_net_pnl (daily df)) == Pd.sum (net_pnl df) /\
  (forall fe, Pd.iloc_last (equity df) = Ok (Some fe) ->
              List.last (map d_equity (daily df)) initial_capital == fe).
Proof.
  intros Hnz H. pose proof (closes_nonzero_valid df Hnz) as Hv.
  destruct (daily_of_sorted df Hv H) as [H1 H2].
  split; [exact H1|]. split; [exact H2|].
  intros fe Hfe. destruct (final_equity_sum df _ Hv Hfe) as [q [[= <-] Hq]].
  now rewrite (daily_consistent_last _ _ H1), H2, Hq.
Qed.

(** [frame_gap] is in time order; its five days add up to the final
    equity. *)
Lemma daily_table_consistent_witness :
  daily_consistent initial_capital (daily frame_gap) /\
  Pd.Qsum (map d_net_pnl (daily frame_gap)) == Pd.sum (net_pnl frame_gap).
Proof.
  assert (H : time_sorted frame_gap)
    by (unfold time_sorted, frame_gap; cbn [keys_ascend];
        repeat split; vm_compute; discriminate).
  destruct (daily_table_consistent frame_gap
              ltac:(closes_nonzero_by_cases) H) as (H1 & H2 & _).
  split; assumption.
Defined.

Lemma daily_ret_nth ds k d :
  nth_error ds k = Some d ->
  nth_error (daily_ret_of ds) k
  = Some (xdiv (d_net_pnl d) (prev_equity_at ds k)).
Proof.
  intros H. unfold daily_ret_of.
  rewrite nth_error_zip_with, nth_error_map, H, nth_error_fillna.
  unfold Pd.shift.
  rewrite (nth_error_shift_from None (map d_equity ds) k (d_equity d))
    by (rewrite nth_error_map, H; reflexivity).
  cbn [option_map]. f_equal. f_equal.
  destruct k as [|j]; [reflexivity|]. cbn [prev_equity_at].
  rewrite nth_error_map. destruct (nth_error ds j); reflexivity.
Qed.

Lemma xdiv_nonzero x y : ~ y == 0 -> xdiv x y = Fin (x / y).
Proof. intros H. unfold xdiv. now rewrite (Qeq_bool_nonzero y H). Qed.

Lemma xdiv_zero x y :
  y == 0 ->
  (xdiv x y = NaN \/ infinite (xdiv x y) = true) /\
  (xdiv x y = NaN <-> x == 0).
Proof.
  intros H. unfold xdiv.
  assert (Qeq_bool y 0 = true) as -> by now apply Qeq_bool_iff.
  destruct (Qeq_bool x 0) eqn:E.
  - apply Qeq_bool_iff in E. split; [now left|tauto].
  - assert (~ x == 0)
      by (intros K; apply Qeq_bool_iff in K; congruence).
    destruct (Qltb 0 x); (split; [now right|]);
      split; [discriminate|contradiction|discriminate|contradiction].
Qed.

(** X12: Line 70 after line 28: on a frame in time order with no zero
    close, a day closes on the close of the day before (the initial
    capital for the first day) plus its net P&L.  When that earlier close
    is not zero, the return of the day is the day's net P&L over it,
    which is the relative change of the daily equity; when it is zero,
    the return is not a number: NaN when the day's net P&L is zero, an
    infinity otherwise. *)
Theorem daily_return_is_equity_change (df : list Row) (k : nat) (d : Daily) :
  closes_nonzero df ->
  time_sorted df ->
  nth_error (daily df) k = Some d ->
  d_equity d == prev_equity_at (daily df) k + d_net_pnl d /\
  (~ prev_equity_at (daily df) k == 0 ->
   nth_error (daily_ret df) k
     = Some (Fin (d_net_pnl d / prev_equity_at (daily df) k)) /\
   d_net_pnl d / prev_equity_at (daily df) k
   == d_equity d / prev_equity_at (daily df) k - 1) /\
  (prev_equity_at (daily df) k == 0 ->
   exists c,
     nth_error (daily_ret df) k = Some c /\
     (c = NaN \/ infinite c = true) /\
     (c = NaN <-> d_net_pnl d == 0)).
Proof.
  intros Hnz Hs Hk.
  destruct (daily_of_sorted df (closes_nonzero_valid df Hnz) Hs) as [H1 _].
  pose proof (daily_consistent_nth _ _ k d initial_capital H1 Hk) as He.
  fold (prev_equity_at (daily df) k) in He.
  pose proof (daily_ret_nth _ k d Hk) as Hr. fold (daily_ret df) in Hr.
  split; [exact He|]. split.
  - intros Hp. rewrite (xdiv_nonzero _ _ Hp) in Hr. split; [exact Hr|].
    rewrite He. field. exact Hp.
  - intros Hz. eexists. split; [exact Hr|]. now apply xdiv_zero.
Qed.

(** On [frame_gap] the day of 2 March is measured against the close of
    1 March. *)
Lemma daily_return_is_equity_change_witness :
  exists d,
    nth_error (daily frame_gap) 3 = Some d /\
    d_equity d == prev_equity_at (daily frame_gap) 3 + d_net_pnl d /\
    nth_error (daily_ret frame_gap) 3
      = Some (Fin (d_net_pnl d / prev_equity_at (daily frame_gap) 3)).
Proof.
  assert (H : time_sorted frame_gap)
    by (unfold time_sorted, frame_gap; cbn [keys_ascend];
        repeat split; vm_compute; discriminate).
  eexists. split; [vm_compute; reflexivity|].
  destruct (daily_return_is_equity_change frame_gap 3 _
              ltac:(closes_nonzero_by_cases) H
              ltac:(vm_compute; reflexivity)) as (H1 & H2 & _).
  split; [exact H1|]. apply H2. vm_compute. discriminate.
Defined.


(** * Fees *)

Lemma trade_cost_length df : length (trade_cost df) = length df.
Proof.
  unfold trade_cost, Pd.shift.
  rewrite zip_with_length, shift_from_length, position_length. lia.
Qed.

Lemma trade_pnl_length df : length (trade_pnl df) = length df.
Proof.
  unfold trade_pnl, trade_return, Pd.shift.
  rewrite length_map, zip_with_length, length_combine, shift_from_length,
    !length_map, position_length. lia.
Qed.

(** The fee of a bar is charged exactly where line 96 starts a trade:
    the NaN that line 60 compares with on bar 0 makes no difference,
    bar 0 being flat. *)
Lemma trade_cost_at_start df i :
  trade_cost_of (position_at df i) (prev_position_at df i)
  = if start_at df i then transaction_cost else 0.
Proof.
  destruct i as [|j]; [reflexivity|].
  unfold start_at, trade_cost_of, trade_start_of, differs.
  cbn [prev_position_at]. reflexivity.
Qed.

Lemma trade_cost_starts df :
  trade_cost df
  = map (fun b : bool => if b then transaction_cost else 0) (trade_start df).
Proof.
  apply nth_error_ext. intros i. rewrite nth_error_map.
  destruct (nth_error df i) as [r|] eqn:E.
  - rewrite (trade_cost_nth df i r E), (trade_start_nth df i r E).
    cbn [option_map]. f_equal. apply trade_cost_at_start.
  - assert (H1 : nth_error (trade_cost df) i = None)
      by (apply nth_error_None; rewrite trade_cost_length;
          now apply nth_error_None).
    assert (H2 : nth_error (trade_start df) i = None)
      by (apply nth_error_None; rewrite trade_start_length;
          now apply nth_error_None).
    now rewrite H1, H2.
Qed.

Lemma Qsum_fees (c : Q) (l : list bool) :
  Pd.Qsum (map (fun b : bool => if b then c else 0) l)
  == c * inject_Z (Z.of_nat (length (filter (fun b : bool => b) l))).
Proof.
  induction l as [|b l IH]; [cbn; ring|].
  cbn [map filter]. rewrite Qsum_cons, IH. destruct b; [|ring].
  cbn [length]. rewrite Nat2Z.inj_succ, <- Z.add_1_r, inject_Z_plus. ring.
Qed.

Lemma total_fees df :
  Pd.Qsum (trade_cost df)
  == transaction_cost * inject_Z (Z.of_nat (length (trade_log df))).
Proof.
  rewrite trade_cost_starts, Qsum_fees.
  now rewrite (proj1 (trade_log_count df)).
Qed.

Lemma sum_minus_costs (xs : list (option Q)) : forall cs : list Q,
  length xs = length cs ->
  Forall (fun x => x <> None) xs ->
  Pd.sum (Pd.zip_with (fun x c => nsub x (Some c)) xs cs)
  == Pd.sum xs - Pd.Qsum cs.
Proof.
  induction xs as [|x xs IH]; intros [|c cs] Hlen Hv; try discriminate;
    [reflexivity|].
  inversion Hv as [|? ? Hx Hxs]; subst. destruct x as [x|]; [|congruence].
  injection Hlen as Hlen.
  cbn [Pd.zip_with nsub lift2]. rewrite !sum_cons_valid, Qsum_cons.
  rewrite (IH cs Hlen Hxs). ring.
Qed.

Lemma trade_pnl_valid df :
  net_pnl_valid df -> Forall (fun x => x <> None) (trade_pnl df).
Proof.
  intros Hv.
  apply Forall_forall. intros x Hx. apply In_nth_error in Hx as [i Hi].
  unfold trade_pnl in Hi. rewrite nth_error_map in Hi.
  destruct (nth_error df i) as [r|] eqn:E.
  - rewrite (trade_return_nth df i r E) in Hi. cbn [option_map] in Hi.
    injection Hi as <-.
    destruct (Hv i r E) as [q Hq]. unfold net_pnl_at in Hq.
    destruct (trade_return_of (position_at df i) (close r) (prev_close_at df i));
      [discriminate|discriminate Hq].
  - assert (H1 : nth_error (trade_return df) i = None).
    { apply nth_error_None.
      pose proof (trade_pnl_length df) as Hl. unfold trade_pnl in Hl.
      rewrite length_map in Hl. rewrite Hl. now apply nth_error_None. }
    rewrite H1 in Hi. discriminate.
Qed.

Lemma net_pnl_gross df :
  net_pnl_valid df ->
  Pd.sum (net_pnl df) == Pd.sum (trade_pnl df) - Pd.Qsum (trade_cost df).
Proof.
  intros Hv. unfold net_pnl.
  apply sum_minus_costs; [|apply trade_pnl_valid, Hv].
  now rewrite trade_pnl_length, trade_cost_length.
Qed.

(** X13: Lines 58-63 and 95-106: the fees of a run add up to one
    [transaction_cost] for every trade of the log; with no zero close,
    the net P&L of the bars is their gross P&L less these fees. *)
Theorem one_fee_per_trade (df : list Row) :
  Pd.Qsum (trade_cost df)
    == transaction_cost * inject_Z (Z.of_nat (length (trade_log df))) /\
  (closes_nonzero df ->
   Pd.sum (net_pnl df)
     == Pd.sum (trade_pnl df)
        - transaction_cost * inject_Z (Z.of_nat (length (trade_log df)))).
Proof.
  split; [apply total_fees|]. intros Hnz.
  rewrite (net_pnl_gross df (closes_nonzero_valid df Hnz)), total_fees.
  reflexivity.
Qed.

(** On [frame_loss] two trades pay 200 in all. *)
Lemma one_fee_per_trade_witness :
  Pd.Qsum (trade_cost frame_loss) == 200 /\
  Pd.sum (net_pnl frame_loss) == Pd.sum (trade_pnl frame_loss) - 200.
Proof.
  destruct (one_fee_per_trade frame_loss) as [H1 H2].
  specialize (H2 ltac:(closes_nonzero_by_cases)).
  split.
  - rewrite H1. vm_compute. reflexivity.
  - rewrite H2. vm_compute. reflexivity.
Defined.

Lemma ndiv_capital q :
  ndiv (Some q) (Some initial_capital) = Some (q / initial_capital).
Proof. reflexivity. Qed.

(** X14: Lines 75-80: with no zero close, the total return in percent,
    times 1000, is the total net P&L of the bars, which is the total P&L
    of the trade log and the gross P&L of the bars less one fee for every
    trade. *)
Theorem total_return_is_net_pnl (sqrt : Q -> Q) (df : list Row) (out : Output) :
  closes_nonzero df ->
  backtest sqrt df = Ok out ->
  exists fe tr,
    Final_Equity (summary_metrics out) = Some fe /\
    Total_Return (summary_metrics out) = Some tr /\
    tr == (fe / initial_capital - 1) * 100 /\
    tr * 1000 == Pd.sum (net_pnl df) /\
    tr * 1000 == Pd.Qsum (map pnl (out_trade_log out)) /\
    tr * 1000 == Pd.sum (trade_pnl df)
                 - transaction_cost
                   * inject_Z (Z.of_nat (length (out_trade_log out))).
Proof.
  intros Hnz. pose proof (closes_nonzero_valid df Hnz) as Hv.
  unfold backtest, bind.
  destruct (Pd.iloc_last (equity df)) as [fe|e] eqn:El; [|discriminate].
  destruct (final_equity_sum df fe Hv El) as [q [-> Hq]].
  cbv zeta. rewrite ndiv_capital. intros [= <-].
  cbn [summary_metrics out_trade_log Final_Equity Total_Return
       nmul nsub lift2].
  exists q, ((q / initial_capital - 1) * 100).
  split; [reflexivity|]. split; [reflexivity|]. split; [reflexivity|].
  assert (K : (q / initial_capital - 1) * 100 * 1000 == Pd.sum (net_pnl df)).
  { rewrite Hq. unfold initial_capital. field. }
  split; [exact K|]. split; [now rewrite trade_log_pnl|].
  rewrite K, (net_pnl_gross df Hv), total_fees. reflexivity.
Qed.

(** On [frame_flat_exit] the run ends 8.23 percent up, one fee paid. *)
Lemma total_return_is_net_pnl_witness :
  exists out tr,
    backtest sqrt_approx frame_flat_exit = Ok out /\
    Total_Return (summary_metrics out) = Some tr /\
    tr * 1000 == Pd.sum (net_pnl frame_flat_exit) /\
    tr * 1000 == Pd.Qsum (map pnl (out_trade_log out)) /\
    tr * 1000 == Pd.sum (trade_pnl frame_flat_exit) - transaction_cost * 1.
Proof.
  eexists.
  destruct (total_return_is_net_pnl sqrt_approx frame_flat_exit _
              ltac:(closes_nonzero_by_cases) eq_refl)
    as (fe & tr & _ & H1 & _ & H2 & H3 & H4).
  exists tr. repeat split; assumption.
Defined.


Lemma monthly_of_buckets bs : forall rets acc,
  length rets = length bs ->
  buckets_consistent acc bs ->
  monthly_consistent acc
    (Pd.zip_with (fun b r => mkMonthly (b_label b) (b_net_pnl b) (b_equity b) r)
       bs rets).
Proof.
  induction bs as [|b bs IH]; intros [|r rets] acc Hlen H; try discriminate;
    [exact I|].
  injection Hlen as Hlen.
  cbn [Pd.zip_with monthly_consistent buckets_consistent m_equity m_net_pnl] in *.
  destruct (b_equity b); destruct H as [H1 H2]; (split; [exact H1|]);
    now apply IH.
Qed.

Lemma monthly_net_pnl_col df :
  map m_net_pnl (monthly df) = map b_net_pnl (monthly_buckets df).
Proof.
  apply nth_error_ext. intros i. rewrite !nth_error_map.
  destruct (nth_error (monthly_buckets df) i) as [b|] eqn:E.
  - destruct (monthly_nth df i b E) as [ret [_ ->]]. reflexivity.
  - apply nth_error_None in E. rewrite <- monthly_length in E.
    apply nth_error_None in E. now rewrite E.
Qed.

(** * Calendar months in time order *)

Section Calendar.

Local Open Scope Z_scope.

Lemma holds_from_spec p n : forall k x,
  holds_from p n k = true -> k <= x < k + Z.of_nat n -> p x = true.
Proof.
  induction n as [|n IH]; intros k x H Hx; [lia|].
  cbn [holds_from] in H. apply andb_true_iff in H as [H1 H2].
  destruct (Z.eq_dec x k) as [->|Hne]; [exact H1|].
  apply (IH (k + 1)); [exact H2|lia].
Qed.

Lemma year_of_era_mono a b :
  0 <= a -> a <= b -> b <= 146096 -> year_of_era a <= year_of_era b.
Proof.
  intros H0 H1 H2. unfold year_of_era. apply Z.div_le_mono; [lia|].
  Z.to_euclidean_division_equations; lia.
Qed.

(** Every year of an era, checked one by one: its first and its last day
    fall in it. *)
Lemma year_of_era_ends :
  holds_from (fun y => (year_of_era (year_start y) =? y) &&
                       (year_of_era (year_start (y + 1) - 1) =? y))
             400 0 = true.
Proof. vm_compute. reflexivity. Qed.

Lemma year_start_step y : 365 <= year_start (y + 1) - year_start y <= 366.
Proof. unfold year_start. Z.to_euclidean_division_equations; lia. Qed.

Lemma year_located n : forall doe,
  0 <= doe < year_start (Z.of_nat n) ->
  exists y, 0 <= y < Z.of_nat n /\ year_start y <= doe < year_start (y + 1).
Proof.
  induction n as [|n IH]; intros doe H; [cbn in H; lia|].
  replace (Z.of_nat (S n)) with (Z.of_nat n + 1) in * by lia.
  destruct (Z_lt_le_dec doe (year_start (Z.of_nat n))) as [Hlt|Hge].
  - destruct (IH doe ltac:(lia)) as (y & Hy & Hd). exists y. split; [lia|exact Hd].
  - exists (Z.of_nat n). split; lia.
Qed.

(** A day of an era lies in its year: not before the year starts, and at
    most 365 days after. *)
Lemma year_of_era_bounds doe :
  0 <= doe <= 146096 ->
  0 <= year_of_era doe <= 399 /\
  0 <= doe - year_start (year_of_era doe) <= 365.
Proof.
  intros H. destruct (Z.eq_dec doe 146096) as [->|Hne];
    [vm_compute; repeat split; discriminate|].
  destruct (year_located 400 doe) as (y & Hy & Hd);
    [change (year_start (Z.of_nat 400)) with 146096; lia|].
  pose proof (holds_from_spec _ _ 0 y year_of_era_ends ltac:(lia)) as Hc.
  cbv beta in Hc. apply andb_true_iff in Hc as [Hc1 Hc2].
  apply Z.eqb_eq in Hc1, Hc2.
  pose proof (year_start_step y) as Hs.
  assert (Hlast : year_start (y + 1) - 1 <= 146096)
    by (unfold year_start; Z.to_euclidean_division_equations; lia).
  assert (E : year_of_era doe = y).
  { pose proof (year_of_era_mono (year_start y) doe) as M1.
    pose proof (year_of_era_mono doe (year_start (y + 1) - 1)) as M2.
    assert (0 <= year_start y)
      by (unfold year_start; Z.to_euclidean_division_equations; lia).
    lia. }
  rewrite E. lia.
Qed.

Lemma month_of_day_era d :
  let doe := (d + 719468) mod 146097 in
  month_of_day d =
  4800 * ((d + 719468) / 146097) + 12 * year_of_era doe
  + (5 * (doe - year_start (year_of_era doe)) + 2) / 153 - 23638.
Proof.
  intros doe.
  pose proof (Z.mod_pos_bound (d + 719468) 146097 ltac:(lia)) as Hb.
  fold doe in Hb.
  destruct (year_of_era_bounds doe ltac:(lia)) as [Hy Hd].
  unfold month_of_day. cbv zeta.
  replace (d + 719468 - (d + 719468) / 146097 * 146097) with doe
    by (unfold doe; rewrite Z.mod_eq by lia; lia).
  fold (year_of_era doe). set (y := year_of_era doe) in *.
  fold (year_start y). set (doy := doe - year_start y) in *.
  assert (Hmp : 0 <= (5 * doy + 2) / 153 <= 11)
    by (Z.to_euclidean_division_equations; lia).
  set (mp := (5 * doy + 2) / 153) in *.
  destruct (mp <? 10) eqn:E1; [apply Z.ltb_lt in E1|apply Z.ltb_ge in E1].
  - assert ((mp + 3 <=? 2) = false) as -> by (apply Z.leb_gt; lia). lia.
  - assert ((mp - 9 <=? 2) = true) as -> by (apply Z.leb_le; lia). lia.
Qed.

(** A later day is in the same month or in a later one. *)
Lemma month_of_day_mono a b : a <= b -> month_of_day a <= month_of_day b.
Proof.
  intros H. rewrite !month_of_day_era. cbv zeta.
  set (za := a + 719468). set (zb := b + 719468).
  assert (Hz : za <= zb) by (unfold za, zb; lia).
  pose proof (Z.mod_pos_bound za 146097 ltac:(lia)) as Ha.
  pose proof (Z.mod_pos_bound zb 146097 ltac:(lia)) as Hb.
  pose proof (Z.div_mod za 146097 ltac:(lia)) as Da.
  pose proof (Z.div_mod zb 146097 ltac:(lia)) as Db.
  pose proof (Z.div_le_mono za zb 146097 ltac:(lia) Hz) as He.
  destruct (year_of_era_bounds (za mod 146097) ltac:(lia)) as [Ya Ra].
  destruct (year_of_era_bounds (zb mod 146097) ltac:(lia)) as [Yb Rb].
  set (da := za mod 146097) in *. set (db := zb mod 146097) in *.
  set (ya := year_of_era da) in *. set (yb := year_of_era db) in *.
  assert (Ma : 0 <= (5 * (da - year_start ya) + 2) / 153 <= 11)
    by (Z.to_euclidean_division_equations; lia).
  assert (Mb : 0 <= (5 * (db - year_start yb) + 2) / 153 <= 11)
    by (Z.to_euclidean_division_equations; lia).
  destruct (Z.eq_dec (za / 146097) (zb / 146097)) as [Ee|Ne]; [|lia].
  assert (Hd : da <= db) by lia.
  pose proof (year_of_era_mono da db ltac:(lia) Hd ltac:(lia)) as Hy.
  fold ya yb in Hy.
  destruct (Z.eq_dec ya yb) as [Ey|Ny]; [|lia].
  rewrite Ee, Ey in *.
  assert ((5 * (da - year_start yb) + 2) / 153 <= (5 * (db - year_start yb) + 2) / 153)
    by (apply Z.div_le_mono; lia).
  lia.
Qed.

End Calendar.

Lemma month_of_mono a b : (a <= b)%Z -> (month_of a <= month_of b)%Z.
Proof. intros H. apply month_of_day_mono, day_of_mono, H. Qed.

Lemma monthly_of_sorted df :
  net_pnl_valid df ->
  time_sorted df ->
  monthly_consistent initial_capital (monthly df) /\
  Pd.Qsum (map m_net_pnl (monthly df)) == Pd.sum (net_pnl df).
Proof.
  intros Hv H.
  destruct (buckets_of_sorted month_of df Hv
              (keys_ascend_mono month_of _ df month_of_mono H)) as [H1 H2].
  split.
  - unfold monthly. apply monthly_of_buckets; [|exact H1].
    unfold monthly_return_col.
    now rewrite length_map, pct_change_length, length_map.
  - rewrite monthly_net_pnl_col. exact H2.
Qed.

(** X15: Line 114 after line 28: on a frame in time order with no zero
    close the monthly table is in step with the equity: a month with bars
    closes on the close of the last month with bars before it (the
    initial capital for the first) plus its own net P&L, a month without
    bars has a net P&L of 0, and the monthly net P&L adds up to the net
    P&L of all bars. *)
Theorem monthly_table_consistent (df : list Row) :
  closes_nonzero df ->
  time_sorted df ->
  monthly_consistent initial_capital (monthly df) /\
  Pd.Qsum (map m_net_pnl (monthly df)) == Pd.sum (net_pnl df).
Proof.
  intros Hnz. exact (monthly_of_sorted df (closes_nonzero_valid df Hnz)).
Qed.

(** On [frame_gap] January closes on the capital, February is empty and
    March carries the whole net P&L. *)
Lemma monthly_table_consistent_witness :
  monthly_consistent initial_capital (monthly frame_gap) /\
  Pd.Qsum (map m_net_pnl (monthly frame_gap)) == Pd.sum (net_pnl frame_gap).
Proof.
  apply monthly_table_consistent; [closes_nonzero_by_cases|].
  unfold time_sorted, frame_gap.
  cbn [keys_ascend]. repeat split; vm_compute; discriminate.
Defined.

Lemma ffill_from_None p l j :
  nth_error l (S j) = Some None ->
  nth_error (Pd.ffill_from p l) (S j) = nth_error (Pd.ffill_from p l) j.
Proof.
  revert p j; induction l as [|c l IH]; intros p j H; [discriminate|].
  destruct j as [|j].
  - destruct l as [|c' l]; [discriminate|]. cbn in H. injection H as ->.
    destruct c; reflexivity.
  - cbn in H. destruct c as [x|]; cbn [Pd.ffill_from nth_error];
      now apply IH.
Qed.

Lemma monthly_return_padded df j m :
  net_pnl_valid df ->
  nth_error (monthly df) (S j) = Some m ->
  exists prev cur,
    nth_error (Pd.ffill (map m_equity (monthly df))) j = Some (Some prev) /\
    nth_error (Pd.ffill (map m_equity (monthly df))) (S j) = Some (Some cur) /\
    monthly_return m
    = nmul (nsub (ndiv (Some cur) (Some prev)) (Some 1)) (Some 100).
Proof.
  intros Hv H.
  destruct (monthly_nth_inv df (S j) m H) as (b & ret & Hb & Hret & ->).
  cbn [monthly_return].
  unfold monthly_return_col in Hret. rewrite nth_error_map in Hret.
  rewrite monthly_equity_col.
  destruct (nth_error_prefix _ (S j) b 0 Hb) as [b0 Hb0]; [lia|].
  destruct (monthly_first_equity df b0 Hv Hb0) as [e0 He0].
  destruct (monthly_buckets df) as [|b0' bs] eqn:Ebs; [discriminate|].
  injection Hb0 as ->. cbn [map] in *. rewrite He0 in *.
  assert (Hlen : (S j < length (Pd.ffill (Some e0 :: map b_equity bs)))%nat).
  { unfold Pd.ffill. rewrite ffill_from_length. cbn [length].
    rewrite length_map.
    assert (S j < length (b0 :: bs))%nat by (apply nth_error_Some; congruence).
    cbn [length] in *. lia. }
  destruct (nth_error (Pd.ffill (Some e0 :: map b_equity bs)) (S j))
    as [c|] eqn:Ec; [|apply nth_error_None in Ec; lia].
  destruct (nth_error (Pd.ffill (Some e0 :: map b_equity bs)) j)
    as [a|] eqn:Ea; [|apply nth_error_None in Ea; lia].
  destruct (ffill_defined e0 _ _ _ Ec) as [cur ->].
  destruct (ffill_defined e0 _ _ _ Ea) as [prev ->].
  exists prev, cur. split; [reflexivity|]. split; [reflexivity|].
  rewrite (pct_change_next _ j _ _ Ea Ec) in Hret. now injection Hret as <-.
Qed.

(** X16: Lines 114-115: with no zero close, the row of a month without
    bars shows a NaN equity, and its return measures the carried equity
    against itself: a number, 0, when that equity is not zero, and NaN
    (0/0) when it is zero. *)
Theorem empty_month_return (df : list Row) (j : nat) (m : Monthly) :
  closes_nonzero df ->
  nth_error (monthly df) (S j) = Some m ->
  m_equity m = None ->
  exists prev,
    nth_error (Pd.ffill (map m_equity (monthly df))) j = Some (Some prev) /\
    (~ prev == 0 ->
     exists ret, monthly_return m = Some ret /\ ret == 0) /\
    (prev == 0 -> monthly_return m = None).
Proof.
  intros Hnz H Hnone.
  destruct (monthly_return_padded df j m (closes_nonzero_valid df Hnz) H)
    as (prev & cur & H1 & H2 & H3).
  assert (K : nth_error (map m_equity (monthly df)) (S j) = Some None)
    by (rewrite nth_error_map, H; cbn; now rewrite Hnone).
  unfold Pd.ffill in *. rewrite (ffill_from_None None _ j K), H1 in H2.
  injection H2 as <-. exists prev. split; [exact H1|]. split.
  - intros Hp. rewrite (ndiv_nonzero _ _ Hp) in H3. cbn [nsub nmul lift2] in H3.
    eexists. split; [exact H3|]. field. exact Hp.
  - intros Hz. rewrite H3. cbn [ndiv].
    assert (Qeq_bool prev 0 = true) as -> by now apply Qeq_bool_iff.
    reflexivity.
Qed.

(** On [frame_gap] the February row has no equity and a return of 0. *)
Lemma empty_month_return_witness :
  exists m ret,
    nth_error (monthly frame_gap) 1 = Some m /\ m_equity m = None /\
    monthly_return m = Some ret /\ ret == 0.
Proof.
  eexists.
  destruct (empty_month_return frame_gap 0 _ ltac:(closes_nonzero_by_cases)
              ltac:(vm_compute; reflexivity) eq_refl) as (prev & H1 & H2 & _).
  assert (K : nth_error (Pd.ffill (map m_equity (monthly frame_gap))) 0
              = Some (Some 100000)) by (vm_compute; reflexivity).
  destruct H2 as (ret & H3 & H4);
    [rewrite K in H1; injection H1 as <-; discriminate|].
  exists ret. split; [vm_compute; reflexivity|]. split; [reflexivity|].
  split; [exact H3|exact H4].
Defined.

(** * The sort of line 28 *)

Lemma insert_bar_In b l x : In x (insert_bar b l) <-> x = b \/ In x l.
Proof.
  induction l as [|h t IH]; cbn; [intuition|].
  destruct (datetime b <=? datetime h)%Z; cbn; [intuition|].
  rewrite IH. intuition.
Qed.

Lemma insert_bar_sorted b l :
  keys_ascend datetime l -> keys_ascend datetime (insert_bar b l).
Proof.
  induction l as [|h t IH]; intros H; [exact (conj I I)|].
  cbn [insert_bar]. destruct (datetime b <=? datetime h)%Z eqn:E.
  - apply Z.leb_le in E. split; [exact E|exact H].
  - apply Z.leb_gt in E.
    assert (Ht : keys_ascend datetime t) by (destruct t; [exact I|apply H]).
    specialize (IH Ht).
    destruct t as [|h' t]; [cbn; repeat split; lia|].
    destruct H as [Hle _]. cbn [insert_bar] in *.
    destruct (datetime b <=? datetime h')%Z; (split; [lia|exact IH]).
Qed.

Lemma insert_bar_perm b l : Permutation (b :: l) (insert_bar b l).
Proof.
  induction l as [|h t IH]; [reflexivity|]. cbn [insert_bar].
  destruct (datetime b <=? datetime h)%Z; [reflexivity|].
  rewrite perm_swap. now apply perm_skip.
Qed.

Lemma sort_values_ordered l : keys_ascend datetime (sort_values l).
Proof.
  induction l as [|b l IH]; [exact I|]. now apply insert_bar_sorted.
Qed.

Lemma sort_values_perm l : Permutation l (sort_values l).
Proof.
  induction l as [|b l IH]; [reflexivity|]. cbn [sort_values fold_right].
  rewrite <- insert_bar_perm. now apply perm_skip.
Qed.

(** Two arrangements of the same bars in time order are the same when no
    two bars share a time. *)
Lemma ascending_unique (l1 : list Bar) : forall l2,
  keys_ascend datetime l1 -> keys_ascend datetime l2 ->
  Permutation l1 l2 -> NoDup (map datetime l1) -> l1 = l2.
Proof.
  induction l1 as [|a t1 IH]; intros l2 H1 H2 Hp Hn.
  - now apply Permutation_nil in Hp.
  - destruct l2 as [|b t2];
      [symmetry in Hp; now apply Permutation_nil_cons in Hp|].
    assert (Hb : In b (a :: t1))
      by (apply (Permutation_in b (Permutation_sym Hp)); now left).
    assert (Ha : In a (b :: t2)) by (apply (Permutation_in a Hp); now left).
    assert (Hab : (datetime a <= datetime b)%Z)
      by (destruct Hb as [<-|Hb]; [lia|apply (keys_ascend_all datetime a t1 H1 b Hb)]).
    assert (Hba : (datetime b <= datetime a)%Z)
      by (destruct Ha as [<-|Ha]; [lia|apply (keys_ascend_all datetime b t2 H2 a Ha)]).
    inversion Hn as [|? ? Hnot Hn']; subst.
    assert (E : a = b).
    { destruct Hb as [E|Hb]; [exact E|]. exfalso. apply Hnot.
      replace (datetime a) with (datetime b) by lia. now apply in_map. }
    subst b. f_equal. apply IH.
    + destruct t1; [exact I|apply H1].
    + destruct t2; [exact I|apply H2].
    + now apply Permutation_cons_inv in Hp.
    + exact Hn'.
Qed.

Lemma sort_values_unique raw l :
  NoDup (map datetime raw) -> Permutation raw l -> keys_ascend datetime l ->
  l = sort_values raw.
Proof.
  intros Hn Hp Hl. symmetry. apply ascending_unique.
  - apply sort_values_ordered.
  - exact Hl.
  - rewrite <- Hp. symmetry. apply sort_values_perm.
  - apply (Permutation_NoDup (l := map datetime raw)); [|exact Hn].
    apply Permutation_map, sort_values_perm.
Qed.

(** X17: Line 28: the sorted frame is in ascending time order and holds the
    uploaded bars, each as often as it was uploaded; when no two bars
    share a time it is the only such arrangement of the upload. *)
Theorem sort_values_sorts (raw : list Bar) :
  keys_ascend datetime (sort_values raw) /\
  Permutation raw (sort_values raw) /\
  (NoDup (map datetime raw) ->
   forall l, Permutation raw l -> keys_ascend datetime l ->
             l = sort_values raw).
Proof.
  split; [apply sort_values_ordered|]. split; [apply sort_values_perm|].
  intros Hn l. now apply sort_values_unique.
Qed.

(** [upload_unsorted] holds 3, 1 and 2 January; sorted, 1, 2 and 3
    January. *)
Lemma sort_values_sorts_witness :
  NoDup (map datetime upload_unsorted) /\
  sort_values upload_unsorted
  = [ mkBar (jan 1) 10 11 9 10 1000;
      mkBar (jan 2) 10 12 10 11 1000;
      mkBar (jan 3) 11 13 11 12 1000 ].
Proof.
  assert (Hn : NoDup (map datetime upload_unsorted)).
  { vm_compute. repeat constructor; cbn; intuition discriminate. }
  split; [exact Hn|]. symmetry.
  apply (proj2 (proj2 (sort_values_sorts upload_unsorted)) Hn).
  - unfold upload_unsorted.
    apply (Permutation_cons_append
             [mkBar (jan 1) 10 11 9 10 1000; mkBar (jan 2) 10 12 10 11 1000]).
  - cbn [keys_ascend]. repeat split; vm_compute; discriminate.
Defined.

Lemma attach_bars bars levels df :
  attach bars levels = Ok df -> map bar df = bars.
Proof.
  unfold attach. destruct (length bars =? length levels)%nat eqn:E;
    [|discriminate].
  apply Nat.eqb_eq in E. intros [= <-].
  revert levels E; induction bars as [|b bars IH]; intros [|s levels] E;
    try discriminate; [reflexivity|].
  cbn. f_equal. apply IH. now injection E.
Qed.

(** X18: Lines 28-115: when no two uploaded bars share a time, the run does
    not depend on the order of the rows of the upload. *)
Theorem run_is_order_independent (sqrt : Q -> Q)
    (psar : list Bar -> result (list Q)) (raw raw' : list Bar) :
  NoDup (map datetime raw) -> Permutation raw raw' ->
  run sqrt psar raw = run sqrt psar raw'.
Proof.
  intros Hn Hp. unfold run. f_equal. symmetry.
  apply sort_values_unique; [exact Hn| |apply sort_values_ordered].
  rewrite Hp. apply sort_values_perm.
Qed.

(** The run on [upload_unsorted] is the run on the same bars uploaded in
    reverse. *)
Lemma run_is_order_independent_witness :
  run sqrt_approx level_at_low upload_unsorted
  = run sqrt_approx level_at_low (rev upload_unsorted).
Proof.
  apply run_is_order_independent.
  - vm_compute. repeat constructor; cbn; intuition discriminate.
  - apply Permutation_rev.
Defined.

(** X19: Lines 28-115: when no uploaded close is zero and the run on the
    upload completes, it ran on a frame in time order that holds the
    uploaded bars; its trade log is in time order and its monthly table is
    in step with the equity, whatever the order of the upload. *)
Theorem run_tables_in_time_order (sqrt : Q -> Q)
    (psar : list Bar -> result (list Q)) (raw : list Bar) (out : Output) :
  (forall b : Bar, In b raw -> ~ close b == 0) ->
  run sqrt psar raw = Ok out ->
  exists df,
    Permutation raw (map bar df) /\
    time_sorted df /\
    backtest sqrt df = Ok out /\
    chronological (out_trade_log out) /\
    monthly_consistent initial_capital (out_monthly out).
Proof.
  intros Hraw. unfold run, engine, bind.
  destruct (psar (sort_values raw)) as [levels|e]; [|discriminate].
  destruct (attach (sort_values raw) levels) as [df|e] eqn:Ea; [|discriminate].
  intros H. exists df. pose proof (attach_bars _ _ _ Ea) as Eb.
  assert (Hs : time_sorted df).
  { apply (keys_ascend_same datetime (fun r : Row => datetime r)
             (sort_values raw) df).
    - rewrite <- Eb, map_map. reflexivity.
    - apply sort_values_ordered. }
  assert (Hnz : closes_nonzero df).
  { intros r Hr. apply (Hraw (bar r)).
    apply (Permutation_in _ (Permutation_sym (sort_values_perm raw))).
    rewrite <- Eb. now apply in_map. }
  split; [rewrite Eb; apply sort_values_perm|]. split; [exact Hs|].
  split; [exact H|].
  apply backtest_Ok in H as (_ & _ & _ & _ & _ & -> & ->).
  split; [now apply log_chronological|].
  now apply monthly_of_sorted; [apply closes_nonzero_valid|].
Qed.


(** The run on [upload_unsorted] with [level_at_low] for the indicator:
    long from 2 January on. *)
Lemma run_tables_in_time_order_witness :
  exists out df,
    run sqrt_approx level_at_low upload_unsorted = Ok out /\
    Permutation upload_unsorted (map bar df) /\
    time_sorted df /\
    chronological (out_trade_log out) /\
    length (out_trade_log out) = 1%nat.
Proof.
  eexists.
  destruct (run_tables_in_time_order sqrt_approx level_at_low upload_unsorted _
              ltac:(closes_nonzero_by_cases)
              ltac:(vm_compute; reflexivity)) as (df & H1 & H2 & _ & H4 & _).
  exists df. split; [vm_compute; reflexivity|].
  split; [exact H1|]. split; [exact H2|]. split; [exact H4|reflexivity].
Defined.

(** * A run without a signal *)

Lemma points_equity df : map p_equity (points df) = equity df.
Proof.
  apply nth_error_ext. intros i. rewrite nth_error_map.
  destruct (nth_error df i) as [r|] eqn:E.
  - pose proof (net_pnl_nth df i r E) as Hn.
    unfold points. rewrite nth_error_zip_with, nth_error_map, E,
      nth_error_combine, Hn.
    destruct (nth_error (equity df) i) as [c|] eqn:Ee; [reflexivity|].
    apply nth_error_None in Ee. rewrite equity_length in Ee.
    apply nth_error_None in Ee. congruence.
  - assert (Hn : nth_error (points df) i = None)
      by (apply nth_error_None; rewrite points_length; now apply nth_error_None).
    rewrite Hn. symmetry. apply nth_error_None. rewrite equity_length.
    now apply nth_error_None.
Qed.

Lemma valid_In l e : In e (Pd.valid l) -> In (Some e) l.
Proof.
  induction l as [|[x|] l IH]; cbn; [auto| |auto].
  intros [->|H]; auto.
Qed.

Lemma last_In l e : Pd.last l = Some e -> In (Some e) l.
Proof.
  unfold Pd.last. intros H. apply valid_In, in_rev.
  destruct (rev (Pd.valid l)) as [|x t]; [discriminate|].
  injection H as ->. now left.
Qed.

Lemma In_dropna bs d :
  In d (dropna bs) ->
  exists b, In b bs /\ b_equity b = Some (d_equity d) /\ b_net_pnl b = d_net_pnl d.
Proof.
  induction bs as [|b bs IH]; [intros []|]. cbn [dropna].
  destruct (b_equity b) as [e|] eqn:E.
  - intros [<-|H].
    + exists b. split; [now left|]. split; [exact E|reflexivity].
    + destruct (IH H) as (b' & Hb & Hrest). exists b'. split; [now right|exact Hrest].
  - intros H. destruct (IH H) as (b' & Hb & Hrest).
    exists b'. split; [now right|exact Hrest].
Qed.

(** A bucket aggregates some of the rows of the frame. *)
Lemma In_buckets per df b :
  In b (buckets per df) ->
  exists k g, b = aggregate (k, g) /\ forall p, In p g -> In p (points df).
Proof.
  unfold buckets, Pd.resample. destruct (points df) as [|p0 ps]; [intros []|].
  rewrite map_map. intros H. apply in_map_iff in H as [k [<- _]].
  eexists. eexists. split; [reflexivity|].
  intros p Hp. now apply filter_In in Hp.
Qed.

(** The buckets of a frame without positions: no net P&L, and an equity,
    where there is one, of the initial capital. *)
Lemma flat_buckets per df b :
  Forall (fun p => p = 0%Z) (position df) ->
  In b (buckets per df) ->
  b_net_pnl b == 0 /\ forall e, b_equity b = Some e -> e == initial_capital.
Proof.
  intros Hflat Hb. apply In_buckets in Hb as (k & g & -> & Hg).
  unfold aggregate. cbn [snd b_net_pnl b_equity]. split.
  - rewrite sum_or_zero, map_map. apply Qsum_zero. intros p Hp.
    assert (Hc : In (p_net_pnl p) (net_pnl df))
      by (rewrite <- points_net_pnl; apply in_map, Hg, Hp).
    rewrite (flat_net_pnl_cells df Hflat _ Hc). cbn [or_zero]. ring.
  - intros e He. apply last_In in He. apply in_map_iff in He as [p [Ep Hp]].
    assert (Hc : In (Some e) (equity df))
      by (rewrite <- Ep, <- points_equity; apply in_map, Hg, Hp).
    pose proof (flat_equity_cells df Hflat) as Hall.
    rewrite Forall_forall in Hall.
    destruct (Hall _ Hc) as [e' [[= <-] He']]. exact He'.
Qed.

Lemma flat_daily df d :
  Forall (fun p => p = 0%Z) (position df) ->
  In d (daily df) -> d_net_pnl d == 0 /\ d_equity d == initial_capital.
Proof.
  intros Hflat Hd. apply In_dropna in Hd as (b & Hb & He & Hn).
  destruct (flat_buckets day_of df b Hflat Hb) as [H1 H2].
  split; [now rewrite <- Hn|now apply H2].
Qed.

Lemma bins_cons lo hi :
  (lo <= hi)%Z -> exists rest, Pd.bins lo hi = lo :: rest.
Proof.
  intros H. unfold Pd.bins.
  destruct (Z.to_nat (hi - lo + 1)) as [|n] eqn:E; [lia|].
  cbn [seq map]. rewrite Z.add_0_r. eauto.
Qed.

(** The first day of a frame in time order whose cells are numbers has
    a row in the daily table. *)
Lemma daily_nonempty r0 t :
  net_pnl_valid (r0 :: t) -> time_sorted (r0 :: t) -> daily (r0 :: t) <> [].
Proof.
  intros Hv Hs Hnil.
  assert (Hd : map d_day (daily (r0 :: t)) =
               filter (has_bar day_of (r0 :: t))
                      (Pd.bins (day_of (datetime r0))
                               (day_of (datetime (List.last (r0 :: t) r0)))))
    by (unfold daily; rewrite daily_buckets_eq, buckets_bins;
        now apply dropna_buckets).
  destruct (bins_cons (day_of (datetime r0))
              (day_of (datetime (List.last (r0 :: t) r0)))) as [rest E].
  { apply day_of_mono.
    apply (keys_ascend_last (fun r : Row => datetime r) (r0 :: t) r0 r0 Hs).
    now left. }
  rewrite E, Hnil in Hd. cbn [filter map] in Hd.
  rewrite has_bar_first in Hd. discriminate.
Qed.

Lemma nondecreasing_const (c : Q) l :
  (forall x, In x l -> x == c) -> nondecreasing l.
Proof.
  induction l as [|x [|y t] IH]; intros H; cbn; auto.
  split.
  - rewrite (H x), (H y); [apply Qle_refl|right; now left|now left].
  - apply IH. intros z Hz. apply H. now right.
Qed.

Lemma In_zip_with {A B C} (f : A -> B -> C) l m z :
  In z (Pd.zip_with f l m) -> exists a b, In a l /\ In b m /\ z = f a b.
Proof.
  revert m; induction l as [|a l IH]; intros [|b m] H; try destruct H.
  - exists a, b. repeat split; auto; now left.
  - destruct (IH m H) as (a' & b' & Ha & Hb & E).
    exists a', b'. repeat split; auto; now right.
Qed.

Lemma Qsum_all_zero l : (forall x, In x l -> x == 0) -> Pd.Qsum l == 0.
Proof.
  intros H. rewrite <- (map_id l). now apply (Qsum_zero (fun x => x)).
Qed.

Lemma var_all_zero l v :
  (forall x, In x l -> x == 0) -> Pd.var l = Some v -> v == 0.
Proof.
  intros Hz Hv.
  destruct (Nat.lt_ge_cases (length l) 2) as [Hlt|Hge];
    [apply var_None in Hlt; congruence|].
  rewrite (var_Some l Hge) in Hv. injection Hv as <-.
  pose proof (Qsum_all_zero l Hz) as Hs.
  set (m := Pd.Qsum l / inject_Z (Z.of_nat (length l))).
  assert (Hm : m == 0) by (unfold m; rewrite Hs; unfold Qdiv; ring).
  assert (H0 : Pd.Qsum (map (fun x => (x - m) * (x - m)) l) == 0).
  { apply Qsum_zero. intros x Hx. rewrite (Hz x Hx), Hm. ring. }
  rewrite H0. unfold Qdiv. ring.
Qed.

Lemma sharpe_of_all_zero sqrt l :
  (forall x, x == 0 -> sqrt x == 0) ->
  (forall x, In x l -> x == 0) -> sharpe_of sqrt l = None.
Proof.
  intros Hsqrt Hz. unfold sharpe_of, std.
  destruct (Pd.var l) as [v|] eqn:E; [|reflexivity].
  cbn [option_map positive].
  assert (Hq : Qltb 0 (sqrt v) = false).
  { apply Qltb_ge. rewrite (Hsqrt v (var_all_zero l v Hz E)). apply Qle_refl. }
  now rewrite Hq.
Qed.

Lemma In_fillna_shift_from {A} (d : A) l : forall (p : option A) x,
  In x (Pd.fillna d (Pd.shift_from p l)) -> x = d \/ p = Some x \/ In x l.
Proof.
  induction l as [|a l IH]; intros p x H; [destruct H|].
  cbn [Pd.shift_from Pd.fillna map] in H. destruct H as [H|H].
  - destruct p as [v|]; [right; left; now subst|now left].
  - destruct (IH (Some a) x H) as [K|[K|K]];
      [now left|right; right; left; congruence|right; right; now right].
Qed.

Lemma In_fillna_shift {A} (d : A) l x :
  In x (Pd.fillna d (Pd.shift l)) -> x = d \/ In x l.
Proof.
  intros H. destruct (In_fillna_shift_from d l None x H) as [K|[K|K]];
    [now left|discriminate|now right].
Qed.

Lemma finite_all_fin l :
  (forall c, In c l -> exists x, c = Fin x /\ x == 0) ->
  existsb infinite l = false /\ forall x, In x (finite l) -> x == 0.
Proof.
  induction l as [|c l IH]; intros H; [split; [reflexivity|intros x []]|].
  destruct (H c (or_introl eq_refl)) as [q [-> Hq]].
  destruct IH as [H1 H2]; [intros c Hc; apply H; now right|].
  cbn [existsb infinite finite orb]. split; [exact H1|].
  intros x [<-|Hx]; [exact Hq|now apply H2].
Qed.

(** X20: Lines 47-115 on a frame in time order on which the indicator never
    leaves the close: the run ends on the initial capital with a total
    return of 0, a NaN Sharpe ratio, a maximum drawdown of 0, an empty
    trade log and monthly rows without net P&L. *)
Theorem flat_run (sqrt : Q -> Q) (r0 : Row) (t : list Row) :
  (forall x, x == 0 -> sqrt x == 0) ->
  time_sorted (r0 :: t) ->
  Forall (fun p => p = 0%Z) (position (r0 :: t)) ->
  exists out fe tr dd,
    backtest sqrt (r0 :: t) = Ok out /\
    Final_Equity (summary_metrics out) = Some fe /\ fe == initial_capital /\
    Total_Return (summary_metrics out) = Some tr /\ tr == 0 /\
    Sharpe (summary_metrics out) = None /\
    Max_Drawdown (summary_metrics out) = Some dd /\ dd == 0 /\
    out_trade_log out = [] /\
    Forall (fun m => m_net_pnl m == 0) (out_monthly out).
Proof.
  intros Hsqrt Hs Hflat. set (df := r0 :: t) in *.
  (* the daily table *)
  assert (Hday : forall e, In e (map d_equity (daily df)) -> e == initial_capital).
  { intros e He. apply in_map_iff in He as [d [<- Hd]].
    exact (proj2 (flat_daily df d Hflat Hd)). }
  pose proof (flat_valid df Hflat) as Hv.
  destruct (map d_equity (daily df)) as [|e0 rest] eqn:Ed.
  { apply map_eq_nil in Ed. now apply daily_nonempty in Ed. }
  assert (He0 : 0 < e0)
    by (rewrite (Hday e0 (or_introl eq_refl)); reflexivity).
  destruct (max_dd_of_facts e0 rest He0) as (dd & Hdd & _ & _ & Hzero).
  assert (Hdd0 : dd == 0)
    by (apply Hzero, (nondecreasing_const initial_capital), Hday).
  (* the daily returns *)
  assert (Hret : forall c, In c (daily_ret df) -> exists x, c = Fin x /\ x == 0).
  { intros c Hc. apply In_zip_with in Hc as (a & b & Ha & Hb & ->).
    apply in_map_iff in Ha as [d [<- Hd]].
    assert (Hbc : b == initial_capital).
    { apply In_fillna_shift in Hb as [->|Hb]; [reflexivity|].
      apply in_map_iff in Hb as [d' [<- Hd']].
      exact (proj2 (flat_daily df d' Hflat Hd')). }
    assert (Hb0 : ~ b == 0) by (rewrite Hbc; discriminate).
    rewrite (xdiv_nonzero _ _ Hb0). eexists. split; [reflexivity|].
    rewrite (proj1 (flat_daily df d Hflat Hd)). unfold Qdiv. ring. }
  destruct (finite_all_fin _ Hret) as [Hinf Hfin].
  (* the summary *)
  unfold backtest, bind.
  destruct (Pd.iloc_last (equity df)) as [fe|e] eqn:El;
    [|destruct (iloc_last_defined (equity df)) as [x Hx];
      [intros K; apply (f_equal (@length _)) in K;
       rewrite equity_length in K; discriminate K|congruence]].
  destruct (final_equity_sum df fe Hv El) as [q [-> Hq]].
  assert (Hq0 : q == initial_capital).
  { rewrite Hq, sum_or_zero, Qsum_zero; [ring|].
    intros x Hx. rewrite (flat_net_pnl_cells df Hflat x Hx).
    cbn [or_zero]. ring. }
  cbv zeta. rewrite ndiv_capital.
  eexists. exists q, ((q / initial_capital - 1) * 100), dd.
  split; [reflexivity|].
  cbn [summary_metrics Final_Equity Total_Return Sharpe Max_Drawdown
       out_trade_log out_monthly nmul nsub lift2].
  split; [reflexivity|]. split; [exact Hq0|]. split; [reflexivity|].
  split; [rewrite Hq0; reflexivity|].
  split; [unfold sharpe; rewrite sharpe_cells_eq, Hinf;
          apply (sharpe_of_all_zero sqrt _ Hsqrt Hfin)|].
  split; [unfold max_dd; rewrite Ed; exact Hdd|]. split; [exact Hdd0|].
  split; [now apply log_empty_iff_flat|].
  apply Forall_forall. intros m Hm.
  apply In_monthly in Hm as (b & Hb & _ & -> & _).
  rewrite monthly_buckets_eq in Hb.
  exact (proj1 (flat_buckets month_of df b Hflat Hb)).
Qed.

(** The run on [frame_flat], with [sqrt_approx] for the square root. *)
Lemma flat_run_witness :
  exists out,
    backtest sqrt_approx frame_flat = Ok out /\
    Sharpe (summary_metrics out) = None /\
    out_trade_log out = [] /\
    Forall (fun m => m_net_pnl m == 0) (out_monthly out).
Proof.
  destruct (flat_run sqrt_approx
              (mkRow (mkBar (jan 1) 10 11 9 10 1000) 10)
              [mkRow (mkBar (jan 2) 10 12 10 11 1000) 11]
              sqrt_approx_zero)
    as (out & fe & tr & dd & H1 & _ & _ & _ & _ & H2 & _ & _ & H3 & H4).
  - cbn [time_sorted keys_ascend]. repeat split; vm_compute; discriminate.
  - vm_compute. repeat constructor.
  - exists out. repeat split; assumption.
Defined.
